(** * ecom-scraper-demo: the concurrent fetch-retry-persist pipeline

    A shallow embedding of [webscraper/utils.py], [webscraper/asyncio.py],
    [webscraper/database.py] and [main.py], and the properties of the
    pipeline proved over it.

    Conventions of the embedding:
    - a Python value is a [pyval]; a [dict] keeps its insertion order, so it
      is an association list;
    - a function that can raise returns [result A = exn + A];
    - the network, the event loop and the clock are an environment: the
      outcome of the [n]-th invocation of a coroutine and the order in which
      tasks complete are arbitrary inputs, and every theorem quantifies over
      them;
    - a Python [float] duration is an exact rational ([Q]). *)

From Stdlib Require Import ZArith QArith Lia.
From stdpp Require Import base list strings gmap sorting.
From stdpp Require Import pretty.

Set Warnings "-register-all".
Local Open Scope string_scope.
Local Open Scope list_scope.
Local Open Scope Z_scope.

(** ** Python values and exceptions *)

Inductive pyval : Type :=
| PNone
| PInt (z : Z)
| PStr (s : string)
| PList (items : list pyval)
| PDict (fields : list (string * pyval)).

(** A work item ([params]) and a result record are both [dict]s. *)
Definition WorkItem : Type := list (string * pyval).

(** The exceptions of the program. All of them derive from Python's
    [Exception]; signals outside that class (KeyboardInterrupt, task
    cancellation) are not part of the model. *)
Inductive exn : Type :=
| TooManyRetries (params : WorkItem)
| ValueError (msg : string)
| TypeError (msg : string)
| KeyError (key : string)
| AttributeError (msg : string)
| OverflowError (msg : string)
| TimeoutError
| SqliteError (msg : string)
| OtherException (cls : string).

Definition result (A : Type) : Type := exn + A.

Definition raise {A} (e : exn) : result A := inl e.
Definition ret {A} (a : A) : result A := inr a.

Definition bind {A B} (m : result A) (k : A -> result B) : result B :=
  match m with
  | inl e => inl e
  | inr a => k a
  end.

Notation "'let*' x ':=' m 'in' k" := (bind m (fun x => k))
  (at level 10, x pattern, m at level 100, k at level 200).

(** [isinstance(e, TooManyRetries)] together with the [params] property. *)
Definition as_TooManyRetries (e : exn) : option WorkItem :=
  match e with
  | TooManyRetries p => Some p
  | _ => None
  end.

(** ** webscraper/utils.py *)

Definition is_list (v : pyval) : bool :=
  match v with
  | PList _ => true
  | _ => false
  end.

Definition list_items (v : pyval) : list pyval :=
  match v with
  | PList items => items
  | _ => []
  end.

(** [flatten(list_of_lists)]: the [all(isinstance(sublist, list) ...)] guard,
    then the nested comprehension. *)
Definition flatten (list_of_lists : list pyval) : result (list pyval) :=
  if forallb is_list list_of_lists
  then ret (concat (map list_items list_of_lists))
  else raise (ValueError "All elements of the input must be of type list.").

(** ** webscraper/asyncio.py: the retry executor *)

(** What one awaited invocation of a unit of work does. *)
Inductive attempt : Type :=
| Returns (v : pyval)
| Raises (e : exn)
| TimesOut.

(** A unit of work ([coro]): the outcome of its [n]-th invocation (counted
    from 0) on [params] when it is awaited with the given timeout. *)
Definition coroutine : Type := WorkItem -> nat -> Q -> attempt.

(** [asyncio.wait_for(aw, timeout=timeout)]. *)
Definition wait_for (aw : Q -> attempt) (timeout : Q) : result pyval :=
  match aw timeout with
  | Returns v => ret v
  | Raises e => raise e
  | TimesOut => raise TimeoutError
  end.

(** What [retry] does to the outside world, in order. *)
Inductive event : Type :=
| EvCall (params : WorkItem)
| EvSleep (delay : Q).

(** The conversion of the [int] [2**i] to a [float], which
    [backoff_factor * (2**i)] performs: a binary64 holds [2**i] exactly up to
    [i = 1023], and the conversion raises beyond. *)
Definition float_of_pow2 (i : nat) : result Q :=
  if (i <? 1024)%nat
  then ret (inject_Z (2 ^ Z.of_nat i))
  else raise (OverflowError "int too large to convert to float").

(** The body of [for i in range(max_retries)], with [retry_interval] as the
    loop-carried variable. The second component is the trace of calls and
    sleeps. *)
Fixpoint retry_loop (coro : coroutine) (params : WorkItem)
    (timeout backoff_factor : Q) (range : list nat) (retry_interval : Q)
    : result pyval * list event :=
  match range with
  | [] => (raise (TooManyRetries params), [])
  | i :: range' =>
      match wait_for (coro params i) timeout with
      | inr v => (ret v, [EvCall params])
      | inl _ =>
          (* except Exception: sleep, then compute the next interval *)
          match float_of_pow2 i with
          | inl e => (raise e, [EvCall params; EvSleep retry_interval])
          | inr p =>
              let '(r, evs) :=
                retry_loop coro params timeout backoff_factor range'
                  (backoff_factor * p)%Q in
              (r, EvCall params :: EvSleep retry_interval :: evs)
          end
      end
  end.

Definition retry (coro : coroutine) (params : WorkItem) (max_retries : Z)
    (timeout backoff_factor : Q) : result pyval * list event :=
  retry_loop coro params timeout backoff_factor
    (seq 0 (Z.to_nat max_retries)) 0%Q.

(** [**kwargs] of [make_requests], forwarded to [retry]: the three keywords
    [retry] knows, and the names of any others. *)
Record retry_kwargs : Type := {
  kw_max_retries : option Z;
  kw_timeout : option Q;
  kw_backoff_factor : option Q;
  kw_unexpected : list string
}.

Definition no_kwargs : retry_kwargs :=
  {| kw_max_retries := None; kw_timeout := None;
     kw_backoff_factor := None; kw_unexpected := [] |}.

(** [retry(sessioned_coro, params, **kwargs)]: Python binds the keywords
    before the body runs, with the defaults of the signature. *)
Definition call_retry (coro : coroutine) (params : WorkItem)
    (kwargs : retry_kwargs) : result pyval * list event :=
  match kw_unexpected kwargs with
  | name :: _ =>
      (raise (TypeError ("retry() got an unexpected keyword argument '"
                           ++ name ++ "'")), [])
  | [] =>
      retry coro params
        (default 5 (kw_max_retries kwargs))
        (default 10%Q (kw_timeout kwargs))
        (default 1%Q (kw_backoff_factor kwargs))
  end.

(** The wait that follows the failed attempt [i]. *)
Definition backoff_wait (backoff_factor : Q) (i : nat) : Q :=
  match i with
  | O => 0%Q
  | S j => (backoff_factor * inject_Z (2 ^ Z.of_nat j))%Q
  end.

(** The trace of [k] failed attempts, each followed by its wait. *)
Definition failed_attempts (params : WorkItem) (backoff_factor : Q)
    (first k : nat) : list event :=
  flat_map (fun i => [EvCall params; EvSleep (backoff_wait backoff_factor i)])
    (seq first k).

Definition is_failure (a : attempt) : bool :=
  match a with
  | Returns _ => false
  | _ => true
  end.

Definition is_call (e : event) : bool :=
  match e with
  | EvCall _ => true
  | EvSleep _ => false
  end.

Definition count_calls (evs : list event) : nat :=
  length (List.filter is_call evs).

Definition count_sleeps (evs : list event) : nat :=
  length (List.filter (fun e => negb (is_call e)) evs).

(** ** webscraper/asyncio.py: the pipeline orchestrator *)

(** [_constants.BATCH_SIZE]. *)
Definition BATCH_SIZE : Z := 10000.

(** One call [table_handler.insert_into(flatten(results))]: the buffer as it
    was, and the flattened data the sink received. *)
Record flush : Type := {
  flush_buffer : list pyval;
  flush_data : list pyval
}.

(** The local variables of [make_requests] that the reducer loop mutates,
    the state of the sink behind [table_handler], and the log of the calls
    made to it. *)
Record reducer (Sink : Type) : Type := {
  results : list pyval;
  failed : list WorkItem;
  succeeded : Z;
  sink : Sink;
  flushes : list flush
}.
Arguments results {Sink} _.
Arguments failed {Sink} _.
Arguments succeeded {Sink} _.
Arguments sink {Sink} _.
Arguments flushes {Sink} _.

(** A finished task: [task.exception()] on the left, [task.result()] on the
    right. *)
Definition task : Type := result pyval.

(** [_semaphore_coroutine(params)]: the retry call made while holding a
    slot of the semaphore. *)
Definition _semaphore_coroutine (sessioned_coro : coroutine)
    (kwargs : retry_kwargs) (params : WorkItem) : task :=
  fst (call_retry sessioned_coro params kwargs).

(** [asyncio.create_task(_semaphore_coroutine(params)) for params in
    parameters]; [coro i] is what the unit of work does inside task [i]. *)
Definition create_tasks (coro : nat -> coroutine) (kwargs : retry_kwargs)
    (parameters : list WorkItem) : list task :=
  imap (fun i params => _semaphore_coroutine (coro i) kwargs params) parameters.

Definition init_reducer {Sink} (table_handler : Sink) : reducer Sink :=
  {| results := []; failed := []; succeeded := 0;
     sink := table_handler; flushes := [] |}.

(** [table_handler.insert_into(flatten(results))], then
    [succeeded += len(results)]. The buffer is left as it is. *)
Definition write_batch {Sink} (insert_into : list pyval -> Sink -> result Sink)
    (st : reducer Sink) : result (reducer Sink) :=
  let* data := flatten (results st) in
  let* sink' := insert_into data (sink st) in
  ret {| results := results st;
         failed := failed st;
         succeeded := succeeded st + Z.of_nat (length (results st));
         sink := sink';
         flushes := flushes st ++
           [{| flush_buffer := results st; flush_data := data |}] |}.

(** [results.clear()]. *)
Definition clear_results {Sink} (st : reducer Sink) : reducer Sink :=
  {| results := []; failed := failed st; succeeded := succeeded st;
     sink := sink st; flushes := flushes st |}.

(** The body of [for task in done]. *)
Definition handle_done {Sink} (insert_into : list pyval -> Sink -> result Sink)
    (t : task) (st : reducer Sink) : result (reducer Sink) :=
  match t with
  | inl task_exception =>
      match as_TooManyRetries task_exception with
      | Some params =>
          ret {| results := results st;
                 failed := failed st ++ [params];
                 succeeded := succeeded st;
                 sink := sink st; flushes := flushes st |}
      | None => ret st
      end
  | inr r =>
      let st1 := {| results := results st ++ [r];
                    failed := failed st; succeeded := succeeded st;
                    sink := sink st; flushes := flushes st |} in
      if BATCH_SIZE <=? Z.of_nat (length (results st1))
      then let* st2 := write_batch insert_into st1 in ret (clear_results st2)
      else ret st1
  end.

(** [for task in done]: [done] lists the indices of the finished tasks in
    the order the loop visits them. *)
Fixpoint for_task_in_done {Sink}
    (insert_into : list pyval -> Sink -> result Sink)
    (tasks : list task) (done : list nat) (st : reducer Sink)
    : result (reducer Sink) :=
  match done with
  | [] => ret st
  | i :: done' =>
      match tasks !! i with
      | Some t =>
          let* st' := handle_done insert_into t st in
          for_task_in_done insert_into tasks done' st'
      | None => for_task_in_done insert_into tasks done' st
      end
  end.

(** [while pending_tasks]: one element of [completion] per return of
    [asyncio.wait(..., return_when=FIRST_COMPLETED)]. *)
Fixpoint while_pending_tasks {Sink}
    (insert_into : list pyval -> Sink -> result Sink)
    (tasks : list task) (completion : list (list nat)) (st : reducer Sink)
    : result (reducer Sink) :=
  match completion with
  | [] => ret st
  | done :: completion' =>
      let* st' := for_task_in_done insert_into tasks done st in
      while_pending_tasks insert_into tasks completion' st'
  end.

(** The statements after the loop: the last, partial batch. *)
Definition write_remaining {Sink}
    (insert_into : list pyval -> Sink -> result Sink)
    (st : reducer Sink) : result (reducer Sink) :=
  if 0 <? Z.of_nat (length (results st))
  then write_batch insert_into st
  else ret st.

(** What a call of [make_requests] gives back: the returned tuple, with the
    sink and the log of its calls as they are on return. *)
Record summary (Sink : Type) : Type := {
  succeeded_count : Z;
  failed_items : list WorkItem;
  sink_after : Sink;
  flush_log : list flush
}.
Arguments succeeded_count {Sink} _.
Arguments failed_items {Sink} _.
Arguments sink_after {Sink} _.
Arguments flush_log {Sink} _.

Definition summarise {Sink} (st : reducer Sink) : summary Sink :=
  {| succeeded_count := succeeded st; failed_items := failed st;
     sink_after := sink st; flush_log := flushes st |}.

(** [make_requests(coro, parameters, concurrency_limit, table_handler,
    **kwargs)] under a completion schedule. [None] stands for a call that
    never returns: with a semaphore of value 0 no task ever gets a slot, and
    [asyncio.wait] waits forever. [asyncio.Semaphore] refuses a negative
    value. *)
Definition make_requests {Sink} (coro : nat -> coroutine)
    (parameters : list WorkItem) (concurrency_limit : Z)
    (insert_into : list pyval -> Sink -> result Sink) (table_handler : Sink)
    (kwargs : retry_kwargs) (completion : list (list nat))
    : option (result (summary Sink)) :=
  if concurrency_limit <? 0
  then Some (raise (ValueError "Semaphore initial value must be >= 0"))
  else if (concurrency_limit =? 0) && bool_decide (parameters <> [])
  then None
  else
    let tasks := create_tasks coro kwargs parameters in
    Some (let* st := while_pending_tasks insert_into tasks completion
                       (init_reducer table_handler) in
          let* st' := write_remaining insert_into st in
          ret (summarise st')).

(** The sink of tests/test_asyncio.py: [insert_into] does nothing. *)
Definition mock_insert_into (data : list pyval) (s : unit) : result unit :=
  ret s.

(** The outcomes of the tasks in the order the reducer visits them. *)
Definition visited (tasks : list task) (completion : list (list nat))
    : list task :=
  omap (fun i => tasks !! i) (concat completion).

(** The reducer loop over the visited tasks themselves. *)
Fixpoint handle_all {Sink} (insert_into : list pyval -> Sink -> result Sink)
    (ts : list task) (st : reducer Sink) : result (reducer Sink) :=
  match ts with
  | [] => ret st
  | t :: ts' =>
      let* st' := handle_done insert_into t st in
      handle_all insert_into ts' st'
  end.

Definition task_result (t : task) : option pyval :=
  match t with
  | inr r => Some r
  | inl _ => None
  end.

Definition task_exhausted (t : task) : option WorkItem :=
  match t with
  | inl e => as_TooManyRetries e
  | inr _ => None
  end.

(** ** webscraper/asyncio.py: the concurrency limiter

    The tasks of one [make_requests] call on the event loop. Every task is
    created before the loop runs any of them; a task enters
    [async with semaphore] when the semaphore's value is positive, runs
    [retry] to its end while holding the slot, and leaves the block, which
    releases the slot. Which enabled task moves next is the event loop's
    choice, so the run is a sequence of [action]s. *)

Inductive phase : Type :=
| Scheduled
| Running
| Finished (outcome : task).

Record loop_state : Type := {
  sem_value : Z;
  phases : list phase;
  finish_order : list nat
}.

Inductive action : Type :=
| Acquire (i : nat)
| Finish (i : nat).

(** The state after [semaphore = asyncio.Semaphore(concurrency_limit)] and
    the [create_task] comprehension. *)
Definition loop_init (concurrency_limit : Z) (parameters : list WorkItem)
    : loop_state :=
  {| sem_value := concurrency_limit;
     phases := map (fun _ => Scheduled) parameters;
     finish_order := [] |}.

Definition loop_step (tasks : list task) (a : action) (s : loop_state)
    : option loop_state :=
  match a with
  | Acquire i =>
      match phases s !! i with
      | Some Scheduled =>
          if 0 <? sem_value s
          then Some {| sem_value := sem_value s - 1;
                       phases := <[i := Running]> (phases s);
                       finish_order := finish_order s |}
          else None
      | _ => None
      end
  | Finish i =>
      match phases s !! i, tasks !! i with
      | Some Running, Some t =>
          Some {| sem_value := sem_value s + 1;
                  phases := <[i := Finished t]> (phases s);
                  finish_order := finish_order s ++ [i] |}
      | _, _ => None
      end
  end.

Fixpoint loop_run (tasks : list task) (actions : list action) (s : loop_state)
    : option loop_state :=
  match actions with
  | [] => Some s
  | a :: actions' =>
      match loop_step tasks a s with
      | Some s' => loop_run tasks actions' s'
      | None => None
      end
  end.

Definition is_running (p : phase) : bool :=
  match p with
  | Running => true
  | _ => false
  end.

Definition is_finished (p : phase) : bool :=
  match p with
  | Finished _ => true
  | _ => false
  end.

(** The number of units of work executing in a state. *)
Definition count_running (s : loop_state) : Z :=
  Z.of_nat (length (List.filter is_running (phases s))).

(** What holds in every state of the event loop under a limit. *)
Record loop_inv (concurrency_limit : Z) (n : nat) (s : loop_state) : Prop := {
  inv_slots : sem_value s + count_running s = concurrency_limit;
  inv_value : 0 <= sem_value s;
  inv_tasks : length (phases s) = n;
  inv_order_nodup : NoDup (finish_order s);
  inv_order :
    forall i, i ∈ finish_order s <-> exists t, phases s !! i = Some (Finished t)
}.

(** ** webscraper/database.py

    [TableHandler] talks to SQLite; the part of the engine it uses is
    modelled here from SQLite's documented behaviour:
    - a value is NULL, an integer or a text;
    - [INSERT OR REPLACE] deletes the rows whose PRIMARY KEY equals the new
      row's before it inserts; NULL keys never conflict with each other;
    - a column declared [INTEGER PRIMARY KEY] is the rowid itself: a NULL
      there is replaced by a fresh rowid, a text there is refused, and the
      rows are kept by rowid;
    - in the other tables a new row gets the next rowid, so it comes last
      in [SELECT *];
    - a column's affinity may convert the bound value before it is stored;
      the conversion is the parameter [affinity] (declared type, bound
      value), about which nothing is assumed. *)

Inductive sqlval : Type :=
| SNull
| SInt (z : Z)
| SText (s : string).

#[global] Instance sqlval_eq_dec : EqDecision sqlval.
Proof. solve_decision. Defined.

Definition row : Type := list sqlval.

(** A parsed column list of [_constants.py]: names with their declared
    types, the position of the PRIMARY KEY column, and whether that column
    is declared [INTEGER PRIMARY KEY]. *)
Record table_schema : Type := {
  schema_columns : list (string * string);
  schema_pk : nat;
  schema_rowid_pk : bool
}.

Definition CATEGORIES_TABLE : table_schema :=
  {| schema_columns := [("id", "INTEGER"); ("gender", "TEXT");
                        ("category", "TEXT"); ("subcategory", "TEXT");
                        ("base_url", "TEXT")];
     schema_pk := 0; schema_rowid_pk := true |}.

Definition PAGES_URLS_TABLE : table_schema :=
  {| schema_columns := [("id", "INTEGER"); ("page_url", "TEXT")];
     schema_pk := 1; schema_rowid_pk := false |}.

Definition ARTICLES_URLS_TABLE : table_schema :=
  {| schema_columns := [("id", "INTEGER"); ("page_url", "TEXT");
                        ("article_url", "TEXT")];
     schema_pk := 2; schema_rowid_pk := false |}.

Definition ARTICLES_DATA_TABLE : table_schema :=
  {| schema_columns := [("id", "INTEGER"); ("article_url", "TEXT");
                        ("description", "TEXT"); ("colour", "TEXT");
                        ("tags", "TEXT"); ("materials", "TEXT");
                        ("images_urls", "TEXT")];
     schema_pk := 1; schema_rowid_pk := false |}.

Definition DB_SCHEMA : gmap string table_schema :=
  list_to_map [("categories", CATEGORIES_TABLE);
               ("pages_urls", PAGES_URLS_TABLE);
               ("articles_urls", ARTICLES_URLS_TABLE);
               ("articles_data", ARTICLES_DATA_TABLE)].

(** The rows of a table: by rowid when the rowid is the declared key, in
    rowid order otherwise. *)
Inductive table : Type :=
| RowidTable (rows : gmap Z row)
| IndexTable (rows : list row).

(** The database file: its tables by name. *)
Abbreviation db := (gmap string table).

Definition empty_table (schema : table_schema) : table :=
  if schema_rowid_pk schema then RowidTable ∅ else IndexTable [].

(** The adapter of the [sqlite3] module from a Python value to an SQLite
    value. *)
Definition bind_value (v : pyval) : result sqlval :=
  match v with
  | PNone => ret SNull
  | PInt z =>
      if (- 2 ^ 63 <=? z) && (z <? 2 ^ 63)
      then ret (SInt z)
      else raise (OverflowError
                    "Python int too large to convert to SQLite INTEGER")
  | PStr s => ret (SText s)
  | PList _ =>
      raise (SqliteError "Error binding parameter: type 'list' is not supported")
  | PDict _ =>
      raise (SqliteError "Error binding parameter: type 'dict' is not supported")
  end.

Fixpoint bind_values (vs : list pyval) : result row :=
  match vs with
  | [] => ret []
  | v :: vs' =>
      let* x := bind_value v in
      let* xs := bind_values vs' in
      ret (x :: xs)
  end.

(** The rowid SQLite gives a row inserted without one. *)
Definition next_rowid (rows : gmap Z row) : Z :=
  match map_fold (fun k _ acc => Some (from_option (Z.max k) k acc)) None rows with
  | Some largest => largest + 1
  | None => 1
  end.

Definition pk_of (schema : table_schema) (r : row) : sqlval :=
  default SNull (r !! schema_pk schema).

(** [INSERT OR REPLACE] of one stored row. *)
Definition insert_or_replace (schema : table_schema) (r : row) (t : table)
    : result table :=
  match t with
  | RowidTable rows =>
      match pk_of schema r with
      | SInt z => ret (RowidTable (<[z := r]> rows))
      | SNull =>
          let z := next_rowid rows in
          ret (RowidTable (<[z := <[schema_pk schema := SInt z]> r]> rows))
      | SText _ => raise (SqliteError "datatype mismatch")
      end
  | IndexTable rows =>
      match pk_of schema r with
      | SNull => ret (IndexTable (rows ++ [r]))
      | key =>
          ret (IndexTable
                 (filter (fun r' => pk_of schema r' <> key) rows ++ [r]))
      end
  end.

(** [tuple(c.values())]. *)
Definition dict_values (c : pyval) : result (list pyval) :=
  match c with
  | PDict fields => ret (map snd fields)
  | _ => raise (AttributeError "object has no attribute 'values'")
  end.

Fixpoint all_dict_values (data : list pyval) : result (list (list pyval)) :=
  match data with
  | [] => ret []
  | c :: data' =>
      let* t := dict_values c in
      let* ts := all_dict_values data' in
      ret (t :: ts)
  end.

(** A connection: what is on disk, and what the open transaction sees. *)
Record connection : Type := {
  committed : db;
  working : db
}.

Definition connect (database : db) : connection :=
  {| committed := database; working := database |}.

Definition commit (conn : connection) : connection :=
  {| committed := working conn; working := working conn |}.

Definition rollback (conn : connection) : connection :=
  {| committed := committed conn; working := committed conn |}.

(** [with self._connect() as conn: body]: commit when the body ends
    normally, roll back when it raises. The pair is what is on disk
    afterwards and the exception that leaves the block, if any. *)
Definition with_connection (database : db)
    (body : connection -> connection * option exn) : db * option exn :=
  let '(conn, raised) := body (connect database) in
  match raised with
  | Some e => (committed (rollback conn), Some e)
  | None => (committed (commit conn), None)
  end.

Record TableHandler : Type := {
  _table_name : string
}.

Section Engine.

Variable affinity : string -> sqlval -> sqlval.

Definition store (schema : table_schema) (bound : row) : row :=
  zip_with (fun col x => affinity col.2 x) (schema_columns schema) bound.

(** One execution of
    [INSERT OR REPLACE INTO t (c1,...,cn) VALUES (?,...,?)] with a tuple of
    parameters. *)
Definition execute_insert (table_name : string) (schema : table_schema)
    (parameters : list pyval) (working_db : db) : result db :=
  if decide (length parameters = length (schema_columns schema))
  then
    let* bound := bind_values parameters in
    match working_db !! table_name with
    | Some t =>
        let* t' := insert_or_replace schema (store schema bound) t in
        ret (<[table_name := t']> working_db)
    | None => raise (SqliteError "no such table")
    end
  else raise (SqliteError "Incorrect number of bindings supplied").

(** [cursor.executemany]: the tuples one after the other inside the open
    transaction; the first that fails stops it. *)
Fixpoint executemany (table_name : string) (schema : table_schema)
    (seq_of_parameters : list (list pyval)) (conn : connection)
    : connection * option exn :=
  match seq_of_parameters with
  | [] => (conn, None)
  | parameters :: rest =>
      match execute_insert table_name schema parameters (working conn) with
      | inl e => (conn, Some e)
      | inr w =>
          executemany table_name schema rest
            {| committed := committed conn; working := w |}
      end
  end.

(** [TableHandler.create_table]: [CREATE TABLE IF NOT EXISTS]. *)
Definition create_table (self : TableHandler) (database : db)
    : db * option exn :=
  with_connection database (fun conn =>
    match DB_SCHEMA !! _table_name self with
    | None => (conn, Some (KeyError (_table_name self)))
    | Some schema =>
        match working conn !! _table_name self with
        | Some _ => (commit conn, None)
        | None =>
            (commit {| committed := committed conn;
                       working := <[_table_name self := empty_table schema]>
                                    (working conn) |}, None)
        end
    end).

(** [TableHandler(table_name)]. *)
Definition TableHandler_init (table_name : string) (database : db)
    : db * result TableHandler :=
  let self := {| _table_name := table_name |} in
  match create_table self database with
  | (database', None) => (database', ret self)
  | (database', Some e) => (database', raise e)
  end.

(** [TableHandler.insert_into]. *)
Definition insert_into (self : TableHandler) (data : list pyval)
    (database : db) : db * option exn :=
  with_connection database (fun conn =>
    match DB_SCHEMA !! _table_name self with
    | None => (conn, Some (SqliteError "no such table"))
    | Some schema =>
        match all_dict_values data with
        | inl e => (conn, Some e)
        | inr tuples =>
            match executemany (_table_name self) schema tuples conn with
            | (conn', Some e) => (conn', Some e)
            | (conn', None) => (commit conn', None)
            end
        end
    end).

(** [insert_into] as [make_requests] sees it: it returns or it raises. *)
Definition insert_into_sink (self : TableHandler) (data : list pyval)
    (database : db) : result db :=
  match insert_into self data database with
  | (database', None) => ret database'
  | (_, Some e) => raise e
  end.

End Engine.

(** The conversion of a stored value back to Python. *)
Definition pyval_of_sql (x : sqlval) : pyval :=
  match x with
  | SNull => PNone
  | SInt z => PInt z
  | SText s => PStr s
  end.

Definition rowid_le (a b : Z * row) : Prop := a.1 <= b.1.

#[global] Instance rowid_le_dec a b : Decision (rowid_le a b).
Proof. unfold rowid_le. apply _. Defined.

(** [SELECT * FROM table]: the rows in rowid order. *)
Definition select_all (t : table) : list row :=
  match t with
  | RowidTable rows => map snd (merge_sort rowid_le (map_to_list rows))
  | IndexTable rows => rows
  end.

(** [TableHandler.to_pandas().to_dict("records")]: one dict per row, keyed
    by the column names. *)
Definition to_records (self : TableHandler) (database : db)
    : result (list WorkItem) :=
  match DB_SCHEMA !! _table_name self, database !! _table_name self with
  | Some schema, Some t =>
      ret (map (fun r => zip (map fst (schema_columns schema))
                             (map pyval_of_sql r))
             (select_all t))
  | _, _ => raise (SqliteError "no such table")
  end.

(** No conversion on storing: what SQLite does for an integer in an
    INTEGER column, a text in a TEXT column, and NULL anywhere. *)
Definition stored_as_bound (decltype : string) (x : sqlval) : sqlval := x.

(** ** webscraper/asyncio.py: the record of [compile_article_data]

    The record is built from an [articles_urls] row and the extracted data:
    five assignments on a copy of [article_dict], then [pop("page_url")].
    [dict_set] is [d[k] = v] and [dict_pop] is [d.pop(k)]. *)
Fixpoint dict_set (k : string) (v : pyval) (d : list (string * pyval))
    : list (string * pyval) :=
  match d with
  | [] => [(k, v)]
  | (k', v') :: d' =>
      if decide (k = k') then (k, v) :: d' else (k', v') :: dict_set k v d'
  end.

Definition dict_pop (k : string) (d : list (string * pyval))
    : result (list (string * pyval)) :=
  if decide (k ∈ map fst d)
  then ret (filter (fun kv => kv.1 <> k) d)
  else raise (KeyError k).

Definition article_record (article_dict : WorkItem)
    (description colour tags materials img_urls : pyval) : result WorkItem :=
  dict_pop "page_url"
    (dict_set "img_urls" img_urls
       (dict_set "materials" materials
          (dict_set "tags" tags
             (dict_set "colour" colour
                (dict_set "description" description article_dict))))).

(** ** main.py: the stage sequencer *)

Definition CONCURRENCY_LIMIT : Z := 100.

(** What the program leaves behind: the database file and the log. Next to
    the three kinds of log lines, [Requests] records each call of
    [make_requests]: its stage, its [parameters], and the database at the
    moment of the call. *)
Inductive log_entry : Type :=
| LogInfo (stage : nat)
| LogSuccess (stage : nat)
| LogError (stage n_failed n_total : nat)
| Requests (stage : nat) (parameters : list WorkItem) (stored : db).

Record world : Type := {
  database : db;
  journal : list log_entry
}.

(** The site and the event loop, as the sequencer meets them:
    [extract_categories_urls()], the extractor of each stage inside each of
    its tasks, and the order in which a stage's tasks are visited. *)
Record environment : Type := {
  env_extract_categories_urls : result (list WorkItem);
  env_compile : nat -> nat -> coroutine;
  env_completion : nat -> list WorkItem -> list (list nat)
}.

(** A step of the program: it does not return ([None]), raises, or returns a
    value in a new world. *)
Definition M (A : Type) : Type := world -> option (result (A * world)).

Definition M_ret {A} (a : A) : M A := fun w => Some (ret (a, w)).

Definition M_bind {A B} (c : M A) (k : A -> M B) : M B :=
  fun w =>
    match c w with
    | None => None
    | Some (inl e) => Some (inl e)
    | Some (inr (a, w')) => k a w'
    end.

Notation "'perform' x ':=' c 'in' k" := (M_bind c (fun x => k))
  (at level 10, x pattern, c at level 100, k at level 200).

Definition M_lift {A} (r : result A) : M A :=
  fun w => Some (let* a := r in ret (a, w)).

Definition logger (e : log_entry) : M unit :=
  fun w => Some (ret (tt, {| database := database w;
                             journal := journal w ++ [e] |})).

Definition new_TableHandler (table_name : string) : M TableHandler :=
  fun w =>
    match TableHandler_init table_name (database w) with
    | (database', inr self) =>
        Some (ret (self, {| database := database'; journal := journal w |}))
    | (_, inl e) => Some (raise e)
    end.

Definition call_insert_into (affinity : string -> sqlval -> sqlval)
    (self : TableHandler) (data : list pyval) : M unit :=
  fun w =>
    Some (let* database' := insert_into_sink affinity self data (database w) in
          ret (tt, {| database := database'; journal := journal w |})).

Definition call_to_records (self : TableHandler) : M (list WorkItem) :=
  fun w => Some (let* records := to_records self (database w) in
                 ret (records, w)).

(** [await make_requests(coro, parameters,
    concurrency_limit=CONCURRENCY_LIMIT, table_handler=table)] in stage
    [stage]. *)
Definition await_make_requests (affinity : string -> sqlval -> sqlval)
    (env : environment) (stage : nat) (parameters : list WorkItem)
    (table_handler : TableHandler) : M (Z * list WorkItem) :=
  fun w =>
    let w1 := {| database := database w;
                 journal := journal w ++
                   [Requests stage parameters (database w)] |} in
    match make_requests (env_compile env stage) parameters CONCURRENCY_LIMIT
            (insert_into_sink affinity table_handler) (database w1) no_kwargs
            (env_completion env stage parameters) with
    | None => None
    | Some (inl e) => Some (raise e)
    | Some (inr s) =>
        Some (ret ((succeeded_count s, failed_items s),
                   {| database := sink_after s; journal := journal w1 |}))
    end.

(** [if failed: logger.error(...)]. *)
Definition report_failed (stage : nat) (failed_list parameters : list WorkItem)
    : M unit :=
  match failed_list with
  | [] => M_ret tt
  | _ :: _ => logger (LogError stage (length failed_list) (length parameters))
  end.

Definition scrape_ecommerce_site (affinity : string -> sqlval -> sqlval)
    (env : environment) : M unit :=
  perform _ := logger (LogInfo 1) in
  perform categories := M_lift (env_extract_categories_urls env) in
  perform categories_table := new_TableHandler "categories" in
  perform _ := call_insert_into affinity categories_table
                 (map PDict categories) in
  perform _ := logger (LogSuccess 1) in

  perform _ := logger (LogInfo 2) in
  perform pages_urls_table := new_TableHandler "pages_urls" in
  perform (_, failed2) := await_make_requests affinity env 2 categories
                             pages_urls_table in
  perform _ := report_failed 2 failed2 categories in
  perform _ := logger (LogSuccess 2) in

  perform _ := logger (LogInfo 3) in
  perform pages_urls := call_to_records pages_urls_table in
  perform articles_urls_table := new_TableHandler "articles_urls" in
  perform (_, failed3) := await_make_requests affinity env 3 pages_urls
                             articles_urls_table in
  perform _ := report_failed 3 failed3 pages_urls in
  perform _ := logger (LogSuccess 3) in

  perform _ := logger (LogInfo 4) in
  perform articles_urls := call_to_records articles_urls_table in
  perform articles_data_table := new_TableHandler "articles_data" in
  perform (_, failed4) := await_make_requests affinity env 4 articles_urls
                             articles_data_table in
  perform _ := report_failed 4 failed4 articles_urls in
  logger (LogSuccess 4).

(** The records of a table as the program would reload them, or nothing
    when the table is not there. *)
Definition stored_records (table_name : string) (database : db)
    : list WorkItem :=
  match to_records {| _table_name := table_name |} database with
  | inr records => records
  | inl _ => []
  end.

(** The log line of a stage's failures, if it has any. *)
Definition error_lines (stage : nat) (failed_list parameters : list WorkItem)
    : list log_entry :=
  match failed_list with
  | [] => []
  | _ :: _ => [LogError stage (length failed_list) (length parameters)]
  end.

(** ** Sample inputs *)

Definition sample_item : WorkItem :=
  [("url", PStr "http://example.com/page0")].

Definition sample_record : pyval := PDict [("coro_result", PStr "success")].

(** A unit of work that fails on every invocation. *)
Definition always_failing : coroutine :=
  fun _ _ _ => Raises (OtherException "ClientError").

(** A unit of work that times out twice and then returns one record. *)
Definition fails_twice : coroutine :=
  fun _ n _ => if (n <? 2)%nat then TimesOut else Returns (PList [sample_record]).

(** ** The invariant of the reducer loop

    [ts] are the tasks visited so far. *)
Record reducer_inv {Sink} (ts : list task) (st : reducer Sink) : Prop := {
  inv_failed : failed st = omap task_exhausted ts;
  inv_results :
    concat (map flush_buffer (flushes st)) ++ results st = omap task_result ts;
  inv_succeeded :
    succeeded st = Z.of_nat (length (concat (map flush_buffer (flushes st))));
  inv_data :
    Forall (fun f => flatten (flush_buffer f) = ret (flush_data f)) (flushes st);
  inv_full :
    Forall (fun f => Z.of_nat (length (flush_buffer f)) = BATCH_SIZE)
      (flushes st);
  inv_below : Z.of_nat (length (results st)) < BATCH_SIZE
}.

(** The work items of tests/test_asyncio.py. *)
Definition params_list : list WorkItem :=
  map (fun i => [("url", PStr ("http://example.com/page" ++ i))])
    ["0"; "1"; "2"; "3"; "4"].

(** A unit of work that returns one record in the even tasks and always
    fails in the odd ones. *)
Definition odd_tasks_fail : nat -> coroutine :=
  fun i _ _ _ =>
    if Nat.odd i then Raises (OtherException "ClientError")
    else Returns (PList [sample_record]).

(** A fan-out stage: no record in task 0, three records in every other
    task. *)
Definition fan_out : nat -> coroutine :=
  fun i _ _ _ =>
    match i with
    | O => Returns (PList [])
    | S _ => Returns (PList [sample_record; sample_record; sample_record])
    end.

(** A call of [make_requests] with a misspelt keyword. *)
Definition typo_kwargs : retry_kwargs :=
  {| kw_max_retries := None; kw_timeout := None;
     kw_backoff_factor := None; kw_unexpected := ["max_retry"] |}.

(** The number of results in a flushed buffer. *)
Definition flush_size (f : flush) : Z := Z.of_nat (length (flush_buffer f)).

(** ** The engine, statement by statement and table by table

    The same insertions without the connection: all the tuples applied to a
    database in order, and their stored rows applied to one table. *)
Section Rows.

Variable affinity : string -> sqlval -> sqlval.

Fixpoint execute_all (table_name : string) (schema : table_schema)
    (seq_of_parameters : list (list pyval)) (database : db) : result db :=
  match seq_of_parameters with
  | [] => ret database
  | parameters :: rest =>
      let* database' :=
        execute_insert affinity table_name schema parameters database in
      execute_all table_name schema rest database'
  end.

(** The row a tuple of parameters is stored as, when it can be bound. *)
Definition prepare (schema : table_schema) (parameters : list pyval)
    : result row :=
  if decide (length parameters = length (schema_columns schema))
  then let* bound := bind_values parameters in
       ret (store affinity schema bound)
  else raise (SqliteError "Incorrect number of bindings supplied").

Fixpoint insert_rows (schema : table_schema) (rows : list row) (t : table)
    : result table :=
  match rows with
  | [] => ret t
  | r :: rows' =>
      let* t' := insert_or_replace schema r t in
      insert_rows schema rows' t'
  end.

(** The PRIMARY KEY value a record is stored under, when it can be bound. *)
Definition stored_key (schema : table_schema) (c : pyval) : option sqlval :=
  match dict_values c with
  | inr parameters =>
      match prepare schema parameters with
      | inr r => Some (pk_of schema r)
      | inl _ => None
      end
  | inl _ => None
  end.

End Rows.

(** An [articles_urls] row as stage 4 reloads it, and the record
    [compile_article_data] makes of it. *)
Definition sample_article_url : WorkItem :=
  [("id", PInt 4172);
   ("page_url", PStr "https://www.example.com/women/shoes/cat/?cid=4172&page=1");
   ("article_url", PStr "https://www.example.com/prd/1")].

Definition sample_article : WorkItem :=
  [("id", PInt 4172);
   ("article_url", PStr "https://www.example.com/prd/1");
   ("description", PStr "leather boots");
   ("colour", PStr "black");
   ("tags", PStr "[]");
   ("materials", PStr "[]");
   ("img_urls", PStr "[]")].

(** The row [compile_article_urls] returns for a page without articles. *)
Definition sample_empty_page : WorkItem :=
  [("id", PInt 4172);
   ("page_url", PStr "https://www.example.com/women/shoes/cat/?cid=4172&page=9");
   ("article_url", PNone)].

(** A database in which [TableHandler(table_name)] has run. *)
Definition fresh_db (table_name : string) : db :=
  (TableHandler_init table_name ∅).1.

(** Two of the categories of [_constants.MORE_CATEGORIES]. *)
Definition sample_category : WorkItem :=
  [("id", PInt 4172); ("gender", PStr "women"); ("category", PStr "shoes");
   ("subcategory", PStr "shoes");
   ("base_url", PStr "https://www.example.com/women/shoes/cat/?cid=4172")].

Definition other_category : WorkItem :=
  [("id", PInt 4209); ("gender", PStr "men");
   ("category", PStr "shoes-boots-trainers");
   ("subcategory", PStr "shoes-boots-trainers");
   ("base_url",
    PStr "https://www.example.com/men/shoes-boots-trainers/cat/?cid=4209")].

Definition sample_page : WorkItem :=
  [("id", PInt 4172);
   ("page_url", PStr "https://www.example.com/women/shoes/cat/?cid=4172&page=1")].

(** A site on which the second category cannot be fetched: stage 2 gets one
    page from the first category and exhausts its retries on the second,
    stage 3 finds one article on the page, stage 4 extracts its data. *)
Definition sample_env : environment :=
  {| env_extract_categories_urls := ret [sample_category; other_category];
     env_compile := fun stage i params _ _ =>
       match stage with
       | 2%nat =>
           if decide (i = 0%nat) then Returns (PList [PDict sample_page])
           else Raises (OtherException "ClientError")
       | 3%nat => Returns (PList [PDict sample_article_url])
       | _ =>
           match article_record params (PStr "leather boots") (PStr "black")
                   (PStr "[]") (PStr "[]") (PStr "[]") with
           | inr r => Returns (PList [PDict r])
           | inl e => Raises e
           end
       end;
     env_completion := fun _ parameters => [seq 0 (length parameters)] |}.

(** A site with one category and no page in it. *)
Definition quiet_env : environment :=
  {| env_extract_categories_urls := ret [sample_category];
     env_compile := fun _ _ _ _ _ => Returns (PList []);
     env_completion := fun _ parameters => [seq 0 (length parameters)] |}.

Definition new_world : world := {| database := ∅; journal := [] |}.

(** The database an earlier run left behind, in which the site had another
    category. *)
Definition stale_world : world :=
  {| database :=
       (insert_into stored_as_bound {| _table_name := "categories" |}
          [PDict other_category] (fresh_db "categories")).1;
     journal := [] |}.

(** The world a run ends in, when it ends normally. *)
Definition final_world (affinity : string -> sqlval -> sqlval)
    (env : environment) (w : world) : world :=
  match scrape_ecommerce_site affinity env w with
  | Some (inr (_, w')) => w'
  | _ => w
  end.

(** ** More of the program

    The functions of the same files that the properties above do not reach:
    the three extractors of [webscraper/asyncio.py], the assembly of the
    categories in [webscraper/scraping.py], and the reading side of
    [TableHandler]. *)

(** The time a trace spends sleeping. *)
Definition total_sleep (evs : list event) : Q :=
  fold_right (fun e acc => match e with
                           | EvSleep d => (d + acc)%Q
                           | EvCall _ => acc
                           end) 0%Q evs.

(** [d[k]]. *)
Fixpoint dict_get (k : string) (d : list (string * pyval)) : result pyval :=
  match d with
  | [] => raise (KeyError k)
  | (k', v) :: d' => if decide (k = k') then ret v else dict_get k d'
  end.

(** [str(p)] for an [int]. *)
Definition str_of_int (p : Z) : string := pretty p.

(** The name of a value's type in an error message. *)
Definition type_name (v : pyval) : string :=
  match v with
  | PNone => "NoneType"
  | PInt _ => "int"
  | PStr _ => "str"
  | PList _ => "list"
  | PDict _ => "dict"
  end.

(** The double-quote character. *)
Definition dquote : string := String (Ascii.ascii_of_nat 34) EmptyString.

(** [v + s] for a [str] [s]: concatenation on a [str], a [TypeError] on
    anything else. *)
Definition add_str (v : pyval) (s : string) : result string :=
  match v with
  | PStr b => ret (b +:+ s)
  | PList _ =>
      raise (TypeError ("can only concatenate list (not " +:+ dquote +:+ "str"
                          +:+ dquote +:+ ") to list"))
  | _ =>
      raise (TypeError ("unsupported operand type(s) for +: '"
                          +:+ type_name v +:+ "' and 'str'"))
  end.

(** [range(1, total_pages + 1)]. *)
Definition page_numbers (total_pages : Z) : list Z :=
  map Z.of_nat (seq 1 (Z.to_nat total_pages)).

(** The evaluation of a list comprehension whose element can raise. *)
Fixpoint comprehension {A B} (f : A -> result B) (l : list A)
    : result (list B) :=
  match l with
  | [] => ret []
  | a :: l' =>
      let* b := f a in
      let* bs := comprehension f l' in
      ret (b :: bs)
  end.

(** [_paginate(category_dict)] of [compile_page_urls], with [total_pages]
    from its closure. *)
Definition _paginate (total_pages : Z) (category_dict : WorkItem)
    : result (list WorkItem) :=
  comprehension
    (fun p =>
       let* id := dict_get "id" category_dict in
       let* base_url := dict_get "base_url" category_dict in
       let* prefix := add_str base_url "&page=" in
       ret [("id", id); ("page_url", PStr (prefix +:+ str_of_int p))])
    (page_numbers total_pages).

(** [compile_page_urls(session, category_dict)]; [fetch_total_pages url] is
    what [session.get(url)] and [extract_total_pages] give. *)
Definition compile_page_urls (fetch_total_pages : pyval -> result Z)
    (category_dict : WorkItem) : result (list WorkItem) :=
  let* url := dict_get "base_url" category_dict in
  let* total_pages := fetch_total_pages url in
  _paginate total_pages category_dict.

(** [compile_article_urls(session, page_dict)]; [fetch_article_urls url] is
    what [session.get(url)] and [extract_article_urls] give: a list, or
    [None]. *)
Definition compile_article_urls
    (fetch_article_urls : pyval -> result (option (list pyval)))
    (page_dict : WorkItem) : result (list WorkItem) :=
  let* url := dict_get "page_url" page_dict in
  let* article_urls := fetch_article_urls url in
  match article_urls with
  | Some ((_ :: _) as urls) =>
      comprehension
        (fun u =>
           let* id := dict_get "id" page_dict in
           let* page_url := dict_get "page_url" page_dict in
           ret [("id", id); ("page_url", page_url); ("article_url", u)])
        urls
  | _ =>
      let* id := dict_get "id" page_dict in
      let* page_url := dict_get "page_url" page_dict in
      ret [[("id", id); ("page_url", page_url); ("article_url", PNone)]]
  end.

(** What [extract_article_data] returns. *)
Record article_data : Type := {
  ad_description : pyval;
  ad_colour : pyval;
  ad_tags : pyval;
  ad_materials : pyval;
  ad_img_urls : pyval
}.

(** [compile_article_data(session, article_dict)]; [fetch_article_data url]
    is what [session.get(url)] and [extract_article_data] give, and
    [json_dumps] is [json.dumps]. *)
Definition compile_article_data (json_dumps : pyval -> string)
    (fetch_article_data : pyval -> result article_data)
    (article_dict : WorkItem) : result (list WorkItem) :=
  let* url := dict_get "article_url" article_dict in
  let* data := fetch_article_data url in
  let* record :=
    article_record article_dict (ad_description data) (ad_colour data)
      (PStr (json_dumps (ad_tags data)))
      (PStr (json_dumps (ad_materials data)))
      (PStr (json_dumps (ad_img_urls data))) in
  ret [record].

(** The keys of a dict, in order. *)
Definition dict_keys (d : list (string * pyval)) : list string := map fst d.

(** The names of a table's columns. *)
Definition column_names (schema : table_schema) : list string :=
  map fst (schema_columns schema).

(** [TableHandler.read]: the rows of [SELECT * ... LIMIT 5], which it
    prints. *)
Definition read (self : TableHandler) (database : db) : result (list row) :=
  match database !! _table_name self with
  | Some t => ret (take 5 (select_all t))
  | None => raise (SqliteError "no such table")
  end.

(** A value that SQLite stores in a column of the declared type as it is
    bound: NULL anywhere, an integer under INTEGER, a text under TEXT. *)
Definition fits (decltype : string) (x : sqlval) : bool :=
  match x with
  | SNull => true
  | SInt _ => bool_decide (decltype = "INTEGER")
  | SText _ => bool_decide (decltype = "TEXT")
  end.

(** A Python value that a column of the declared type gives back as it was
    written: an [int] of 64 bits under INTEGER, a [str] under TEXT. *)
Definition reads_back (decltype : string) (v : pyval) : bool :=
  match v with
  | PInt z =>
      bool_decide (decltype = "INTEGER") && (- 2 ^ 63 <=? z) && (z <? 2 ^ 63)
  | PStr _ => bool_decide (decltype = "TEXT")
  | _ => false
  end.

(** A record made for a table: its keys are the column names, in order, and
    each value reads back as it is written. *)
Definition record_for (schema : table_schema) (c : WorkItem) : Prop :=
  dict_keys c = column_names schema
  /\ Forall2 (fun col kv => reads_back col.2 kv.2 = true)
       (schema_columns schema) c.

(** The PRIMARY KEY value of such a record. *)
Definition record_key (schema : table_schema) (c : WorkItem) : pyval :=
  default PNone (map snd c !! schema_pk schema).

(** The invariant of a table: no two rows under one primary key that is
    not NULL, and in a table keyed by rowid every row under its own key. *)
Definition keys_unique (schema : table_schema) (t : table) : Prop :=
  match t with
  | RowidTable rows =>
      forall z r, rows !! z = Some r -> pk_of schema r = SInt z
  | IndexTable rows =>
      NoDup (filter (fun k => k <> SNull) (map (pk_of schema) rows))
  end.

(** The steps a task still has to take: two when it waits for a slot, one
    when it runs. *)
Definition steps_left (p : phase) : nat :=
  match p with
  | Scheduled => 2
  | Running => 1
  | Finished _ => 0
  end.

Definition loop_steps_left (s : loop_state) : nat :=
  sum_list (map steps_left (phases s)).

(** ** webscraper/scraping.py: the assembly of the categories

    [extract_categories_urls] ends by building a dict of categories keyed
    by their id, merging [MORE_CATEGORIES] into it and listing it. A dict
    keyed by [int] is an association list on [Z]. *)

(** [d[k] = v] on a dict with keys of any type. *)
Fixpoint assoc_set {K V} `{EqDecision K} (k : K) (v : V) (d : list (K * V))
    : list (K * V) :=
  match d with
  | [] => [(k, v)]
  | (k', v') :: d' =>
      if decide (k = k') then (k, v) :: d' else (k', v') :: assoc_set k v d'
  end.

(** [a | b]: the items of [b] set into [a] one after the other. *)
Definition dict_union {K V} `{EqDecision K} (a b : list (K * V))
    : list (K * V) :=
  fold_left (fun d kv => assoc_set kv.1 kv.2 d) b a.

(** [_constants.MORE_CATEGORIES], for the site name [WEBSITE] of the
    [.env] file. *)
Definition more_category (WEBSITE gender category : string) (cid : string)
    : list (string * pyval) :=
  [("gender", PStr gender); ("category", PStr category);
   ("subcategory", PStr category);
   ("base_url",
    PStr ("https://www." +:+ WEBSITE +:+ ".com/" +:+ gender +:+ "/"
          +:+ category +:+ "/cat/?cid=" +:+ cid))].

Definition MORE_CATEGORIES (WEBSITE : string)
    : list (Z * list (string * pyval)) :=
  [(4172, more_category WEBSITE "women" "shoes" "4172");
   (4174, more_category WEBSITE "women" "accessories" "4174");
   (4209, more_category WEBSITE "men" "shoes-boots-trainers" "4209");
   (4210, more_category WEBSITE "men" "accessories" "4210")].

(** The value of a decimal digit. *)
Definition digit_value (c : Ascii.ascii) : option Z :=
  let n := Z.of_N (Ascii.N_of_ascii c) in
  if (48 <=? n) && (n <=? 57) then Some (n - 48) else None.

Fixpoint digits_value (acc : Z) (s : string) : option Z :=
  match s with
  | EmptyString => Some acc
  | String c s' =>
      match digit_value c with
      | Some d => digits_value (10 * acc + d) s'
      | None => None
      end
  end.

(** [int(s)] on the strings the pattern [[0-9]+] lets through. *)
Definition int_of_str (s : string) : result Z :=
  match s with
  | EmptyString => raise (ValueError "invalid literal for int()")
  | _ =>
      match digits_value 0 s with
      | Some z => ret z
      | None => raise (ValueError "invalid literal for int()")
      end
  end.

(** The strings [[0-9]+] matches in full and [int] converts: decimal
    digits, at least one and no more than the 4300 that [int] accepts by
    default. *)
Fixpoint all_digits (s : string) : bool :=
  match s with
  | EmptyString => true
  | String c s' =>
      match digit_value c with
      | Some _ => all_digits s'
      | None => false
      end
  end.

Definition is_cid (s : string) : bool :=
  all_digits s && (0 <? String.length s)%nat
  && (String.length s <=? 4300)%nat.

(** The value of an entry of [categories]: a dict with these four keys. *)
Definition category_value (v : list (string * pyval)) : Prop :=
  map fst v = ["gender"; "category"; "subcategory"; "base_url"].

(** An element of [tuples_list]: the URL and the three groups of
    [CATEGORY_URL_REGEX]. *)
Record category_tuple : Type := {
  ct_href : string;
  ct_gender : string;
  ct_subcategory : string;
  ct_cid : string
}.

(** The dict comprehension [{int(t[3]): {...} for t in tuples_list}]. *)
Fixpoint scraped_categories (tuples_list : list category_tuple)
    (acc : list (Z * list (string * pyval)))
    : result (list (Z * list (string * pyval))) :=
  match tuples_list with
  | [] => ret acc
  | t :: rest =>
      let* cid := int_of_str (ct_cid t) in
      scraped_categories rest
        (assoc_set cid
           [("gender", PStr (ct_gender t)); ("category", PStr "clothing");
            ("subcategory", PStr (ct_subcategory t));
            ("base_url", PStr (ct_href t))]
           acc)
  end.

(** [{"id": k, **v}]. *)
Definition with_id (k : Z) (v : list (string * pyval)) : WorkItem :=
  fold_left (fun d kv => dict_set kv.1 kv.2 d) v [("id", PInt k)].

(** [extract_categories_urls()], given what the [try] block scrapes from the
    home page: the [tuples_list], or the exception that leaves the block.
    Only an [AttributeError] is caught. *)
Definition extract_categories_urls (WEBSITE : string)
    (scraped : result (list category_tuple)) : result (list WorkItem) :=
  let* categories :=
    match (let* tuples_list := scraped in
           let* categories := scraped_categories tuples_list [] in
           ret (dict_union categories (MORE_CATEGORIES WEBSITE))) with
    | inl (AttributeError _) => ret (MORE_CATEGORIES WEBSITE)
    | outcome => outcome
    end in
  ret (map (fun kv => with_id kv.1 kv.2) categories).

(** * Properties *)

(** ** flatten *)

Lemma flatten_lists (ls : list (list pyval)) :
  flatten (map PList ls) = ret (concat ls).
Proof.
  unfold flatten.
  assert (forallb is_list (map PList ls) = true) as ->.
  { induction ls as [|l ls IH]; simpl; auto. }
  f_equal. f_equal. induction ls as [|l ls IH]; simpl; congruence.
Qed.

Lemma flatten_not_nested (list_of_lists : list pyval) (x : pyval) :
  x ∈ list_of_lists -> is_list x = false ->
  flatten list_of_lists =
    raise (ValueError "All elements of the input must be of type list.").
Proof.
  intros Hin Hx. unfold flatten.
  assert (forallb is_list list_of_lists = false) as ->; [|reflexivity].
  induction Hin as [y l|y z l Hin IH]; simpl.
  - rewrite Hx. reflexivity.
  - rewrite (IH Hx). apply andb_false_r.
Qed.

Lemma flatten_ok (list_of_lists data : list pyval) :
  flatten list_of_lists = ret data ->
  data = concat (map list_items list_of_lists).
Proof.
  unfold flatten. destruct (forallb is_list list_of_lists); [|discriminate].
  intros [= <-]. reflexivity.
Qed.



(** ** The retry executor *)

Lemma backoff_wait_succ (backoff_factor : Q) (i : nat) :
  backoff_wait backoff_factor (S i) =
    (backoff_factor * inject_Z (2 ^ Z.of_nat i))%Q.
Proof. reflexivity. Qed.

Lemma float_of_pow2_ok (i : nat) :
  (i < 1024)%nat -> float_of_pow2 i = ret (inject_Z (2 ^ Z.of_nat i)).
Proof.
  intros Hi. unfold float_of_pow2.
  destruct (Nat.ltb_spec i 1024); [reflexivity|lia].
Qed.

Lemma wait_for_failure (aw : Q -> attempt) (timeout : Q) :
  is_failure (aw timeout) = true -> exists e, wait_for aw timeout = inl e.
Proof.
  unfold wait_for. destruct (aw timeout); simpl; intros; eauto; discriminate.
Qed.

Section Retry.

Variables (coro : coroutine) (params : WorkItem) (timeout backoff_factor : Q).

(** The loop from attempt [first] on, when the first success is [k] attempts
    later. *)
Lemma retry_loop_success (v : pyval) (k : nat) :
  forall first n : nat,
    (k < n)%nat -> (first + k <= 1024)%nat ->
    (forall i, (first <= i < first + k)%nat ->
               is_failure (coro params i timeout) = true) ->
    coro params (first + k)%nat timeout = Returns v ->
    retry_loop coro params timeout backoff_factor (seq first n)
      (backoff_wait backoff_factor first) =
      (ret v, failed_attempts params backoff_factor first k ++ [EvCall params]).
Proof.
  induction k as [|k IH]; intros first n Hn Hbound Hfail Hok.
  - destruct n as [|n]; [lia|]. simpl.
    unfold wait_for. rewrite Nat.add_0_r in Hok. rewrite Hok. reflexivity.
  - destruct n as [|n]; [lia|]. simpl.
    destruct (wait_for_failure (coro params first) timeout) as [e ->].
    { apply Hfail. lia. }
    rewrite float_of_pow2_ok by lia. unfold ret at 1. cbv beta iota.
    rewrite <- backoff_wait_succ.
    rewrite (IH (S first) n); try lia.
    + reflexivity.
    + intros i Hi. apply Hfail. lia.
    + rewrite <- Hok. f_equal. lia.
Qed.

(** The loop from attempt [first] on, when every attempt fails. *)
Lemma retry_loop_exhausted :
  forall n first : nat,
    (first + n <= 1024)%nat ->
    (forall i, (first <= i < first + n)%nat ->
               is_failure (coro params i timeout) = true) ->
    retry_loop coro params timeout backoff_factor (seq first n)
      (backoff_wait backoff_factor first) =
      (raise (TooManyRetries params),
       failed_attempts params backoff_factor first n).
Proof.
  induction n as [|n IH]; intros first Hbound Hfail.
  - reflexivity.
  - simpl.
    destruct (wait_for_failure (coro params first) timeout) as [e ->].
    { apply Hfail. lia. }
    rewrite float_of_pow2_ok by lia. unfold ret at 1. cbv beta iota.
    rewrite <- backoff_wait_succ.
    rewrite (IH (S first)); try lia.
    + reflexivity.
    + intros i Hi. apply Hfail. lia.
Qed.

Lemma failed_attempts_counts (first k : nat) :
  count_calls (failed_attempts params backoff_factor first k) = k
  /\ count_sleeps (failed_attempts params backoff_factor first k) = k.
Proof.
  unfold count_calls, count_sleeps, failed_attempts.
  revert first. induction k as [|k IH]; intros first; [split; reflexivity|].
  destruct (IH (S first)) as [IH1 IH2].
  split; simpl; congruence.
Qed.

End Retry.




(** Beyond 1024 failed attempts the handler's [2**i] no longer converts to
    a float, and the error that leaves [retry] is not [TooManyRetries]. *)
Example retry_overflow :
  fst (retry always_failing sample_item 1025 10 0)
    = raise (OverflowError "int too large to convert to float").
Proof. vm_compute. reflexivity. Qed.

(** A task of [make_requests] ends with a result or with [TooManyRetries]
    for its own work item, as long as [kwargs] names only keywords of
    [retry] and allows at most 1024 attempts. *)
Lemma semaphore_coroutine_outcome (coro : coroutine) (kwargs : retry_kwargs)
    (params : WorkItem) :
  kw_unexpected kwargs = [] ->
  default 5 (kw_max_retries kwargs) <= 1024 ->
  (exists r, _semaphore_coroutine coro kwargs params = inr r)
  \/ _semaphore_coroutine coro kwargs params = inl (TooManyRetries params).
Proof.
  intros Hkw Hmax. unfold _semaphore_coroutine, call_retry. rewrite Hkw.
  set (max_retries := default 5 (kw_max_retries kwargs)) in *.
  set (timeout := default 10%Q (kw_timeout kwargs)).
  set (backoff_factor := default 1%Q (kw_backoff_factor kwargs)).
  unfold retry.
  assert (Hgen : forall n first retry_interval,
    (first + n <= 1024)%nat ->
    let r := fst (retry_loop coro params timeout backoff_factor (seq first n)
                    retry_interval) in
    (exists v, r = inr v) \/ r = inl (TooManyRetries params)).
  { induction n as [|n IH]; intros first retry_interval Hb; simpl;
      [right; reflexivity|].
    destruct (wait_for (coro params first) timeout) as [e|v]; simpl;
      [|left; eauto].
    rewrite float_of_pow2_ok by lia. unfold ret. cbv beta iota.
    specialize (IH (S first)
                  (backoff_factor * inject_Z (2 ^ Z.of_nat first))%Q
                  ltac:(lia)).
    simpl in IH.
    destruct (retry_loop coro params timeout backoff_factor (seq (S first) n)
                (backoff_factor * inject_Z (2 ^ Z.of_nat first))%Q) as [r evs].
    exact IH. }
  apply (Hgen (Z.to_nat max_retries) 0%nat 0%Q). lia.
Qed.

(** ** The pipeline orchestrator *)

Lemma BATCH_SIZE_pos : 0 < BATCH_SIZE.
Proof. reflexivity. Qed.

Lemma length_full_batches (fs : list flush) :
  Forall (fun f => Z.of_nat (length (flush_buffer f)) = BATCH_SIZE) fs ->
  Z.of_nat (length (concat (map flush_buffer fs))) =
    Z.of_nat (length fs) * BATCH_SIZE
  /\ map flush_size fs = replicate (length fs) BATCH_SIZE.
Proof.
  induction 1 as [|f fs Hf _ [IH1 IH2]]; simpl; [split; reflexivity|].
  split.
  - rewrite length_app. lia.
  - unfold flush_size at 1. rewrite Hf, IH2. reflexivity.
Qed.

Lemma bind_ret_inv {A B} (m : result A) (k : A -> result B) (b : B) :
  bind m k = ret b -> exists a, m = ret a /\ k a = ret b.
Proof. destruct m as [e|a]; simpl; [discriminate|eauto]. Qed.

Section Reducer.

Context {Sink : Type}.
Variable insert_into : list pyval -> Sink -> result Sink.

Lemma handle_all_app (ts1 ts2 : list task) (st : reducer Sink) :
  handle_all insert_into (ts1 ++ ts2) st =
    let* st' := handle_all insert_into ts1 st in
    handle_all insert_into ts2 st'.
Proof.
  revert st. induction ts1 as [|t ts1 IH]; intros st; simpl; [reflexivity|].
  destruct (handle_done insert_into t st) as [e|st']; simpl; auto.
Qed.

Lemma for_task_in_done_handle_all (tasks : list task) (done : list nat)
    (st : reducer Sink) :
  for_task_in_done insert_into tasks done st =
    handle_all insert_into (omap (fun i => tasks !! i) done) st.
Proof.
  revert st. induction done as [|i done IH]; intros st; simpl; [reflexivity|].
  destruct (tasks !! i) as [t|]; simpl; [|apply IH].
  destruct (handle_done insert_into t st) as [e|st']; simpl; auto.
Qed.

Lemma while_pending_tasks_handle_all (tasks : list task)
    (completion : list (list nat)) (st : reducer Sink) :
  while_pending_tasks insert_into tasks completion st =
    handle_all insert_into (visited tasks completion) st.
Proof.
  unfold visited. revert st.
  induction completion as [|done completion IH]; intros st; simpl;
    [reflexivity|].
  rewrite omap_app, handle_all_app, for_task_in_done_handle_all.
  destruct (handle_all insert_into _ st) as [e|st']; simpl; auto.
Qed.

Lemma reducer_inv_init (table_handler : Sink) :
  reducer_inv [] (init_reducer table_handler).
Proof.
  split; simpl; auto using BATCH_SIZE_pos.
Qed.

Lemma write_batch_inv (st st' : reducer Sink) :
  write_batch insert_into st = ret st' ->
  exists data sink',
    flatten (results st) = ret data
    /\ insert_into data (sink st) = ret sink'
    /\ st' = {| results := results st; failed := failed st;
                succeeded := succeeded st + Z.of_nat (length (results st));
                sink := sink';
                flushes := flushes st ++
                  [{| flush_buffer := results st; flush_data := data |}] |}.
Proof.
  unfold write_batch. intros H.
  apply bind_ret_inv in H as (data & Hd & H).
  apply bind_ret_inv in H as (sink' & Hs & H).
  injection H as <-. eauto.
Qed.

(** One iteration of [for task in done] keeps the invariant. *)
Lemma reducer_inv_step (ts : list task) (t : task) (st st' : reducer Sink) :
  reducer_inv ts st ->
  handle_done insert_into t st = ret st' ->
  reducer_inv (ts ++ [t]) st'.
Proof.
  intros [Hf Hr Hs Hd Hfull Hb] Hstep.
  destruct t as [e|r]; simpl in Hstep.
  - destruct (as_TooManyRetries e) as [params|] eqn:He;
      injection Hstep as <-; split; simpl; auto;
      rewrite omap_app; simpl; rewrite ?He, ?app_nil_r; congruence.
  - destruct (Z.leb_spec BATCH_SIZE (Z.of_nat (length (results st ++ [r]))))
      as [Hge|Hlt].
    + apply bind_ret_inv in Hstep as (st2 & Hw & Hstep).
      injection Hstep as <-.
      apply write_batch_inv in Hw as (data & sink' & Hdata & _ & ->).
      simpl in *. rewrite length_app in Hge. simpl in Hge.
      split; simpl; rewrite ?omap_app, ?map_app, ?concat_app; simpl;
        rewrite ?app_nil_r.
      * exact Hf.
      * rewrite <- Hr, app_assoc. reflexivity.
      * rewrite Hs, !length_app. simpl. lia.
      * apply Forall_app. split; [exact Hd|]. repeat constructor. exact Hdata.
      * apply Forall_app. split; [exact Hfull|]. repeat constructor. simpl.
        rewrite length_app. simpl. lia.
      * apply BATCH_SIZE_pos.
    + injection Hstep as <-.
      split; simpl; rewrite ?omap_app; simpl; rewrite ?app_nil_r; auto.
      * rewrite <- Hr, app_assoc. reflexivity.
Qed.

Lemma reducer_inv_all (ts : list task) :
  forall (pre : list task) (st st' : reducer Sink),
    reducer_inv pre st ->
    handle_all insert_into ts st = ret st' ->
    reducer_inv (pre ++ ts) st'.
Proof.
  induction ts as [|t ts IH]; intros pre st st' Hinv Hrun; simpl in Hrun.
  - injection Hrun as <-. rewrite app_nil_r. exact Hinv.
  - apply bind_ret_inv in Hrun as (st1 & Hstep & Hrun).
    replace (pre ++ t :: ts) with ((pre ++ [t]) ++ ts)
      by (rewrite <- app_assoc; reflexivity).
    eapply IH; [|exact Hrun]. eapply reducer_inv_step; eauto.
Qed.

(** What holds of the summary of a call that returns: [ts] are the tasks
    in the order the reducer visited them. *)
Lemma make_requests_returns (coro : nat -> coroutine)
    (parameters : list WorkItem) (concurrency_limit : Z)
    (table_handler : Sink) (kwargs : retry_kwargs)
    (completion : list (list nat)) (s : summary Sink) :
  make_requests coro parameters concurrency_limit insert_into table_handler
    kwargs completion = Some (ret s) ->
  let ts := visited (create_tasks coro kwargs parameters) completion in
  failed_items s = omap task_exhausted ts
  /\ concat (map flush_buffer (flush_log s)) = omap task_result ts
  /\ succeeded_count s = Z.of_nat (length (omap task_result ts))
  /\ Forall (fun f => flatten (flush_buffer f) = ret (flush_data f))
       (flush_log s)
  /\ exists full last,
       flush_log s = full ++ last
       /\ Forall (fun f => Z.of_nat (length (flush_buffer f)) = BATCH_SIZE) full
       /\ (last = [] /\ Z.of_nat (length (omap task_result ts)) =
                        Z.of_nat (length full) * BATCH_SIZE
           \/ exists f, last = [f]
                /\ 0 < Z.of_nat (length (flush_buffer f)) < BATCH_SIZE).
Proof.
  intros Hrun ts. unfold make_requests in Hrun.
  destruct (concurrency_limit <? 0); [discriminate|].
  destruct (_ && _); [discriminate|].
  injection Hrun as Hrun.
  apply bind_ret_inv in Hrun as (st & Hloop & Hrun).
  apply bind_ret_inv in Hrun as (st' & Hlast & Hrun).
  injection Hrun as <-.
  rewrite while_pending_tasks_handle_all in Hloop.
  apply (reducer_inv_all _ [] _ _ (reducer_inv_init table_handler)) in Hloop.
  simpl in Hloop. fold ts in Hloop.
  destruct Hloop as [Hf Hr Hs Hd Hfull Hb].
  unfold write_remaining in Hlast.
  destruct (Z.ltb_spec 0 (Z.of_nat (length (results st)))) as [Hpos|Hzero].
  - apply write_batch_inv in Hlast as (data & sink' & Hdata & _ & ->).
    simpl. rewrite map_app, concat_app. simpl. rewrite app_nil_r.
    repeat split.
    + exact Hf.
    + exact Hr.
    + rewrite <- Hr, Hs, !length_app. lia.
    + apply Forall_app. split; [exact Hd|]. repeat constructor. exact Hdata.
    + exists (flushes st), [{| flush_buffer := results st; flush_data := data |}].
      split; [reflexivity|]. split; [exact Hfull|].
      right. eexists. split; [reflexivity|]. simpl. lia.
  - injection Hlast as <-. simpl.
    assert (results st = []) as Hnil by (destruct (results st); simpl in *; [reflexivity|lia]).
    rewrite Hnil, app_nil_r in Hr.
    repeat split; auto.
    + rewrite <- Hr. exact Hs.
    + exists (flushes st), []. rewrite app_nil_r.
      split; [reflexivity|]. split; [exact Hfull|].
      left. split; [reflexivity|]. rewrite <- Hr. apply length_full_batches, Hfull.
Qed.

End Reducer.

Lemma omap_lookup_seq {A} (l : list A) :
  omap (fun i => l !! i) (seq 0 (length l)) = l.
Proof.
  assert (Hgen : forall (l pre : list A),
    omap (fun i => (pre ++ l) !! i) (seq (length pre) (length l)) = l).
  { clear l. induction l as [|a l IH]; intros pre; simpl; [reflexivity|].
    rewrite list_lookup_middle by reflexivity. f_equal.
    specialize (IH (pre ++ [a])).
    rewrite length_app, Nat.add_1_r, <- app_assoc in IH. exact IH. }
  apply (Hgen l []).
Qed.

Lemma visited_Permutation (tasks : list task) (completion : list (list nat)) :
  concat completion ≡ₚ seq 0 (length tasks) ->
  visited tasks completion ≡ₚ tasks.
Proof.
  intros Hperm. unfold visited. rewrite Hperm, omap_lookup_seq. reflexivity.
Qed.

Lemma length_create_tasks (coro : nat -> coroutine) (kwargs : retry_kwargs)
    (parameters : list WorkItem) :
  length (create_tasks coro kwargs parameters) = length parameters.
Proof. apply length_imap. Qed.

Lemma flushed_data (log : list flush) :
  Forall (fun f => flatten (flush_buffer f) = ret (flush_data f)) log ->
  concat (map flush_data log) =
    concat (map list_items (concat (map flush_buffer log))).
Proof.
  induction 1 as [|f log Hf _ IH]; simpl; [reflexivity|].
  rewrite map_app, concat_app, <- IH. f_equal. apply flatten_ok, Hf.
Qed.

Lemma length_concat_singletons (rs : list pyval) :
  Forall (fun r => length (list_items r) = 1%nat) rs ->
  length (concat (map list_items rs)) = length rs.
Proof.
  induction 1 as [|r rs Hr _ IH]; simpl; [reflexivity|].
  rewrite length_app. lia.
Qed.

(** C1 (as amended). In every call of [make_requests] that returns,
    [succeeded_count] is the number of work items whose task returned a
    result (one per item, whatever the number of its records); the records
    delivered to the sink across all flushes are exactly the records of
    those results, in the order the tasks were visited; and the two numbers
    agree when every returned result holds exactly one record. *)
Theorem succeeded_counts_items {Sink}
    (insert_into : list pyval -> Sink -> result Sink)
    (coro : nat -> coroutine) (parameters : list WorkItem)
    (concurrency_limit : Z) (table_handler : Sink) (kwargs : retry_kwargs)
    (completion : list (list nat)) (s : summary Sink) :
  make_requests coro parameters concurrency_limit insert_into table_handler
    kwargs completion = Some (ret s) ->
  let tasks := create_tasks coro kwargs parameters in
  let returned := omap task_result (visited tasks completion) in
  succeeded_count s = Z.of_nat (length returned)
  /\ concat (map flush_data (flush_log s)) = concat (map list_items returned)
  /\ (Forall (fun r => length (list_items r) = 1%nat) returned ->
      succeeded_count s =
        Z.of_nat (length (concat (map flush_data (flush_log s)))))
  /\ (concat completion ≡ₚ seq 0 (length parameters) ->
      returned ≡ₚ omap task_result tasks).
Proof.
  intros Hrun tasks returned.
  destruct (make_requests_returns _ _ _ _ _ _ _ _ Hrun)
    as (_ & Hbuf & Hcount & Hdata & _).
  fold tasks returned in Hbuf, Hcount.
  assert (Hrec : concat (map flush_data (flush_log s)) =
                 concat (map list_items returned)).
  { rewrite flushed_data by exact Hdata. rewrite Hbuf. reflexivity. }
  repeat split; auto.
  - intros Hone. rewrite Hrec, length_concat_singletons by exact Hone.
    exact Hcount.
  - intros Hperm. unfold returned.
    rewrite visited_Permutation; [reflexivity|].
    unfold tasks. rewrite length_create_tasks. exact Hperm.
Qed.

Lemma succeeded_counts_items_witness :
  let tasks := create_tasks odd_tasks_fail no_kwargs params_list in
  let returned := omap task_result (visited tasks [[2; 0]; [4; 1]; [3]]%nat) in
  let s := {| succeeded_count := 3;
              failed_items := omap (fun i => params_list !! i) [1; 3]%nat;
              sink_after := tt;
              flush_log :=
                [{| flush_buffer := [PList [sample_record];
                                     PList [sample_record];
                                     PList [sample_record]];
                    flush_data := [sample_record; sample_record;
                                   sample_record] |}] |} in
  succeeded_count s = Z.of_nat (length returned)
  /\ concat (map flush_data (flush_log s)) = concat (map list_items returned)
  /\ (Forall (fun r => length (list_items r) = 1%nat) returned ->
      succeeded_count s =
        Z.of_nat (length (concat (map flush_data (flush_log s)))))
  /\ (concat [[2; 0]; [4; 1]; [3]]%nat ≡ₚ seq 0 (length params_list) ->
      returned ≡ₚ omap task_result tasks).
Proof.
  apply (succeeded_counts_items mock_insert_into odd_tasks_fail params_list 3
           tt no_kwargs).
  vm_compute. reflexivity.
Defined.

(** C1, as the claim states it, fails on Scenario C: one item yields no
    record and another yields three; three records reach the sink and the
    returned count is 2. *)
Lemma scenario_C_counterexample :
  exists s,
    make_requests fan_out (take 2 params_list) 3 mock_insert_into tt no_kwargs
      [[0; 1]%nat] = Some (ret s)
    /\ succeeded_count s = 2
    /\ Z.of_nat (length (concat (map flush_data (flush_log s)))) = 3.
Proof. eexists. split; [vm_compute; reflexivity|]. split; reflexivity. Qed.

Lemma create_tasks_lookup (coro : nat -> coroutine) (kwargs : retry_kwargs)
    (parameters : list WorkItem) (i : nat) :
  create_tasks coro kwargs parameters !! i =
    _semaphore_coroutine (coro i) kwargs <$> parameters !! i.
Proof. unfold create_tasks. rewrite list_lookup_imap. reflexivity. Qed.

(** When every task ends with a result or with [TooManyRetries], the two
    kinds of outcome split the tasks. *)
Lemma outcomes_split (tasks : list task) :
  Forall (fun t => is_Some (task_result t) \/ is_Some (task_exhausted t)) tasks ->
  (length (omap task_result tasks) + length (omap task_exhausted tasks))%nat
    = length tasks.
Proof.
  induction 1 as [|t tasks Ht _ IH]; simpl; [reflexivity|].
  destruct t as [e|r]; simpl.
  - destruct Ht as [[? [=]]|[p Hp]]. simpl in Hp. rewrite Hp. simpl.
    rewrite Nat.add_succ_r. f_equal. exact IH.
  - f_equal. exact IH.
Qed.

(** An exception other than [TooManyRetries] changes nothing in the
    reducer: the task is neither counted nor listed. *)
Lemma handle_done_other_exception {Sink}
    (insert_into : list pyval -> Sink -> result Sink) (e : exn)
    (st : reducer Sink) :
  as_TooManyRetries e = None -> handle_done insert_into (inl e) st = ret st.
Proof. intros He. simpl. rewrite He. reflexivity. Qed.

Lemma flatten_total (list_of_lists : list pyval) :
  Forall (fun r => is_list r = true) list_of_lists ->
  exists data, flatten list_of_lists = ret data.
Proof.
  intros Hall. unfold flatten.
  assert (forallb is_list list_of_lists = true) as ->; [|eauto].
  induction Hall as [|r l Hr _ IH]; simpl; [reflexivity|].
  rewrite Hr, IH. reflexivity.
Qed.

(** With a sink that does not raise and tasks whose results are lists, the
    reducer loop and the last flush run to their end. *)
Lemma handle_all_total {Sink}
    (insert_into : list pyval -> Sink -> result Sink) (ts : list task) :
  (forall data s, exists s', insert_into data s = ret s') ->
  Forall (fun t => forall r, t = inr r -> is_list r = true) ts ->
  forall st : reducer Sink,
    Forall (fun r => is_list r = true) (results st) ->
    exists st',
      handle_all insert_into ts st = ret st'
      /\ Forall (fun r => is_list r = true) (results st').
Proof.
  intros Hsink Hts. induction Hts as [|t ts Ht _ IH]; intros st Hst.
  - exists st. split; [reflexivity|exact Hst].
  - cbn [handle_all].
    assert (exists st1, handle_done insert_into t st = ret st1
              /\ Forall (fun r => is_list r = true) (results st1))
      as (st1 & -> & Hst1).
    { destruct t as [e|r]; simpl.
      - destruct (as_TooManyRetries e); eexists; split; eauto.
      - assert (Hall : Forall (fun r => is_list r = true) (results st ++ [r])).
        { apply Forall_app. split; [exact Hst|]. repeat constructor.
          apply Ht. reflexivity. }
        destruct (BATCH_SIZE <=? _); [|eexists; split; eauto].
        unfold write_batch. cbn [results sink].
        destruct (flatten_total _ Hall) as [data ->]. simpl.
        destruct (Hsink data (sink st)) as [s' ->]. simpl.
        eexists. split; [reflexivity|]. constructor. }
    simpl. apply IH. exact Hst1.
Qed.

Lemma make_requests_total {Sink}
    (insert_into : list pyval -> Sink -> result Sink)
    (coro : nat -> coroutine) (parameters : list WorkItem)
    (concurrency_limit : Z) (table_handler : Sink) (kwargs : retry_kwargs)
    (completion : list (list nat)) :
  1 <= concurrency_limit ->
  (forall data s, exists s', insert_into data s = ret s') ->
  (forall i r, create_tasks coro kwargs parameters !! i = Some (inr r) ->
               is_list r = true) ->
  exists s,
    make_requests coro parameters concurrency_limit insert_into table_handler
      kwargs completion = Some (ret s).
Proof.
  intros Hlimit Hsink Hlists. unfold make_requests.
  destruct (Z.ltb_spec concurrency_limit 0); [lia|].
  destruct (Z.eqb_spec concurrency_limit 0); [lia|]. simpl.
  rewrite while_pending_tasks_handle_all.
  destruct (handle_all_total insert_into
              (visited (create_tasks coro kwargs parameters) completion)
              Hsink) with (st := init_reducer table_handler)
    as (st & -> & Hst).
  - apply Forall_forall. intros t Hin r ->. unfold visited in Hin.
    apply list_elem_of_omap in Hin as (i & _ & Hi). eauto.
  - constructor.
  - simpl. unfold write_remaining.
    destruct (0 <? _); [|eexists; reflexivity].
    unfold write_batch.
    destruct (flatten_total _ Hst) as [data ->]. simpl.
    destruct (Hsink data (sink st)) as [s' ->]. simpl. eexists. reflexivity.
Qed.

(** C2 (as amended). For a call of [make_requests] with
    [concurrency_limit >= 1], keywords that [retry] knows and at most 1024
    attempts per item, whose tasks are each visited once: the call does
    not hang, and it returns when the sink does not raise and the results
    are lists; every task ends with a result or with [TooManyRetries] for
    its own work item, never both; and when the call returns, [failed]
    holds the work items of the exhausted tasks, once each, the flushed
    buffers hold the results of the other tasks, once each,
    [succeeded_count] is the number of those tasks, and the two numbers add
    up to the number of work items. *)
Theorem every_item_one_outcome {Sink}
    (insert_into : list pyval -> Sink -> result Sink)
    (coro : nat -> coroutine) (parameters : list WorkItem)
    (concurrency_limit : Z) (table_handler : Sink) (kwargs : retry_kwargs)
    (completion : list (list nat)) :
  1 <= concurrency_limit ->
  concat completion ≡ₚ seq 0 (length parameters) ->
  kw_unexpected kwargs = [] ->
  default 5 (kw_max_retries kwargs) <= 1024 ->
  let tasks := create_tasks coro kwargs parameters in
  make_requests coro parameters concurrency_limit insert_into table_handler
    kwargs completion <> None
  /\ ((forall data s, exists s', insert_into data s = ret s') ->
      (forall i r, tasks !! i = Some (inr r) -> is_list r = true) ->
      exists s,
        make_requests coro parameters concurrency_limit insert_into
          table_handler kwargs completion = Some (ret s))
  /\ (forall i params, parameters !! i = Some params ->
        (exists r, tasks !! i = Some (inr r))
        \/ tasks !! i = Some (inl (TooManyRetries params)))
  /\ forall s,
       make_requests coro parameters concurrency_limit insert_into
         table_handler kwargs completion = Some (ret s) ->
       failed_items s ≡ₚ omap task_exhausted tasks
       /\ concat (map flush_buffer (flush_log s)) ≡ₚ omap task_result tasks
       /\ succeeded_count s = Z.of_nat (length (omap task_result tasks))
       /\ succeeded_count s + Z.of_nat (length (failed_items s))
            = Z.of_nat (length parameters).
Proof.
  intros Hlimit Hperm Hkw Hmax tasks.
  assert (Houtcome : forall i params, parameters !! i = Some params ->
    (exists r, tasks !! i = Some (inr r))
    \/ tasks !! i = Some (inl (TooManyRetries params))).
  { intros i params Hi. unfold tasks. rewrite create_tasks_lookup, Hi. simpl.
    destruct (semaphore_coroutine_outcome (coro i) kwargs params Hkw Hmax)
      as [[r ->]| ->]; eauto. }
  split; [|split; [|split; [exact Houtcome|]]].
  - unfold make_requests.
    destruct (Z.ltb_spec concurrency_limit 0); [lia|].
    destruct (Z.eqb_spec concurrency_limit 0); [lia|]. discriminate.
  - intros Hsink Hlists. apply make_requests_total; assumption.
  - intros s Hrun.
    destruct (make_requests_returns _ _ _ _ _ _ _ _ Hrun)
      as (Hfailed & Hbuf & Hcount & _).
    fold tasks in Hfailed, Hbuf, Hcount.
    assert (Hvis : visited tasks completion ≡ₚ tasks).
    { apply visited_Permutation. unfold tasks.
      rewrite length_create_tasks. exact Hperm. }
    assert (Hsplit :
      (length (omap task_result tasks) + length (omap task_exhausted tasks))%nat
        = length parameters).
    { rewrite <- (length_create_tasks coro kwargs parameters).
      apply outcomes_split. apply Forall_lookup. intros i t Ht.
      fold tasks in Ht.
      destruct (parameters !! i) as [params|] eqn:Hi.
      - destruct (Houtcome i params Hi) as [[r Hr]|He].
        + pose proof (eq_trans (eq_sym Ht) Hr) as [= ->]. left. simpl. eauto.
        + pose proof (eq_trans (eq_sym Ht) He) as [= ->]. right. simpl. eauto.
      - unfold tasks in Ht. rewrite create_tasks_lookup, Hi in Ht.
        discriminate. }
    rewrite Hfailed, Hbuf, Hcount, Hvis. repeat split; auto. lia.
Qed.

Lemma every_item_one_outcome_witness :
  let tasks := create_tasks odd_tasks_fail no_kwargs params_list in
  make_requests odd_tasks_fail params_list 3 mock_insert_into tt no_kwargs
    [[2; 0]; [4; 1]; [3]]%nat <> None
  /\ ((forall data s, exists s', mock_insert_into data s = ret s') ->
      (forall i r, tasks !! i = Some (inr r) -> is_list r = true) ->
      exists s,
        make_requests odd_tasks_fail params_list 3 mock_insert_into tt
          no_kwargs [[2; 0]; [4; 1]; [3]]%nat = Some (ret s))
  /\ (forall i params, params_list !! i = Some params ->
        (exists r, tasks !! i = Some (inr r))
        \/ tasks !! i = Some (inl (TooManyRetries params)))
  /\ forall s,
       make_requests odd_tasks_fail params_list 3 mock_insert_into tt
         no_kwargs [[2; 0]; [4; 1]; [3]]%nat = Some (ret s) ->
       failed_items s ≡ₚ omap task_exhausted tasks
       /\ concat (map flush_buffer (flush_log s)) ≡ₚ omap task_result tasks
       /\ succeeded_count s = Z.of_nat (length (omap task_result tasks))
       /\ succeeded_count s + Z.of_nat (length (failed_items s))
            = Z.of_nat (length params_list).
Proof.
  apply (every_item_one_outcome mock_insert_into odd_tasks_fail params_list 3
           tt no_kwargs [[2; 0]; [4; 1]; [3]]%nat).
  - lia.
  - apply (bool_decide_unpack _). vm_compute. exact I.
  - reflexivity.
  - simpl. lia.
Defined.

(** C2, as the claim states it, fails in two ways. An item that yields
    three records adds 1 to [succeeded_count], not its records. And with a
    misspelt keyword the task of the only item ends with a [TypeError]; the
    call returns 0 and an empty [failed], so the item is in neither. *)
Lemma one_outcome_counterexample :
  make_requests fan_out (take 2 params_list) 3 mock_insert_into tt no_kwargs
    [[1; 0]%nat]
  = Some (ret {| succeeded_count := 2; failed_items := []; sink_after := tt;
                 flush_log :=
                   [{| flush_buffer :=
                         [PList [sample_record; sample_record; sample_record];
                          PList []];
                       flush_data :=
                         [sample_record; sample_record; sample_record] |}] |})
  /\ make_requests (fun _ => always_failing) [sample_item] 1 mock_insert_into
       tt typo_kwargs [[0%nat]]
     = Some (ret {| succeeded_count := 0; failed_items := [];
                    sink_after := tt; flush_log := [] |}).
Proof. split; vm_compute; reflexivity. Qed.

(** C3. The code does not do what the claim says: the task of a call with
    a misspelt keyword ends with a [TypeError], which is not
    [TooManyRetries]; [make_requests] returns normally, with the item
    neither counted nor in [failed]. The same happens to the
    [OverflowError] of a task that runs out of 1025 attempts. *)
Theorem other_errors_are_dropped :
  _semaphore_coroutine always_failing typo_kwargs sample_item
    = inl (TypeError "retry() got an unexpected keyword argument 'max_retry'")
  /\ make_requests (fun _ => always_failing) [sample_item] 1 mock_insert_into
       tt typo_kwargs [[0%nat]]
     = Some (ret {| succeeded_count := 0; failed_items := [];
                    sink_after := tt; flush_log := [] |})
  /\ make_requests (fun _ => always_failing) [sample_item] 1 mock_insert_into
       tt {| kw_max_retries := Some 1025; kw_timeout := None;
             kw_backoff_factor := Some 0%Q; kw_unexpected := [] |} [[0%nat]]
     = Some (ret {| succeeded_count := 0; failed_items := [];
                    sink_after := tt; flush_log := [] |}).
Proof. repeat split; vm_compute; reflexivity. Qed.

Lemma flush_sizes (log full last : list flush) :
  log = full ++ last ->
  Forall (fun f => Z.of_nat (length (flush_buffer f)) = BATCH_SIZE) full ->
  (last = [] \/ exists f, last = [f]
                  /\ 0 < Z.of_nat (length (flush_buffer f)) < BATCH_SIZE) ->
  let m := Z.of_nat (length (concat (map flush_buffer log))) in
  map flush_size log =
    replicate (Z.to_nat (m / BATCH_SIZE)) BATCH_SIZE
    ++ (if m mod BATCH_SIZE =? 0 then [] else [m mod BATCH_SIZE]).
Proof.
  intros -> Hfull Hlast m.
  destruct (length_full_batches full Hfull) as [Hlen Hsizes].
  pose proof BATCH_SIZE_pos as Hpos.
  subst m. rewrite !map_app, concat_app, length_app, Nat2Z.inj_add, Hlen, Hsizes.
  destruct Hlast as [->|(f & -> & Hf)]; simpl.
  - rewrite Z.add_0_r, Z.div_mul, Z.mod_mul, Nat2Z.id by lia. reflexivity.
  - rewrite app_nil_r.
    set (r := Z.of_nat (length (flush_buffer f))) in *.
    set (q := Z.of_nat (length full)).
    assert (Hq : (q * BATCH_SIZE + r) / BATCH_SIZE = q).
    { symmetry. apply (Z.div_unique _ _ q r); lia. }
    assert (Hr : (q * BATCH_SIZE + r) mod BATCH_SIZE = r).
    { symmetry. apply (Z.mod_unique _ _ q r); lia. }
    rewrite Hq, Hr. subst q. rewrite Nat2Z.id.
    destruct (Z.eqb_spec r 0); [lia|]. reflexivity.
Qed.



(** When every task returns a result, the sizes of the flushes follow from
    the number of work items alone. *)
Corollary flush_sizes_all_succeed {Sink}
    (insert_into : list pyval -> Sink -> result Sink)
    (coro : nat -> coroutine) (parameters : list WorkItem)
    (concurrency_limit : Z) (table_handler : Sink) (kwargs : retry_kwargs)
    (completion : list (list nat)) (s : summary Sink) :
  concat completion ≡ₚ seq 0 (length parameters) ->
  Forall (fun t => is_Some (task_result t))
    (create_tasks coro kwargs parameters) ->
  make_requests coro parameters concurrency_limit insert_into table_handler
    kwargs completion = Some (ret s) ->
  let m := Z.of_nat (length parameters) in
  succeeded_count s = m
  /\ map flush_size (flush_log s) =
       replicate (Z.to_nat (m / BATCH_SIZE)) BATCH_SIZE
       ++ (if m mod BATCH_SIZE =? 0 then [] else [m mod BATCH_SIZE]).
Proof.
  intros Hperm Hall Hrun m.
  destruct (make_requests_returns _ _ _ _ _ _ _ _ Hrun)
    as (_ & Hbuf & Hcount & _ & full & last & Hlog & Hfull & Hlast).
  assert (Hm : Z.of_nat (length (omap task_result
                 (visited (create_tasks coro kwargs parameters) completion)))
               = m).
  { rewrite visited_Permutation
      by (rewrite length_create_tasks; exact Hperm).
    subst m. rewrite <- (length_create_tasks coro kwargs parameters).
    f_equal. clear -Hall.
    induction Hall as [|t ts [r Hr] _ IH]; simpl; [reflexivity|].
    rewrite Hr. simpl. f_equal. exact IH. }
  split; [rewrite Hcount; exact Hm|].
  rewrite <- Hm, <- Hbuf.
  apply (flush_sizes _ full last Hlog Hfull).
  destruct Hlast as [[-> _]|Hlast]; auto.
Qed.

(** The threshold at work: 10001 items that each return a result are
    flushed as one batch of 10000 during the loop and one of 1 at the end;
    10000 items are flushed once, during the loop, and nothing is left for
    the end. *)
Corollary flush_at_threshold {Sink}
    (insert_into : list pyval -> Sink -> result Sink)
    (parameters : list WorkItem) (table_handler : Sink)
    (completion : list (list nat)) (s : summary Sink) :
  concat completion ≡ₚ seq 0 (length parameters) ->
  make_requests (fun _ _ _ _ => Returns (PList [sample_record])) parameters 3
    insert_into table_handler no_kwargs completion = Some (ret s) ->
  (Z.of_nat (length parameters) = 10001 ->
   map flush_size (flush_log s) = [10000; 1])
  /\ (Z.of_nat (length parameters) = 10000 ->
      map flush_size (flush_log s) = [10000]).
Proof.
  intros Hperm Hrun.
  assert (Hall : Forall (fun t => is_Some (task_result t))
            (create_tasks (fun _ _ _ _ => Returns (PList [sample_record]))
               no_kwargs parameters)).
  { apply Forall_forall. intros t Hin.
    apply list_elem_of_lookup in Hin as [i Hi].
    rewrite create_tasks_lookup in Hi.
    destruct (parameters !! i); [|discriminate].
    injection Hi as <-. vm_compute. eauto. }
  destruct (flush_sizes_all_succeed _ _ _ _ _ _ _ _ Hperm Hall Hrun)
    as [_ Hsizes].
  rewrite Hsizes. split; intros ->; reflexivity.
Qed.

(** ** The concurrency limiter *)

Lemma count_running_insert (l : list phase) (i : nat) (p q : phase) :
  l !! i = Some p ->
  Z.of_nat (length (List.filter is_running (<[i := q]> l)))
    = Z.of_nat (length (List.filter is_running l))
      - Z.b2z (is_running p) + Z.b2z (is_running q).
Proof.
  revert i. induction l as [|x l IH]; intros [|i] Hi; simpl in *;
    try discriminate.
  - injection Hi as ->. destruct p, q; simpl; lia.
  - specialize (IH i Hi). destruct x; simpl; lia.
Qed.

Lemma count_running_scheduled (parameters : list WorkItem) :
  List.filter is_running (map (fun _ => Scheduled) parameters) = [].
Proof. induction parameters; simpl; auto. Qed.

Section Limiter.

Variables (tasks : list task) (concurrency_limit : Z).

Lemma loop_inv_init (parameters : list WorkItem) :
  0 <= concurrency_limit ->
  loop_inv concurrency_limit (length parameters)
    (loop_init concurrency_limit parameters).
Proof.
  intros Hlimit. split; simpl.
  - unfold count_running. simpl. rewrite count_running_scheduled. simpl. lia.
  - exact Hlimit.
  - apply length_map.
  - constructor.
  - intros i. split; [intros Hin; inversion Hin|].
    intros [t Ht]. rewrite list_lookup_fmap in Ht.
    destruct (parameters !! i); discriminate.
Qed.

Lemma loop_inv_step (n : nat) (a : action) (s s' : loop_state) :
  loop_inv concurrency_limit n s ->
  loop_step tasks a s = Some s' ->
  loop_inv concurrency_limit n s'.
Proof.
  intros [Hslots Hvalue Hlen Hnodup Horder] Hstep.
  destruct a as [i|i]; simpl in Hstep.
  - destruct (phases s !! i) as [[| |t]|] eqn:Hi; try discriminate.
    destruct (Z.ltb_spec 0 (sem_value s)); [|discriminate].
    injection Hstep as <-. split; simpl; auto.
    + unfold count_running in *. simpl.
      rewrite (count_running_insert _ _ _ _ Hi). simpl. lia.
    + lia.
    + rewrite length_insert. exact Hlen.
    + intros j. rewrite Horder. destruct (decide (i = j)) as [->|Hne].
      * rewrite list_lookup_insert_eq by (eapply lookup_lt_Some; eauto).
        rewrite Hi. split; intros [t [=]].
      * rewrite list_lookup_insert_ne by exact Hne. reflexivity.
  - destruct (phases s !! i) as [[| |t']|] eqn:Hi; try discriminate.
    destruct (tasks !! i) as [t|] eqn:Ht; [|discriminate].
    injection Hstep as <-. split; simpl; auto.
    + unfold count_running in *. simpl.
      rewrite (count_running_insert _ _ _ _ Hi). simpl. lia.
    + lia.
    + rewrite length_insert. exact Hlen.
    + apply NoDup_app. split; [exact Hnodup|]. split; [|apply NoDup_singleton].
      intros j Hj Hj'. apply list_elem_of_singleton in Hj'. subst j.
      apply Horder in Hj as [t0 Ht0]. rewrite Hi in Ht0. discriminate.
    + intros j. rewrite elem_of_app, list_elem_of_singleton, Horder.
      destruct (decide (i = j)) as [->|Hne].
      * rewrite list_lookup_insert_eq by (eapply lookup_lt_Some; eauto).
        split; [eauto|]. intros _. right. reflexivity.
      * rewrite list_lookup_insert_ne by exact Hne.
        split; [intros [H|H]; [exact H|congruence]|auto].
Qed.

Lemma loop_inv_run (n : nat) (actions : list action) :
  forall s s' : loop_state,
    loop_inv concurrency_limit n s ->
    loop_run tasks actions s = Some s' ->
    loop_inv concurrency_limit n s'.
Proof.
  induction actions as [|a actions IH]; intros s s' Hinv Hrun; simpl in Hrun.
  - injection Hrun as <-. exact Hinv.
  - destruct (loop_step tasks a s) as [s1|] eqn:Hstep; [|discriminate].
    eapply IH; [|exact Hrun]. eapply loop_inv_step; eauto.
Qed.

Lemma count_running_nonneg (s : loop_state) : 0 <= count_running s.
Proof. unfold count_running. lia. Qed.

(** Once every task has finished, each index is in [finish_order] exactly
    once: the order in which the tasks end is a permutation of the tasks. *)
Lemma finish_order_complete (n : nat) (s : loop_state) :
  loop_inv concurrency_limit n s ->
  Forall (fun p => is_finished p = true) (phases s) ->
  finish_order s ≡ₚ seq 0 n.
Proof.
  intros [_ _ Hlen Hnodup Horder] Hall.
  apply NoDup_Permutation; [exact Hnodup|apply NoDup_seq|].
  intros i. rewrite Horder, elem_of_seq. split.
  - intros [t Ht]. apply lookup_lt_Some in Ht. lia.
  - intros [_ Hi]. destruct (lookup_lt_is_Some_2 (phases s) i) as [p Hp]; [lia|].
    rewrite Forall_lookup in Hall. specialize (Hall i p Hp).
    destruct p; try discriminate. eauto.
Qed.

(** With at least one slot, the loop is never stuck before the last task
    has finished. *)
Lemma loop_progress (n : nat) (s : loop_state) :
  1 <= concurrency_limit -> length tasks = n ->
  loop_inv concurrency_limit n s ->
  ~ Forall (fun p => is_finished p = true) (phases s) ->
  exists a s', loop_step tasks a s = Some s'.
Proof.
  intros Hlimit Htasks [Hslots Hvalue Hlen _ _] Hnot.
  destruct (decide (Exists (fun p => is_running p = true) (phases s)))
    as [Hrun|Hnorun].
  - apply Exists_exists in Hrun as (p & Hin & Hp).
    apply list_elem_of_lookup in Hin as [i Hi].
    destruct p; try discriminate.
    destruct (lookup_lt_is_Some_2 tasks i) as [t Ht].
    { apply lookup_lt_Some in Hi. lia. }
    exists (Finish i). simpl. rewrite Hi, Ht. eauto.
  - apply not_Forall_Exists in Hnot; [|intros p; apply _].
    apply Exists_exists in Hnot as (p & Hin & Hp).
    apply list_elem_of_lookup in Hin as [i Hi].
    assert (p = Scheduled) as ->.
    { destruct p; [reflexivity| |simpl in Hp; congruence].
      exfalso. apply Hnorun. apply Exists_exists. exists Running.
      split; [|reflexivity]. apply list_elem_of_lookup. eauto. }
    assert (count_running s = 0) as Hzero.
    { unfold count_running.
      assert (forall l : list phase,
                ~ Exists (fun p => is_running p = true) l ->
                List.filter is_running l = []) as Hnone.
      { induction l as [|x l IH]; intros Hx; simpl; [reflexivity|].
        destruct (is_running x) eqn:Hrx.
        - exfalso. apply Hx. left. exact Hrx.
        - apply IH. intros H. apply Hx. right. exact H. }
      rewrite Hnone by exact Hnorun. reflexivity. }
    exists (Acquire i). simpl. rewrite Hi.
    destruct (Z.ltb_spec 0 (sem_value s)); [eauto|lia].
Qed.

End Limiter.

(** With no slot at all, no task ever starts. *)
Lemma loop_stuck_without_slots (tasks : list task) (parameters : list WorkItem)
    (a : action) :
  loop_step tasks a (loop_init 0 parameters) = None.
Proof.
  destruct a as [i|i]; simpl; rewrite list_lookup_fmap;
    destruct (parameters !! i); reflexivity.
Qed.

(** C6. In a call of [make_requests] with [concurrency_limit >= 1], all the
    tasks, one per work item, exist before any of them runs, none holding a
    slot; in every state the event loop can reach, the number of units of
    work that are executing is at most [concurrency_limit], and the
    semaphore's value is the number of free slots; a task cannot start
    while [concurrency_limit] units are executing; and a unit that is
    executing can finish with whatever outcome its task has, which frees
    its slot. *)
Theorem limiter_bound (coro : nat -> coroutine) (kwargs : retry_kwargs)
    (parameters : list WorkItem) (concurrency_limit : Z)
    (actions : list action) (s : loop_state) :
  1 <= concurrency_limit ->
  let tasks := create_tasks coro kwargs parameters in
  loop_run tasks actions (loop_init concurrency_limit parameters) = Some s ->
  phases (loop_init concurrency_limit parameters)
    = map (fun _ => Scheduled) parameters
  /\ count_running (loop_init concurrency_limit parameters) = 0
  /\ length (phases s) = length parameters
  /\ 0 <= count_running s <= concurrency_limit
  /\ sem_value s = concurrency_limit - count_running s
  /\ (count_running s = concurrency_limit ->
      forall i, loop_step tasks (Acquire i) s = None)
  /\ (forall i, phases s !! i = Some Running ->
      exists t s',
        tasks !! i = Some t
        /\ loop_step tasks (Finish i) s = Some s'
        /\ phases s' !! i = Some (Finished t)
        /\ sem_value s' = sem_value s + 1
        /\ count_running s' = count_running s - 1).
Proof.
  intros Hlimit tasks Hrun.
  assert (Hinv : loop_inv concurrency_limit (length parameters) s).
  { eapply loop_inv_run; [|exact Hrun]. apply loop_inv_init. lia. }
  pose proof Hinv as [Hslots Hvalue Hlen _ _].
  pose proof (count_running_nonneg s) as Hnonneg.
  split; [reflexivity|].
  split; [unfold count_running; simpl; rewrite count_running_scheduled;
          reflexivity|].
  split; [exact Hlen|]. split; [lia|]. split; [lia|]. split.
  - intros Hfull i. simpl. destruct (phases s !! i) as [[| |t]|]; auto.
    destruct (Z.ltb_spec 0 (sem_value s)); [lia|reflexivity].
  - intros i Hi.
    destruct (lookup_lt_is_Some_2 tasks i) as [t Ht].
    { unfold tasks. rewrite length_create_tasks, <- Hlen.
      eapply lookup_lt_Some; eauto. }
    exists t. eexists. split; [exact Ht|]. simpl. rewrite Hi, Ht.
    split; [reflexivity|]. simpl.
    split; [apply list_lookup_insert_eq; eapply lookup_lt_Some; eauto|].
    split; [reflexivity|].
    unfold count_running. simpl.
    rewrite (count_running_insert _ _ _ _ Hi). simpl. lia.
Qed.

Lemma limiter_bound_witness :
  let tasks := create_tasks odd_tasks_fail no_kwargs params_list in
  let s := {| sem_value := 0;
              phases := [Finished (inr (PList [sample_record])); Running;
                         Running; Running; Scheduled];
              finish_order := [0%nat] |} in
  phases (loop_init 3 params_list) = map (fun _ => Scheduled) params_list
  /\ count_running (loop_init 3 params_list) = 0
  /\ length (phases s) = length params_list
  /\ 0 <= count_running s <= 3
  /\ sem_value s = 3 - count_running s
  /\ (count_running s = 3 -> forall i, loop_step tasks (Acquire i) s = None)
  /\ (forall i, phases s !! i = Some Running ->
      exists t s',
        tasks !! i = Some t
        /\ loop_step tasks (Finish i) s = Some s'
        /\ phases s' !! i = Some (Finished t)
        /\ sem_value s' = sem_value s + 1
        /\ count_running s' = count_running s - 1).
Proof.
  apply (limiter_bound odd_tasks_fail no_kwargs params_list 3
           [Acquire 0; Acquire 1; Acquire 2; Finish 0; Acquire 3]%nat).
  - lia.
  - vm_compute. reflexivity.
Defined.

(** ** The table handler *)

Section Storage.

Variable affinity : string -> sqlval -> sqlval.

Lemma executemany_execute_all (table_name : string) (schema : table_schema)
    (tuples : list (list pyval)) :
  forall conn : connection,
    match execute_all affinity table_name schema tuples (working conn) with
    | inr w =>
        executemany affinity table_name schema tuples conn
          = ({| committed := committed conn; working := w |}, None)
    | inl e =>
        exists conn',
          executemany affinity table_name schema tuples conn = (conn', Some e)
          /\ committed conn' = committed conn
    end.
Proof.
  induction tuples as [|p tuples IH]; intros conn; simpl.
  - destruct conn; reflexivity.
  - destruct (execute_insert affinity table_name schema p (working conn))
      as [e|w]; simpl; [eauto|].
    apply (IH {| committed := committed conn; working := w |}).
Qed.

(** [insert_into] without the connection: the database is the one all the
    tuples were applied to, or the one before the call. *)
Lemma insert_into_unfold (self : TableHandler) (data : list pyval)
    (database : db) :
  insert_into affinity self data database =
    match DB_SCHEMA !! _table_name self with
    | None => (database, Some (SqliteError "no such table"))
    | Some schema =>
        match all_dict_values data with
        | inl e => (database, Some e)
        | inr tuples =>
            match execute_all affinity (_table_name self) schema tuples
                    database with
            | inl e => (database, Some e)
            | inr w => (w, None)
            end
        end
    end.
Proof.
  unfold insert_into, with_connection.
  destruct (DB_SCHEMA !! _table_name self) as [schema|]; [|reflexivity].
  destruct (all_dict_values data) as [e|tuples]; [reflexivity|].
  pose proof (executemany_execute_all (_table_name self) schema tuples
                (connect database)) as H.
  simpl in H.
  destruct (execute_all affinity (_table_name self) schema tuples database)
    as [e|w].
  - destruct H as (conn' & -> & Hc). simpl. rewrite Hc. reflexivity.
  - rewrite H. reflexivity.
Qed.

Lemma execute_insert_prepare (table_name : string) (schema : table_schema)
    (p : list pyval) (database : db) :
  execute_insert affinity table_name schema p database =
    let* r := prepare affinity schema p in
    match database !! table_name with
    | Some t =>
        let* t' := insert_or_replace schema r t in
        ret (<[table_name := t']> database)
    | None => raise (SqliteError "no such table")
    end.
Proof.
  unfold execute_insert, prepare.
  destruct (decide _); [|reflexivity].
  destruct (bind_values p); reflexivity.
Qed.

Lemma all_dict_values_elem (data : list pyval) (tuples : list (list pyval))
    (fields : list (string * pyval)) :
  all_dict_values data = ret tuples -> PDict fields ∈ data ->
  map snd fields ∈ tuples.
Proof.
  revert tuples. induction data as [|c data IH]; intros tuples Hall Hin.
  - inversion Hin.
  - simpl in Hall. apply bind_ret_inv in Hall as (t & Ht & Hall).
    apply bind_ret_inv in Hall as (ts & Hts & Hall). injection Hall as <-.
    apply elem_of_cons in Hin as [<-|Hin].
    + simpl in Ht. injection Ht as <-. left.
    + right. eauto.
Qed.

Lemma execute_all_arity (table_name : string) (schema : table_schema)
    (tuples : list (list pyval)) (p : list pyval) :
  p ∈ tuples -> length p <> length (schema_columns schema) ->
  forall database,
    exists e, execute_all affinity table_name schema tuples database = inl e.
Proof.
  intros Hin Hlen. induction Hin as [p tuples|p q tuples Hin IH];
    intros database; simpl.
  - unfold execute_insert. destruct (decide _); [contradiction|]. simpl. eauto.
  - destruct (execute_insert affinity table_name schema q database) as [e|d];
      simpl; eauto.
Qed.

End Storage.

(** C8 (as amended). [insert_into(records)] is all-or-nothing per call:
    when it raises, the table is as it was before the call, and when it
    returns, every record has been written, in order. It raises whenever a
    record does not have as many values as the table has columns. The names
    of a record's fields are not looked at: two lists of records with the
    same values in the same order do the same. *)
Theorem insert_into_all_or_nothing (affinity : string -> sqlval -> sqlval)
    (self : TableHandler) (data : list pyval) (database : db) :
  (forall e database',
      insert_into affinity self data database = (database', Some e) ->
      database' = database)
  /\ (forall database',
      insert_into affinity self data database = (database', None) ->
      exists schema tuples,
        DB_SCHEMA !! _table_name self = Some schema
        /\ all_dict_values data = ret tuples
        /\ execute_all affinity (_table_name self) schema tuples database
             = ret database')
  /\ (forall fields,
      PDict fields ∈ data ->
      (forall schema, DB_SCHEMA !! _table_name self = Some schema ->
                      length fields <> length (schema_columns schema)) ->
      exists e, insert_into affinity self data database = (database, Some e))
  /\ (forall data',
      all_dict_values data' = all_dict_values data ->
      insert_into affinity self data' database
        = insert_into affinity self data database).
Proof.
  repeat split.
  - intros e database'. rewrite insert_into_unfold.
    destruct (DB_SCHEMA !! _table_name self) as [schema|]; [|congruence].
    destruct (all_dict_values data) as [e'|tuples]; [congruence|].
    destruct (execute_all _ _ _ _ _) as [e'|w]; congruence.
  - intros database'. rewrite insert_into_unfold.
    destruct (DB_SCHEMA !! _table_name self) as [schema|]; [|discriminate].
    destruct (all_dict_values data) as [e'|tuples]; [discriminate|].
    destruct (execute_all _ _ _ _ _) as [e'|w] eqn:Hall; [discriminate|].
    intros [= <-]. eauto.
  - intros fields Hin Hlen. rewrite insert_into_unfold.
    destruct (DB_SCHEMA !! _table_name self) as [schema|]; [|eauto].
    destruct (all_dict_values data) as [e'|tuples] eqn:Hvalues; [eauto|].
    destruct (execute_all_arity affinity (_table_name self) schema tuples
                (map snd fields)) with (database := database) as [e ->].
    + eapply all_dict_values_elem; eauto.
    + rewrite length_map. auto.
    + eauto.
  - intros data' Hsame. rewrite !insert_into_unfold, Hsame. reflexivity.
Qed.

Lemma insert_into_all_or_nothing_witness :
  exists e,
    insert_into stored_as_bound {| _table_name := "pages_urls" |}
      [PDict [("id", PInt 1); ("page_url", PStr "http://www.example.com/page1")];
       PDict [("page_url", PStr "http://www.example.com/page2")]]
      (fresh_db "pages_urls")
    = (fresh_db "pages_urls", Some e).
Proof.
  apply (proj1 (proj2 (proj2
           (insert_into_all_or_nothing stored_as_bound
              {| _table_name := "pages_urls" |} _ (fresh_db "pages_urls"))))
           [("page_url", PStr "http://www.example.com/page2")]).
  - right. left.
  - intros schema Hschema. vm_compute in Hschema. injection Hschema as <-.
    simpl. lia.
Defined.

(** C8, as the claim states it, fails: the record [compile_article_data]
    builds has a field [img_urls], which is not a column of
    [articles_data], and no field [images_urls], which is one;
    [insert_into] stores it without an error, the value of [img_urls] under
    [images_urls]. *)
Lemma field_names_counterexample :
  bool_decide ("img_urls" ∈ map fst (schema_columns ARTICLES_DATA_TABLE)) = false
  /\ article_record sample_article_url (PStr "leather boots") (PStr "black")
       (PStr "[]") (PStr "[]") (PStr "[]") = ret sample_article
  /\ exists database',
       insert_into stored_as_bound {| _table_name := "articles_data" |}
         [PDict sample_article] (fresh_db "articles_data")
         = (database', None)
       /\ stored_records "articles_data" database'
            = [[("id", PInt 4172);
                ("article_url", PStr "https://www.example.com/prd/1");
                ("description", PStr "leather boots");
                ("colour", PStr "black");
                ("tags", PStr "[]");
                ("materials", PStr "[]");
                ("images_urls", PStr "[]")]].
Proof.
  split; [vm_compute; reflexivity|]. split; [vm_compute; reflexivity|].
  eexists. split; vm_compute; reflexivity.
Qed.

Lemma filter_all {A} (P : A -> Prop) `{!forall x, Decision (P x)} (l : list A) :
  Forall P l -> filter P l = l.
Proof.
  induction 1 as [|x l Hx _ IH]; [reflexivity|].
  rewrite filter_cons_True by exact Hx. f_equal. exact IH.
Qed.

Lemma filter_none {A} (P : A -> Prop) `{!forall x, Decision (P x)} (l : list A) :
  Forall (fun x => ~ P x) l -> filter P l = [].
Proof.
  induction 1 as [|x l Hx _ IH]; [reflexivity|].
  rewrite filter_cons_False by exact Hx. exact IH.
Qed.

Section Idempotence.

Variable affinity : string -> sqlval -> sqlval.
Variable schema : table_schema.

Lemma insert_or_replace_index (r : row) (l : list row) :
  pk_of schema r <> SNull ->
  insert_or_replace schema r (IndexTable l) =
    ret (IndexTable
           (filter (fun r' => pk_of schema r' <> pk_of schema r) l ++ [r])).
Proof.
  simpl. intros Hk. destruct (pk_of schema r); congruence.
Qed.

(** The rows of a table without a rowid key after a list of insertions:
    the old rows under other keys, then rows that depend on the insertions
    alone. *)
Lemma insert_rows_index (rows : list row) :
  Forall (fun r => pk_of schema r <> SNull) rows ->
  exists fresh : list row,
    Forall (fun x => pk_of schema x ∈ map (pk_of schema) rows) fresh
    /\ forall l : list row,
         insert_rows schema rows (IndexTable l) =
           ret (IndexTable
                  (filter (fun x => pk_of schema x ∉ map (pk_of schema) rows) l
                   ++ fresh)).
Proof.
  induction 1 as [|r rows Hr _ (fresh & Hfresh & IH)].
  - exists []. split; [constructor|]. intros l. simpl. rewrite app_nil_r.
    f_equal. f_equal. symmetry. apply filter_all.
    apply Forall_forall. intros x _ Hin. inversion Hin.
  - exists (filter (fun x => pk_of schema x ∉ map (pk_of schema) rows) [r]
            ++ fresh).
    split.
    + apply Forall_app. split.
      * apply Forall_forall. intros x Hx.
        apply list_elem_of_filter in Hx as [_ Hx].
        apply list_elem_of_singleton in Hx as ->. left.
      * eapply Forall_impl; [exact Hfresh|]. intros x Hx. right. exact Hx.
    + intros l. cbn [insert_rows].
      rewrite insert_or_replace_index by exact Hr. simpl.
      rewrite IH, filter_app, list_filter_filter, <- app_assoc.
      f_equal. f_equal. f_equal. apply list_filter_iff. intros x.
      rewrite not_elem_of_cons. tauto.
Qed.

(** The rows of a table keyed by rowid after a list of insertions: a map
    that depends on the insertions alone, laid over the old rows. *)
Lemma insert_rows_rowid (rows : list row) :
  Forall (fun r => pk_of schema r <> SNull) rows ->
  forall (m : gmap Z row) (t' : table),
    insert_rows schema rows (RowidTable m) = ret t' ->
    exists fresh : gmap Z row,
      forall m2 : gmap Z row,
        insert_rows schema rows (RowidTable m2) = ret (RowidTable (fresh ∪ m2)).
Proof.
  induction 1 as [|r rows Hr _ IH]; intros m t' Hrun.
  - exists ∅. intros m2. simpl. rewrite (left_id_L ∅ (∪)). reflexivity.
  - cbn [insert_rows] in Hrun.
    apply bind_ret_inv in Hrun as (t1 & Hstep & Hrun).
    simpl in Hstep.
    destruct (pk_of schema r) as [|z|s] eqn:Hk; try congruence; [|discriminate].
    injection Hstep as <-.
    destruct (IH _ _ Hrun) as [fresh Hfresh].
    exists (fresh ∪ {[z := r]}). intros m2. cbn [insert_rows]. simpl.
    rewrite Hk. simpl. rewrite Hfresh, <- (assoc_L (∪)).
    rewrite <- insert_union_singleton_l. reflexivity.
Qed.

(** Inserting the same rows a second time changes nothing, as long as no
    row has a NULL key. *)
Lemma insert_rows_idempotent (rows : list row) (t t' : table) :
  Forall (fun r => pk_of schema r <> SNull) rows ->
  insert_rows schema rows t = ret t' ->
  insert_rows schema rows t' = ret t'.
Proof.
  intros Hkeys Hrun. destruct t as [m|l].
  - destruct (insert_rows_rowid rows Hkeys m t' Hrun) as [fresh Hfresh].
    rewrite Hfresh in Hrun. injection Hrun as <-.
    rewrite Hfresh, (assoc_L (∪)), (idemp_L (∪)). reflexivity.
  - destruct (insert_rows_index rows Hkeys) as (fresh & Hfresh & Hrows).
    rewrite Hrows in Hrun. injection Hrun as <-.
    rewrite Hrows, filter_app, list_filter_filter.
    f_equal. f_equal. rewrite <- app_assoc.
    rewrite (filter_none _ fresh).
    + simpl. f_equal. apply list_filter_iff. tauto.
    + eapply Forall_impl; [exact Hfresh|]. intros x Hx Hnot. exact (Hnot Hx).
Qed.

(** [execute_all] on a database that has the table: the tuples become rows
    and the rows go into the table. *)
Lemma execute_all_table (table_name : string) (tuples : list (list pyval)) :
  forall (database database' : db) (t : table),
    database !! table_name = Some t ->
    execute_all affinity table_name schema tuples database = ret database' ->
    exists rows t',
      Forall2 (fun p r => prepare affinity schema p = ret r) tuples rows
      /\ insert_rows schema rows t = ret t'
      /\ database' = <[table_name := t']> database.
Proof.
  induction tuples as [|p tuples IH]; intros database database' t Ht Hrun;
    simpl in Hrun.
  - injection Hrun as <-. exists [], t. split; [constructor|].
    split; [reflexivity|]. symmetry. apply insert_id. exact Ht.
  - apply bind_ret_inv in Hrun as (d1 & Hstep & Hrun).
    rewrite execute_insert_prepare in Hstep.
    apply bind_ret_inv in Hstep as (r & Hr & Hstep).
    rewrite Ht in Hstep.
    apply bind_ret_inv in Hstep as (t1 & Ht1 & Hstep). injection Hstep as <-.
    destruct (IH _ _ t1 (lookup_insert_eq _ _ _) Hrun)
      as (rows & t' & Hrows & Hins & ->).
    exists (r :: rows), t'. split; [constructor; assumption|]. split.
    + simpl. rewrite Ht1. exact Hins.
    + apply insert_insert_eq.
Qed.

Lemma execute_all_rows (table_name : string) (tuples : list (list pyval))
    (rows : list row) :
  Forall2 (fun p r => prepare affinity schema p = ret r) tuples rows ->
  forall (database : db) (t t' : table),
    database !! table_name = Some t ->
    insert_rows schema rows t = ret t' ->
    execute_all affinity table_name schema tuples database
      = ret (<[table_name := t']> database).
Proof.
  induction 1 as [|p r tuples rows Hp _ IH]; intros database t t' Ht Hins;
    cbn [execute_all insert_rows] in *.
  - injection Hins as <-. f_equal. symmetry. apply insert_id. exact Ht.
  - apply bind_ret_inv in Hins as (t1 & Ht1 & Hins).
    cbv beta in Hp.
    rewrite execute_insert_prepare, Hp. simpl. rewrite Ht, Ht1. simpl.
    rewrite (IH _ t1 t' (lookup_insert_eq _ _ _) Hins).
    f_equal. apply insert_insert_eq.
Qed.

Lemma execute_all_no_table (table_name : string) (tuples : list (list pyval))
    (database database' : db) :
  database !! table_name = None ->
  execute_all affinity table_name schema tuples database = ret database' ->
  database' = database.
Proof.
  intros Hnone Hrun. destruct tuples as [|p tuples]; simpl in Hrun.
  - injection Hrun as <-. reflexivity.
  - apply bind_ret_inv in Hrun as (d1 & Hstep & _).
    rewrite execute_insert_prepare in Hstep.
    apply bind_ret_inv in Hstep as (r & _ & Hstep).
    rewrite Hnone in Hstep. discriminate.
Qed.

Lemma stored_keys_not_null (data : list pyval) (tuples : list (list pyval))
    (rows : list row) :
  Forall (fun c => stored_key affinity schema c <> Some SNull) data ->
  all_dict_values data = ret tuples ->
  Forall2 (fun p r => prepare affinity schema p = ret r) tuples rows ->
  Forall (fun r => pk_of schema r <> SNull) rows.
Proof.
  intros Hkeys. revert tuples rows.
  induction Hkeys as [|c data Hc _ IH]; intros tuples rows Hall Hrows;
    simpl in Hall.
  - injection Hall as <-. inversion Hrows. constructor.
  - apply bind_ret_inv in Hall as (p & Hp & Hall).
    apply bind_ret_inv in Hall as (ps & Hps & Hall). injection Hall as <-.
    inversion Hrows as [|p' r ps' rows' Hr Hrest]; subst.
    constructor; [|eapply IH; eauto].
    intros Hnull. apply Hc. unfold stored_key, ret in *.
    rewrite Hp. cbv beta iota. rewrite Hr. cbv beta iota. rewrite Hnull.
    reflexivity.
Qed.

End Idempotence.




(** ** The stage sequencer *)

Lemma M_bind_inv {A B} (c : M A) (k : A -> M B) (w : world) (r : B * world) :
  M_bind c k w = Some (ret r) ->
  exists a w1, c w = Some (ret (a, w1)) /\ k a w1 = Some (ret r).
Proof.
  unfold M_bind. destruct (c w) as [[e|[a w1]]|]; try discriminate. eauto.
Qed.

Lemma logger_inv (e : log_entry) (w w' : world) (u : unit) :
  logger e w = Some (ret (u, w')) ->
  database w' = database w /\ journal w' = journal w ++ [e].
Proof. intros [= _ <-]. auto. Qed.

Lemma M_lift_inv {A} (r : result A) (a : A) (w w' : world) :
  M_lift r w = Some (ret (a, w')) -> r = ret a /\ w' = w.
Proof.
  unfold M_lift, ret. destruct r; simpl; [discriminate|].
  intros [= -> ->]. auto.
Qed.

Lemma new_TableHandler_inv (table_name : string) (self : TableHandler)
    (w w' : world) :
  new_TableHandler table_name w = Some (ret (self, w')) ->
  self = {| _table_name := table_name |}
  /\ journal w' = journal w
  /\ forall other, other <> table_name ->
       database w' !! other = database w !! other.
Proof.
  unfold new_TableHandler, TableHandler_init, create_table, with_connection.
  simpl. destruct (DB_SCHEMA !! table_name); [|discriminate].
  destruct (database w !! table_name); simpl; intros [= <- <-]; simpl;
    repeat split; auto.
  intros other Hne. apply lookup_insert_ne. congruence.
Qed.

Lemma call_insert_into_inv (affinity : string -> sqlval -> sqlval)
    (self : TableHandler) (data : list pyval) (w w' : world) (u : unit) :
  call_insert_into affinity self data w = Some (ret (u, w')) ->
  journal w' = journal w.
Proof.
  unfold call_insert_into.
  destruct (insert_into_sink affinity self data (database w)); simpl;
    intros [= _ <-]; reflexivity.
Qed.

Lemma call_to_records_inv (table_name : string) (records : list WorkItem)
    (w w' : world) :
  call_to_records {| _table_name := table_name |} w = Some (ret (records, w')) ->
  w' = w /\ records = stored_records table_name (database w).
Proof.
  unfold call_to_records, stored_records.
  destruct (to_records _ (database w)); simpl; intros [= <- <-]; auto.
Qed.

Lemma await_make_requests_inv (affinity : string -> sqlval -> sqlval)
    (env : environment) (stage : nat) (parameters : list WorkItem)
    (table_handler : TableHandler) (w w' : world) (n : Z)
    (failed_list : list WorkItem) :
  await_make_requests affinity env stage parameters table_handler w
    = Some (ret ((n, failed_list), w')) ->
  exists s,
    make_requests (env_compile env stage) parameters CONCURRENCY_LIMIT
      (insert_into_sink affinity table_handler) (database w) no_kwargs
      (env_completion env stage parameters) = Some (ret s)
    /\ n = succeeded_count s /\ failed_list = failed_items s
    /\ database w' = sink_after s
    /\ journal w' = journal w ++ [Requests stage parameters (database w)].
Proof.
  unfold await_make_requests, ret. cbv zeta. cbn [database journal].
  destruct (make_requests _ _ _ _ _ _ _) as [[e|s]|]; try discriminate.
  intros [= <- <- <-]. exists s. cbn [database journal]. auto.
Qed.

Lemma report_failed_inv (stage : nat) (failed_list parameters : list WorkItem)
    (w w' : world) (u : unit) :
  report_failed stage failed_list parameters w = Some (ret (u, w')) ->
  database w' = database w
  /\ journal w' = journal w ++ error_lines stage failed_list parameters.
Proof.
  unfold report_failed, error_lines. destruct failed_list.
  - intros [= _ <-]. rewrite app_nil_r. auto.
  - apply logger_inv.
Qed.

Lemma stored_records_other (table_name : string) (d d' : db) :
  d' !! table_name = d !! table_name ->
  stored_records table_name d' = stored_records table_name d.
Proof.
  intros H. unfold stored_records, to_records. simpl. rewrite H. reflexivity.
Qed.



(** A run with a partial failure: the second category exhausts its retries
    in stage 2, which is logged, and stages 3 and 4 run on what stage 2
    stored. *)
Example sample_run :
  map (fun e => match e with
                | Requests stage parameters _ =>
                    Requests stage parameters ∅
                | _ => e
                end)
    (journal (final_world stored_as_bound sample_env new_world))
  = [LogInfo 1; LogSuccess 1; LogInfo 2;
     Requests 2 [sample_category; other_category] ∅;
     LogError 2 1 2; LogSuccess 2; LogInfo 3;
     Requests 3 [sample_page] ∅; LogSuccess 3; LogInfo 4;
     Requests 4 [sample_article_url] ∅; LogSuccess 4]
  /\ stored_records "articles_data"
       (database (final_world stored_as_bound sample_env new_world))
     = [[("id", PInt 4172);
         ("article_url", PStr "https://www.example.com/prd/1");
         ("description", PStr "leather boots");
         ("colour", PStr "black");
         ("tags", PStr "[]");
         ("materials", PStr "[]");
         ("images_urls", PStr "[]")]].
Proof. split; vm_compute; reflexivity. Qed.


(** * More properties *)

(** ** flatten and retry *)

(** X1. Flattening a concatenation is flattening its parts, whether they
    raise or not, so batches can be flattened one by one; and [flatten]
    removes exactly one level of nesting: on a list of lists it returns
    their items, in order, and never raises. *)
Theorem flatten_compose :
  (forall a b : list pyval,
      flatten (a ++ b) =
        let* x := flatten a in let* y := flatten b in ret (x ++ y))
  /\ (forall ls : list (list pyval), flatten (map PList ls) = ret (concat ls)).
Proof.
  split; [|apply flatten_lists].
  intros a b. unfold flatten. rewrite forallb_app.
  destruct (forallb is_list a); simpl; [|reflexivity].
  destruct (forallb is_list b); simpl; [|reflexivity].
  rewrite map_app, concat_app. reflexivity.
Qed.

Lemma retry_loop_bounds (coro : coroutine) (params : WorkItem)
    (timeout backoff_factor : Q) (n : nat) :
  forall (first : nat) (retry_interval : Q),
    let run := retry_loop coro params timeout backoff_factor (seq first n)
                 retry_interval in
    (count_calls run.2 <= n)%nat
    /\ (count_sleeps run.2 <= count_calls run.2)%nat
    /\ (forall v, run.1 = inr v ->
          exists k, (k < n)%nat
            /\ coro params (first + k)%nat timeout = Returns v
            /\ (forall i, (i < k)%nat ->
                  is_failure (coro params (first + i)%nat timeout) = true)
            /\ count_calls run.2 = S k)
    /\ (forall e, run.1 = inl e ->
          e = TooManyRetries params \/ exists msg, e = OverflowError msg).
Proof.
  induction n as [|n IH]; intros first retry_interval; cbn zeta.
  - simpl. unfold raise, count_calls, count_sleeps. simpl.
    (split; [|split; [|split]]); try lia; [discriminate|].
    intros e [= <-]. left. reflexivity.
  - cbn [seq retry_loop]. unfold wait_for, raise, ret.
    destruct (coro params first timeout) as [v| |] eqn:Hfirst.
    + simpl. unfold count_calls, count_sleeps. simpl.
      (split; [|split; [|split]]); try lia; [|discriminate].
      intros v' [= <-]. exists 0%nat. rewrite Nat.add_0_r.
      split; [lia|]. split; [exact Hfirst|]. split; [intros i Hi; lia|lia].
    + unfold float_of_pow2, raise, ret. destruct (first <? 1024)%nat.
      * simpl.
        specialize (IH (S first)
                      (backoff_factor * inject_Z (2 ^ Z.of_nat first))%Q).
        cbn zeta in IH. destruct IH as (Hc & Hs & Hret & Hexn).
        destruct (retry_loop coro params timeout backoff_factor
                    (seq (S first) n) _) as [r evs].
        unfold count_calls, count_sleeps in *. simpl in *.
        (split; [|split; [|split]]); try lia; [|exact Hexn].
        intros v Hv. destruct (Hret v Hv) as (k & Hk & Hok & Hfail & Hcount).
        exists (S k). rewrite Nat.add_succ_r.
        split; [lia|]. split; [exact Hok|]. split; [|lia].
        intros [|i] Hi; [rewrite Nat.add_0_r, Hfirst; reflexivity|].
        rewrite Nat.add_succ_r. apply Hfail. lia.
      * simpl. unfold count_calls, count_sleeps. simpl.
        (split; [|split; [|split]]); try lia; [discriminate|].
        intros e' [= <-]. right. eauto.
    + unfold float_of_pow2, raise, ret. destruct (first <? 1024)%nat.
      * simpl.
        specialize (IH (S first)
                      (backoff_factor * inject_Z (2 ^ Z.of_nat first))%Q).
        cbn zeta in IH. destruct IH as (Hc & Hs & Hret & Hexn).
        destruct (retry_loop coro params timeout backoff_factor
                    (seq (S first) n) _) as [r evs].
        unfold count_calls, count_sleeps in *. simpl in *.
        (split; [|split; [|split]]); try lia; [|exact Hexn].
        intros v Hv. destruct (Hret v Hv) as (k & Hk & Hok & Hfail & Hcount).
        exists (S k). rewrite Nat.add_succ_r.
        split; [lia|]. split; [exact Hok|]. split; [|lia].
        intros [|i] Hi; [rewrite Nat.add_0_r, Hfirst; reflexivity|].
        rewrite Nat.add_succ_r. apply Hfail. lia.
      * simpl. unfold count_calls, count_sleeps. simpl.
        (split; [|split; [|split]]); try lia; [discriminate|].
        intros e' [= <-]. right. eauto.
Qed.

(** X2. For every unit of work, whatever it does: [retry] never invokes it
    more than [max_retries] times, and never sleeps more often than it
    invokes; a value it returns is the value of the first attempt that did
    not fail, after which nothing more is invoked; and the only exceptions
    that leave it are [TooManyRetries] with the original work item and the
    [OverflowError] of the interval computation, never one the unit
    raised. *)
Theorem retry_bounds (coro : coroutine) (params : WorkItem) (max_retries : Z)
    (timeout backoff_factor : Q) :
  let run := retry coro params max_retries timeout backoff_factor in
  (count_calls run.2 <= Z.to_nat max_retries)%nat
  /\ (count_sleeps run.2 <= count_calls run.2)%nat
  /\ (forall v, run.1 = inr v ->
        exists k, (k < Z.to_nat max_retries)%nat
          /\ coro params k timeout = Returns v
          /\ (forall i, (i < k)%nat ->
                is_failure (coro params i timeout) = true)
          /\ count_calls run.2 = S k)
  /\ (forall e, run.1 = inl e ->
        e = TooManyRetries params \/ exists msg, e = OverflowError msg).
Proof.
  apply (retry_loop_bounds coro params timeout backoff_factor
           (Z.to_nat max_retries) 0 0%Q).
Qed.

Lemma retry_loop_overflow (coro : coroutine) (params : WorkItem)
    (timeout backoff_factor : Q) (k : nat) :
  forall (first n : nat) (retry_interval : Q),
    (first + k = 1024)%nat -> (k < n)%nat ->
    (forall i, (first <= i <= 1024)%nat ->
               is_failure (coro params i timeout) = true) ->
    let run := retry_loop coro params timeout backoff_factor (seq first n)
                 retry_interval in
    run.1 = raise (OverflowError "int too large to convert to float")
    /\ count_calls run.2 = S k.
Proof.
  induction k as [|k IH]; intros first n retry_interval Hk Hn Hfail;
    (destruct n as [|n]; [lia|]); cbn zeta; cbn [seq retry_loop].
  - destruct (wait_for_failure (coro params first) timeout) as [e ->].
    { apply Hfail. lia. }
    unfold float_of_pow2. destruct (Nat.ltb_spec first 1024); [lia|].
    simpl. split; reflexivity.
  - destruct (wait_for_failure (coro params first) timeout) as [e ->].
    { apply Hfail. lia. }
    rewrite float_of_pow2_ok by lia. unfold ret. cbv beta iota.
    specialize (IH (S first) n
                  (backoff_factor * inject_Z (2 ^ Z.of_nat first))%Q
                  ltac:(lia) ltac:(lia)).
    cbn zeta in IH. destruct IH as [Hr Hc].
    { intros i Hi. apply Hfail. lia. }
    destruct (retry_loop coro params timeout backoff_factor
                (seq (S first) n) _) as [r evs].
    simpl in *. split; [exact Hr|]. unfold count_calls in *. simpl. lia.
Qed.



Lemma total_sleep_failed_attempts (params : WorkItem) (backoff_factor : Q)
    (k : nat) :
  forall j : nat,
    (total_sleep (failed_attempts params backoff_factor (S j) k)
     == backoff_factor
        * inject_Z (2 ^ Z.of_nat (j + k) - 2 ^ Z.of_nat j))%Q.
Proof.
  unfold failed_attempts.
  induction k as [|k IH]; intros j; simpl.
  - rewrite Nat.add_0_r, Z.sub_diag. ring.
  - rewrite (IH (S j)). rewrite <- Qmult_plus_distr_r, <- inject_Z_plus.
    apply Qmult_comp; [reflexivity|].
    apply inject_Z_injective.
    replace (j + S k)%nat with (S j + k)%nat by lia.
    rewrite (Nat2Z.inj_succ j), Z.pow_succ_r by lia. lia.
Qed.



(** ** make_requests *)

Lemma visited_nil (completion : list (list nat)) : visited [] completion = [].
Proof.
  unfold visited. induction (concat completion) as [|i l IH]; [reflexivity|].
  exact IH.
Qed.

(** X5. A call of [make_requests] without work items returns [(0, [])] at
    once, whatever the event loop does: nothing is written to the sink,
    not even an empty batch, and with a semaphore of value 0 it still
    returns. *)
Theorem make_requests_no_items {Sink}
    (insert_into : list pyval -> Sink -> result Sink)
    (coro : nat -> coroutine) (concurrency_limit : Z) (table_handler : Sink)
    (kwargs : retry_kwargs) (completion : list (list nat)) :
  0 <= concurrency_limit ->
  make_requests coro [] concurrency_limit insert_into table_handler kwargs
    completion
  = Some (ret {| succeeded_count := 0; failed_items := [];
                 sink_after := table_handler; flush_log := [] |}).
Proof.
  intros Hlimit. unfold make_requests.
  destruct (Z.ltb_spec concurrency_limit 0); [lia|].
  rewrite bool_decide_eq_false_2 by (intros Hne; apply Hne; reflexivity).
  rewrite andb_false_r, while_pending_tasks_handle_all.
  change (create_tasks coro kwargs []) with (@nil task).
  rewrite visited_nil. reflexivity.
Qed.

Lemma make_requests_no_items_witness :
  make_requests odd_tasks_fail [] 0 mock_insert_into tt no_kwargs [[0; 1]%nat]
  = Some (ret {| succeeded_count := 0; failed_items := [];
                 sink_after := tt; flush_log := [] |}).
Proof. apply (make_requests_no_items mock_insert_into). lia. Defined.

(** The reducer loop over a sink that always raises: it raises that error,
    or it has written nothing and holds every result in its buffer. *)
Lemma handle_all_failing_sink {Sink}
    (insert_into : list pyval -> Sink -> result Sink) (e : exn)
    (ts : list task) :
  (forall data s, insert_into data s = raise e) ->
  Forall (fun t => forall r, t = inr r -> is_list r = true) ts ->
  forall st : reducer Sink,
    Forall (fun r => is_list r = true) (results st) ->
    handle_all insert_into ts st = raise e
    \/ exists st',
         handle_all insert_into ts st = ret st'
         /\ results st' = results st ++ omap task_result ts
         /\ Forall (fun r => is_list r = true) (results st').
Proof.
  intros Hsink Hts. induction Hts as [|t ts Ht _ IH]; intros st Hst.
  - right. exists st. simpl. rewrite app_nil_r. auto.
  - cbn [handle_all]. destruct t as [e'|r].
    + assert (exists st1, handle_done insert_into (inl e') st = ret st1
                /\ results st1 = results st) as (st1 & -> & Hres).
      { simpl. destruct (as_TooManyRetries e'); eexists; split; eauto. }
      simpl. rewrite <- Hres in Hst. destruct (IH st1 Hst) as [Hraise|Hok].
      * left. exact Hraise.
      * right. destruct Hok as (st' & Hrun & Hres' & Hlists).
        exists st'. split; [exact Hrun|].
        split; [rewrite Hres', Hres; reflexivity|exact Hlists].
    + assert (Hall : Forall (fun r => is_list r = true) (results st ++ [r])).
      { apply Forall_app. split; [exact Hst|]. repeat constructor.
        apply Ht. reflexivity. }
      simpl. destruct (BATCH_SIZE <=? _).
      * left. unfold write_batch. cbn [results sink].
        destruct (flatten_total _ Hall) as [data ->]. simpl.
        rewrite Hsink. reflexivity.
      * simpl.
        destruct (IH {| results := results st ++ [r]; failed := failed st;
                        succeeded := succeeded st; sink := sink st;
                        flushes := flushes st |} Hall) as [Hraise|Hok].
        -- left. exact Hraise.
        -- right. destruct Hok as (st' & Hrun & Hres' & Hlists).
           exists st'. split; [exact Hrun|].
           split; [rewrite Hres'; simpl; rewrite <- app_assoc; reflexivity
                  |exact Hlists].
Qed.

(** X6. A storage failure is never swallowed: when [insert_into] raises
    [e] on every call and at least one visited task returned a result,
    [make_requests] raises [e], by the first flush that is attempted. *)
Theorem flush_failure_propagates {Sink}
    (insert_into : list pyval -> Sink -> result Sink)
    (coro : nat -> coroutine) (parameters : list WorkItem)
    (concurrency_limit : Z) (table_handler : Sink) (kwargs : retry_kwargs)
    (completion : list (list nat)) (e : exn) (r : pyval) :
  1 <= concurrency_limit ->
  (forall data s, insert_into data s = raise e) ->
  (forall i r, create_tasks coro kwargs parameters !! i = Some (inr r) ->
               is_list r = true) ->
  inr r ∈ visited (create_tasks coro kwargs parameters) completion ->
  make_requests coro parameters concurrency_limit insert_into table_handler
    kwargs completion = Some (raise e).
Proof.
  intros Hlimit Hsink Hlists Hin. unfold make_requests.
  destruct (Z.ltb_spec concurrency_limit 0); [lia|].
  destruct (Z.eqb_spec concurrency_limit 0); [lia|]. simpl.
  rewrite while_pending_tasks_handle_all. f_equal.
  destruct (handle_all_failing_sink insert_into e
              (visited (create_tasks coro kwargs parameters) completion)
              Hsink) with (st := init_reducer table_handler)
    as [->|(st & -> & Hres & Hall)].
  - apply Forall_forall. intros t Ht r' ->. unfold visited in Ht.
    apply list_elem_of_omap in Ht as (i & _ & Hi). eauto.
  - constructor.
  - reflexivity.
  - simpl in *. unfold write_remaining.
    assert (Hne : results st <> []).
    { rewrite Hres. intros Hnil.
      assert (r ∈ omap task_result
                (visited (create_tasks coro kwargs parameters) completion))
        as Hr by (apply list_elem_of_omap; exists (inr r); auto).
      rewrite Hnil in Hr. inversion Hr. }
    destruct (results st) as [|r0 rs] eqn:Hrs; [contradiction|].
    simpl length. destruct (Z.ltb_spec 0 (Z.of_nat (S (length rs)))); [|lia].
    unfold write_batch. rewrite Hrs.
    destruct (flatten_total (r0 :: rs)) as [data ->]; [exact Hall|].
    simpl. rewrite Hsink. reflexivity.
Qed.

(** A storage that is out of order. *)
Lemma flush_failure_propagates_witness :
  make_requests odd_tasks_fail params_list 3
    (fun (_ : list pyval) (_ : unit) => raise (SqliteError "disk I/O error"))
    tt no_kwargs [[2; 0]; [4; 1]; [3]]%nat
  = Some (raise (SqliteError "disk I/O error")).
Proof.
  apply (flush_failure_propagates _ odd_tasks_fail params_list 3 tt no_kwargs
           _ _ (PList [sample_record])).
  - lia.
  - reflexivity.
  - intros [|[|[|[|[|i]]]]] r; vm_compute; intros [= <-] || intros [=];
      reflexivity.
  - vm_compute. left.
Defined.

Lemma elem_of_concat {A} (x : A) (ls : list (list A)) :
  x ∈ concat ls -> exists l, x ∈ l /\ l ∈ ls.
Proof.
  induction ls as [|l ls IH]; simpl; [intros H; inversion H|].
  rewrite elem_of_app. intros [H|H].
  - exists l. split; [exact H|left].
  - destruct (IH H) as (l' & Hx & Hl). exists l'. split; [exact Hx|right; exact Hl].
Qed.

(** X7. A unit of work that breaks its contract is fatal: when a visited
    task returned something that is not a list, [make_requests] does not
    return a summary, it raises (the [ValueError] of [flatten], unless the
    sink raised before). *)
Theorem non_list_result_is_fatal {Sink}
    (insert_into : list pyval -> Sink -> result Sink)
    (coro : nat -> coroutine) (parameters : list WorkItem)
    (concurrency_limit : Z) (table_handler : Sink) (kwargs : retry_kwargs)
    (completion : list (list nat)) (r : pyval) :
  1 <= concurrency_limit ->
  inr r ∈ visited (create_tasks coro kwargs parameters) completion ->
  is_list r = false ->
  exists e,
    make_requests coro parameters concurrency_limit insert_into table_handler
      kwargs completion = Some (raise e).
Proof.
  intros Hlimit Hin Hr.
  destruct (make_requests coro parameters concurrency_limit insert_into
              table_handler kwargs completion) as [[e|s]|] eqn:Hrun.
  - eauto.
  - exfalso.
    destruct (make_requests_returns _ _ _ _ _ _ _ _ Hrun)
      as (_ & Hbuf & _ & Hdata & _).
    assert (Hr' : r ∈ concat (map flush_buffer (flush_log s))).
    { rewrite Hbuf. apply list_elem_of_omap. exists (inr r). auto. }
    apply elem_of_concat in Hr' as (buffer & Hrb & Hb).
    apply list_elem_of_fmap in Hb as (f & -> & Hf).
    rewrite Forall_forall in Hdata. specialize (Hdata f Hf).
    rewrite (flatten_not_nested _ r Hrb Hr) in Hdata. discriminate.
  - exfalso. unfold make_requests in Hrun.
    destruct (Z.ltb_spec concurrency_limit 0); [lia|].
    destruct (Z.eqb_spec concurrency_limit 0); [lia|]. discriminate.
Qed.

Lemma non_list_result_is_fatal_witness :
  exists e,
    make_requests (fun _ _ _ _ => Returns sample_record) [sample_item] 1
      mock_insert_into tt no_kwargs [[0%nat]] = Some (raise e).
Proof.
  apply (non_list_result_is_fatal mock_insert_into _ [sample_item] 1 tt
           no_kwargs [[0%nat]] sample_record).
  - lia.
  - vm_compute. left.
  - reflexivity.
Defined.

(** X8. [failed] is in completion order, not submission order: it lists
    the work items of the exhausted tasks in the order in which the
    reducer visited the finished tasks. *)
Theorem failed_in_completion_order {Sink}
    (insert_into : list pyval -> Sink -> result Sink)
    (coro : nat -> coroutine) (parameters : list WorkItem)
    (concurrency_limit : Z) (table_handler : Sink) (kwargs : retry_kwargs)
    (completion : list (list nat)) (s : summary Sink) :
  make_requests coro parameters concurrency_limit insert_into table_handler
    kwargs completion = Some (ret s) ->
  failed_items s =
    omap task_exhausted
      (visited (create_tasks coro kwargs parameters) completion).
Proof.
  intros Hrun. apply (make_requests_returns _ _ _ _ _ _ _ _ Hrun).
Qed.

(** The same five items with the odd tasks failing: visited as 4, 3, 2, 1,
    0, the failed items come out as 3, 1. *)
Lemma failed_in_completion_order_witness :
  failed_items
    {| succeeded_count := 3;
       failed_items := omap (fun i => params_list !! i) [3; 1]%nat;
       sink_after := tt;
       flush_log :=
         [{| flush_buffer := [PList [sample_record]; PList [sample_record];
                              PList [sample_record]];
             flush_data := [sample_record; sample_record; sample_record] |}] |}
  = omap task_exhausted
      (visited (create_tasks odd_tasks_fail no_kwargs params_list)
         [[4; 3]; [2; 1; 0]]%nat).
Proof.
  apply (failed_in_completion_order mock_insert_into odd_tasks_fail
           params_list 3 tt no_kwargs [[4; 3]; [2; 1; 0]]%nat).
  vm_compute. reflexivity.
Defined.

(** ** The event loop *)

(** X9. With [concurrency_limit >= 1] the tasks of [make_requests] cannot
    deadlock: in every state the event loop can reach in which some task
    has not finished, some task can take a step, either entering the
    semaphore or finishing. *)
Theorem limiter_never_stuck (coro : nat -> coroutine) (kwargs : retry_kwargs)
    (parameters : list WorkItem) (concurrency_limit : Z)
    (actions : list action) (s : loop_state) :
  1 <= concurrency_limit ->
  let tasks := create_tasks coro kwargs parameters in
  loop_run tasks actions (loop_init concurrency_limit parameters) = Some s ->
  ~ Forall (fun p => is_finished p = true) (phases s) ->
  exists a s', loop_step tasks a s = Some s'.
Proof.
  intros Hlimit tasks Hrun Hnot.
  apply (loop_progress tasks concurrency_limit (length parameters)); auto.
  - apply length_create_tasks.
  - eapply loop_inv_run; [|exact Hrun]. apply loop_inv_init. lia.
Qed.

Lemma limiter_never_stuck_witness :
  let tasks := create_tasks odd_tasks_fail no_kwargs params_list in
  exists a s',
    loop_step tasks a
      {| sem_value := 0;
         phases := [Finished (inr (PList [sample_record])); Running;
                    Running; Running; Scheduled];
         finish_order := [0%nat] |} = Some s'.
Proof.
  apply (limiter_never_stuck odd_tasks_fail no_kwargs params_list 3
           [Acquire 0; Acquire 1; Acquire 2; Finish 0; Acquire 3]%nat).
  - lia.
  - vm_compute. reflexivity.
  - intros H. inversion H as [|? ? _ H'].
    inversion H' as [|? ? Hrunning _]. discriminate.
Defined.

Lemma steps_left_insert (l : list phase) (i : nat) (p q : phase) :
  l !! i = Some p ->
  (sum_list (map steps_left (<[i := q]> l)) + steps_left p
   = sum_list (map steps_left l) + steps_left q)%nat.
Proof.
  revert i. induction l as [|x l IH]; intros [|i] Hi; simpl in *;
    try discriminate.
  - injection Hi as ->. lia.
  - specialize (IH i Hi). lia.
Qed.

Lemma loop_step_steps_left (tasks : list task) (a : action)
    (s s' : loop_state) :
  loop_step tasks a s = Some s' ->
  loop_steps_left s = S (loop_steps_left s').
Proof.
  unfold loop_steps_left. destruct a as [i|i]; simpl.
  - destruct (phases s !! i) as [[| |t]|] eqn:Hi; try discriminate.
    destruct (0 <? sem_value s); [|discriminate]. intros [= <-]. simpl.
    pose proof (steps_left_insert _ _ _ Running Hi). simpl in *. lia.
  - destruct (phases s !! i) as [[| |t']|] eqn:Hi; try discriminate.
    destruct (tasks !! i) as [t|]; [|discriminate]. intros [= <-]. simpl.
    pose proof (steps_left_insert _ _ _ (Finished t) Hi). simpl in *. lia.
Qed.

Lemma loop_run_steps_left (tasks : list task) (actions : list action) :
  forall s s' : loop_state,
    loop_run tasks actions s = Some s' ->
    loop_steps_left s = (length actions + loop_steps_left s')%nat.
Proof.
  induction actions as [|a actions IH]; intros s s' Hrun; simpl in Hrun.
  - injection Hrun as <-. reflexivity.
  - destruct (loop_step tasks a s) as [s1|] eqn:Hstep; [|discriminate].
    rewrite (loop_step_steps_left _ _ _ _ Hstep), (IH _ _ Hrun). simpl. lia.
Qed.

Lemma steps_left_all_finished (l : list phase) :
  sum_list (map steps_left l) = 0%nat <->
  Forall (fun p => is_finished p = true) l.
Proof.
  induction l as [|p l IH]; simpl.
  - split; [constructor|reflexivity].
  - split.
    + intros H. constructor; [destruct p; simpl in *; auto; lia|].
      apply IH. lia.
    + intros H. inversion H as [|? ? Hp Hl]; subst.
      apply IH in Hl. destruct p; simpl in *; try discriminate. lia.
Qed.

(** X10. The tasks of a call on [n] work items take at most [2n] steps:
    every step the event loop lets a task take (enter the semaphore,
    finish) brings the run one step closer to its end, whatever the order.
    After exactly [2n] steps every task has finished, and each has
    finished once: the order in which they ended is a permutation of the
    tasks. *)
Theorem event_loop_terminates (coro : nat -> coroutine) (kwargs : retry_kwargs)
    (parameters : list WorkItem) (concurrency_limit : Z)
    (actions : list action) (s : loop_state) :
  0 <= concurrency_limit ->
  let tasks := create_tasks coro kwargs parameters in
  loop_run tasks actions (loop_init concurrency_limit parameters) = Some s ->
  (length actions + loop_steps_left s = 2 * length parameters)%nat
  /\ (length actions = (2 * length parameters)%nat <->
      Forall (fun p => is_finished p = true) (phases s))
  /\ (Forall (fun p => is_finished p = true) (phases s) ->
      finish_order s ≡ₚ seq 0 (length parameters)).
Proof.
  intros Hlimit tasks Hrun.
  assert (Hinit : loop_steps_left (loop_init concurrency_limit parameters)
                  = (2 * length parameters)%nat).
  { unfold loop_steps_left. simpl. clear.
    induction parameters as [|p l IH]; simpl in *; lia. }
  pose proof (loop_run_steps_left _ _ _ _ Hrun) as Hsteps.
  rewrite Hinit in Hsteps.
  split; [lia|]. split.
  - unfold loop_steps_left in Hsteps.
    rewrite <- steps_left_all_finished. lia.
  - apply (finish_order_complete concurrency_limit).
    eapply loop_inv_run; [|exact Hrun]. apply loop_inv_init. exact Hlimit.
Qed.

Lemma event_loop_terminates_witness :
  let s := {| sem_value := 3;
              phases := [Finished (inr (PList [sample_record]));
                         Finished (inl (TooManyRetries
                                          [("url", PStr "http://example.com/page1")]))];
              finish_order := [1; 0]%nat |} in
  (length [Acquire 0; Acquire 1; Finish 1; Finish 0]%nat + loop_steps_left s
   = 2 * length (take 2 params_list))%nat
  /\ (length [Acquire 0; Acquire 1; Finish 1; Finish 0]%nat
      = (2 * length (take 2 params_list))%nat <->
      Forall (fun p => is_finished p = true) (phases s))
  /\ (Forall (fun p => is_finished p = true) (phases s) ->
      finish_order s ≡ₚ seq 0 (length (take 2 params_list))).
Proof.
  apply (event_loop_terminates odd_tasks_fail no_kwargs (take 2 params_list) 3
           [Acquire 0; Acquire 1; Finish 1; Finish 0]%nat).
  - lia.
  - vm_compute. reflexivity.
Defined.

(** ** The table handler *)

(** X11. [create_table] is idempotent and never loses data: a second call
    changes nothing and ends as the first did; every table that was in
    the database is still there with its rows; after a call that did not
    raise the handler's table exists; and for a table name that
    [DB_SCHEMA] does not know it raises [KeyError] and leaves the database
    as it was. *)
Theorem create_table_idempotent (self : TableHandler) (database : db) :
  let once := create_table self database in
  create_table self once.1 = once
  /\ (forall name t, database !! name = Some t -> once.1 !! name = Some t)
  /\ (once.2 = None -> is_Some (once.1 !! _table_name self))
  /\ (DB_SCHEMA !! _table_name self = None ->
      once = (database, Some (KeyError (_table_name self)))).
Proof.
  unfold create_table, with_connection, connect, commit.
  cbn [working committed fst snd].
  destruct (DB_SCHEMA !! _table_name self) as [schema|];
    cbn [working committed fst snd].
  - destruct (database !! _table_name self) as [t|] eqn:Ht;
      cbn [working committed fst snd].
    + rewrite Ht. cbn [working committed fst snd].
      split; [reflexivity|]. split; [auto|]. split; [eauto|discriminate].
    + rewrite lookup_insert_eq. cbn [working committed fst snd].
      split; [reflexivity|]. split; [|split].
      * intros name t Hname. rewrite lookup_insert_ne; [exact Hname|].
        congruence.
      * intros _. eauto.
      * discriminate.
  - split; [reflexivity|]. split; [auto|]. split; [discriminate|reflexivity].
Qed.

Section Frame.

Variable affinity : string -> sqlval -> sqlval.

Lemma execute_all_frame (table_name : string) (schema : table_schema)
    (tuples : list (list pyval)) (other : string) :
  other <> table_name ->
  forall database database' : db,
    execute_all affinity table_name schema tuples database = ret database' ->
    database' !! other = database !! other.
Proof.
  intros Hne. induction tuples as [|p tuples IH]; intros d d' Hrun;
    simpl in Hrun.
  - injection Hrun as <-. reflexivity.
  - apply bind_ret_inv in Hrun as (d1 & Hstep & Hrun).
    rewrite (IH _ _ Hrun).
    rewrite execute_insert_prepare in Hstep.
    apply bind_ret_inv in Hstep as (r & _ & Hstep).
    destruct (d !! table_name) as [t|]; [|discriminate].
    apply bind_ret_inv in Hstep as (t1 & _ & Hstep). injection Hstep as <-.
    apply lookup_insert_ne. congruence.
Qed.

Lemma insert_into_other_table (self : TableHandler) (data : list pyval)
    (database : db) (other : string) :
  other <> _table_name self ->
  (insert_into affinity self data database).1 !! other = database !! other.
Proof.
  intros Hne. rewrite insert_into_unfold.
  destruct (DB_SCHEMA !! _table_name self) as [schema|]; [|reflexivity].
  destruct (all_dict_values data) as [e|tuples]; [reflexivity|].
  destruct (execute_all affinity (_table_name self) schema tuples database)
    as [e|w] eqn:Hrun; [reflexivity|].
  simpl. eapply execute_all_frame; eauto.
Qed.

End Frame.

(** What holds of the sink before a call and is kept by every write holds
    of the sink after the call. *)
Lemma make_requests_sink_invariant {Sink} (P : Sink -> Prop)
    (insert_into : list pyval -> Sink -> result Sink)
    (coro : nat -> coroutine) (parameters : list WorkItem)
    (concurrency_limit : Z) (table_handler : Sink) (kwargs : retry_kwargs)
    (completion : list (list nat)) (s : summary Sink) :
  P table_handler ->
  (forall data x x', insert_into data x = ret x' -> P x -> P x') ->
  make_requests coro parameters concurrency_limit insert_into table_handler
    kwargs completion = Some (ret s) ->
  P (sink_after s).
Proof.
  intros Hinit Hkeep Hrun. unfold make_requests in Hrun.
  destruct (concurrency_limit <? 0); [discriminate|].
  destruct (_ && _); [discriminate|].
  injection Hrun as Hrun.
  apply bind_ret_inv in Hrun as (st & Hloop & Hrun).
  apply bind_ret_inv in Hrun as (st' & Hlast & Hrun).
  injection Hrun as <-. simpl.
  rewrite while_pending_tasks_handle_all in Hloop.
  assert (Hwrite : forall a b : reducer Sink,
            write_batch insert_into a = ret b -> P (sink a) -> P (sink b)).
  { intros a b Hw Ha.
    apply write_batch_inv in Hw as (data & x' & _ & Hins & ->). simpl. eauto. }
  assert (Hst : P (sink st)).
  { revert Hloop.
    generalize (visited (create_tasks coro kwargs parameters) completion).
    assert (Hgen : forall (ts : list task) (a b : reducer Sink),
              P (sink a) -> handle_all insert_into ts a = ret b -> P (sink b)).
    { induction ts as [|t ts IH]; intros a b Ha Hab; simpl in Hab.
      - injection Hab as <-. exact Ha.
      - apply bind_ret_inv in Hab as (a1 & Hstep & Hab).
        apply (IH a1 b); [|exact Hab].
        destruct t as [e|r]; simpl in Hstep.
        + destruct (as_TooManyRetries e); injection Hstep as <-; exact Ha.
        + destruct (BATCH_SIZE <=? _).
          * apply bind_ret_inv in Hstep as (a2 & Hw & Hstep).
            injection Hstep as <-. simpl. eapply Hwrite; eauto.
          * injection Hstep as <-. exact Ha. }
    intros ts Hloop. eapply Hgen; [|exact Hloop]. exact Hinit. }
  unfold write_remaining in Hlast. destruct (0 <? _).
  - eapply Hwrite; eauto.
  - injection Hlast as <-. exact Hst.
Qed.

(** X12. A handler writes to its own table only: [insert_into] leaves every
    other table of the database as it was, whether it returns or raises,
    and so does a whole call of [make_requests] that writes through the
    handler. *)
Theorem insert_into_frame (affinity : string -> sqlval -> sqlval)
    (self : TableHandler) (other : string) :
  other <> _table_name self ->
  (forall data database,
      (insert_into affinity self data database).1 !! other
        = database !! other)
  /\ (forall coro parameters concurrency_limit database kwargs completion s,
      make_requests coro parameters concurrency_limit
        (insert_into_sink affinity self) database kwargs completion
        = Some (ret s) ->
      sink_after s !! other = database !! other).
Proof.
  intros Hne. split.
  - intros data database. apply insert_into_other_table. exact Hne.
  - intros coro parameters concurrency_limit database kwargs completion s Hrun.
    apply (make_requests_sink_invariant
             (fun d : db => d !! other = database !! other)
             _ _ _ _ _ _ _ _ eq_refl) in Hrun; [exact Hrun|].
    intros data x x' Hins Hx. unfold insert_into_sink in Hins.
    pose proof (insert_into_other_table affinity self data x other Hne) as H.
    destruct (insert_into affinity self data x) as [d' [e|]];
      [discriminate|].
    injection Hins as <-. simpl in H. congruence.
Qed.

Lemma insert_into_frame_witness :
  (forall data database,
      (insert_into stored_as_bound {| _table_name := "pages_urls" |} data
         database).1 !! "categories"
        = database !! "categories")
  /\ (forall coro parameters concurrency_limit database kwargs completion s,
      make_requests coro parameters concurrency_limit
        (insert_into_sink stored_as_bound {| _table_name := "pages_urls" |})
        database kwargs completion = Some (ret s) ->
      sink_after s !! "categories" = database !! "categories").
Proof.
  apply (insert_into_frame stored_as_bound {| _table_name := "pages_urls" |}
           "categories").
  simpl. discriminate.
Defined.

(** ** Primary keys *)

(** Every schema of [DB_SCHEMA] has its PRIMARY KEY among its columns. *)
Lemma DB_SCHEMA_pk (table_name : string) (schema : table_schema) :
  DB_SCHEMA !! table_name = Some schema ->
  (schema_pk schema < length (schema_columns schema))%nat.
Proof.
  intros H. apply elem_of_list_to_map_2 in H.
  repeat (apply elem_of_cons in H as [[= _ ->]|H]; [simpl; lia|]).
  inversion H.
Qed.

Lemma length_bind_values (vs : list pyval) :
  forall bound, bind_values vs = ret bound -> length bound = length vs.
Proof.
  induction vs as [|v vs IH]; intros bound Hb; simpl in Hb.
  - injection Hb as <-. reflexivity.
  - apply bind_ret_inv in Hb as (x & _ & Hb).
    apply bind_ret_inv in Hb as (xs & Hxs & Hb). injection Hb as <-.
    simpl. f_equal. apply IH. exact Hxs.
Qed.

Lemma prepare_length (affinity : string -> sqlval -> sqlval)
    (schema : table_schema) (p : list pyval) (r : row) :
  prepare affinity schema p = ret r ->
  length r = length (schema_columns schema).
Proof.
  unfold prepare. destruct (decide _) as [Hlen|]; [|discriminate].
  intros Hp. apply bind_ret_inv in Hp as (bound & Hb & Hp).
  injection Hp as <-. unfold store. apply length_zip_with_l_eq.
  rewrite (length_bind_values _ _ Hb). symmetry. exact Hlen.
Qed.

Lemma stored_keys_sublist (schema : table_schema) (key : sqlval)
    (rows : list row) :
  filter (fun k => k <> SNull)
    (map (pk_of schema) (filter (fun r' => pk_of schema r' <> key) rows))
  `sublist_of` filter (fun k => k <> SNull) (map (pk_of schema) rows).
Proof.
  induction rows as [|r rows IH]; [constructor|].
  destruct (decide (pk_of schema r <> key)) as [Hk|Hk].
  - rewrite filter_cons_True by exact Hk. cbn [map].
    destruct (decide (pk_of schema r <> SNull)) as [Hn|Hn].
    + rewrite !filter_cons_True by exact Hn. apply sublist_skip. exact IH.
    + rewrite !filter_cons_False by exact Hn. exact IH.
  - rewrite filter_cons_False by exact Hk. cbn [map].
    destruct (decide (pk_of schema r <> SNull)) as [Hn|Hn].
    + rewrite filter_cons_True by exact Hn. apply sublist_cons. exact IH.
    + rewrite filter_cons_False by exact Hn. exact IH.
Qed.

Lemma insert_or_replace_keys_unique (schema : table_schema) (r : row)
    (t t' : table) :
  (schema_pk schema < length r)%nat ->
  keys_unique schema t ->
  insert_or_replace schema r t = ret t' ->
  keys_unique schema t'.
Proof.
  intros Hlen Ht Hins. destruct t as [rows|rows]; unfold insert_or_replace in Hins.
  - destruct (pk_of schema r) as [|z|s] eqn:Hk; [| |discriminate];
      injection Hins as <-; intros z' r' Hlook;
      apply lookup_insert_Some in Hlook as [[<- <-]|[_ Hlook]];
      try (apply Ht; exact Hlook).
    + unfold pk_of, row. rewrite list_lookup_insert_eq by exact Hlen.
      reflexivity.
    + exact Hk.
  - assert (Hnew : forall key, key <> SNull -> pk_of schema r = key ->
              keys_unique schema
                (IndexTable
                   (filter (fun r' => pk_of schema r' <> key) rows ++ [r]))).
    { intros key Hnn Hk. unfold keys_unique.
      rewrite map_app, filter_app. cbn [map].
      rewrite filter_cons_True by congruence.
      rewrite filter_nil. apply NoDup_app. split; [|split].
      - eapply sublist_NoDup; [exact Ht|]. apply stored_keys_sublist.
      - intros x Hx Hin. apply list_elem_of_singleton in Hin. subst x.
        apply list_elem_of_filter in Hx as [_ Hx].
        apply list_elem_of_fmap in Hx as (r' & Hr' & Hin).
        apply list_elem_of_filter in Hin as [Hin _]. congruence.
      - apply NoDup_singleton. }
    destruct (pk_of schema r) as [|z|s] eqn:Hk; injection Hins as <-.
    + unfold keys_unique. rewrite map_app, filter_app. cbn [map].
      rewrite Hk. rewrite filter_cons_False by congruence.
      rewrite filter_nil, app_nil_r. exact Ht.
    + apply Hnew; [discriminate|reflexivity].
    + apply Hnew; [discriminate|reflexivity].
Qed.

Lemma insert_rows_keys_unique (schema : table_schema) (rows : list row) :
  Forall (fun r => (schema_pk schema < length r)%nat) rows ->
  forall t t' : table,
    keys_unique schema t ->
    insert_rows schema rows t = ret t' ->
    keys_unique schema t'.
Proof.
  induction 1 as [|r rows Hr _ IH]; intros t t' Ht Hins; simpl in Hins.
  - injection Hins as <-. exact Ht.
  - apply bind_ret_inv in Hins as (t1 & Hstep & Hins).
    eapply IH; [|exact Hins].
    eapply insert_or_replace_keys_unique; eauto.
Qed.

(** X13. The primary key stays unique. A table that [create_table] has just
    made holds no two rows under one key, and [insert_into] keeps it so
    whatever the records are and whether it returns or raises: after the
    call the handler's table is still there and no two of its rows share a
    primary key that is not NULL. *)
Theorem primary_keys_stay_unique (affinity : string -> sqlval -> sqlval)
    (self : TableHandler) (schema : table_schema) (data : list pyval)
    (database : db) (t : table) :
  DB_SCHEMA !! _table_name self = Some schema ->
  database !! _table_name self = Some t ->
  keys_unique schema t ->
  keys_unique schema (empty_table schema)
  /\ exists t',
       (insert_into affinity self data database).1 !! _table_name self
         = Some t'
       /\ keys_unique schema t'.
Proof.
  intros Hschema Ht Hkeys. split.
  { unfold empty_table. destruct (schema_rowid_pk schema); simpl.
    - intros z r Hz. rewrite lookup_empty in Hz. discriminate.
    - constructor. }
  rewrite insert_into_unfold, Hschema.
  destruct (all_dict_values data) as [e|tuples]; [eauto|].
  destruct (execute_all affinity (_table_name self) schema tuples database)
    as [e|w] eqn:Hrun; [eauto|].
  destruct (execute_all_table affinity schema _ _ _ _ t Ht Hrun)
    as (rows & t' & Hrows & Hins & ->).
  exists t'. split; [apply lookup_insert_eq|].
  eapply insert_rows_keys_unique; [|exact Hkeys|exact Hins].
  clear Hins Hrun. induction Hrows as [|p r tuples rows Hp _ IH];
    constructor; [|exact IH].
  cbv beta in Hp. rewrite (prepare_length _ _ _ _ Hp).
  eapply DB_SCHEMA_pk. exact Hschema.
Qed.

Lemma primary_keys_stay_unique_witness :
  keys_unique PAGES_URLS_TABLE (empty_table PAGES_URLS_TABLE)
  /\ exists t',
       (insert_into stored_as_bound {| _table_name := "pages_urls" |}
          [PDict sample_page; PDict sample_page]
          (fresh_db "pages_urls")).1 !! "pages_urls" = Some t'
       /\ keys_unique PAGES_URLS_TABLE t'.
Proof.
  apply (primary_keys_stay_unique stored_as_bound
           {| _table_name := "pages_urls" |} PAGES_URLS_TABLE
           [PDict sample_page; PDict sample_page] (fresh_db "pages_urls")
           (IndexTable [])).
  - reflexivity.
  - reflexivity.
  - simpl. constructor.
Defined.

(** ** Writing and reading back *)

Lemma bind_reads_back (decltype : string) (v : pyval) :
  reads_back decltype v = true ->
  exists x, bind_value v = ret x /\ fits decltype x = true
            /\ pyval_of_sql x = v /\ x <> SNull.
Proof.
  destruct v as [|z|s|l|d]; simpl; try discriminate.
  - intros H. apply andb_prop in H as [H Hhi]. apply andb_prop in H as [H Hlo].
    exists (SInt z). rewrite Hlo, Hhi. simpl. auto.
  - intros H. exists (SText s). auto.
Qed.

Lemma all_dict_values_records (records : list WorkItem) :
  all_dict_values (map PDict records) = ret (map (map snd) records).
Proof.
  induction records as [|c records IH]; [reflexivity|].
  simpl. rewrite IH. reflexivity.
Qed.

Section ReadBack.

Variable affinity : string -> sqlval -> sqlval.
Hypothesis affinity_fits :
  forall decltype x, fits decltype x = true -> affinity decltype x = x.
Variable schema : table_schema.
Hypothesis schema_has_pk :
  (schema_pk schema < length (schema_columns schema))%nat.

Lemma bind_record (columns : list (string * string)) (c : WorkItem) :
  Forall2 (fun col kv => reads_back col.2 kv.2 = true) columns c ->
  exists bound,
    bind_values (map snd c) = ret bound
    /\ zip_with (fun col x => affinity col.2 x) columns bound = bound
    /\ map pyval_of_sql bound = map snd c
    /\ Forall (fun x => x <> SNull) bound.
Proof.
  induction 1 as [|col kv columns c Hkv _ (bound & Hb & Hz & Hm & Hn)].
  - exists []. repeat split; constructor.
  - destruct (bind_reads_back _ _ Hkv) as (x & Hx & Hfit & Hback & Hnull).
    exists (x :: bound). split; [|split; [|split]].
    + cbn [map bind_values]. rewrite Hx, Hb. reflexivity.
    + cbn [zip_with]. rewrite Hz, (affinity_fits _ _ Hfit). reflexivity.
    + cbn [map]. rewrite Hm, Hback. reflexivity.
    + constructor; assumption.
Qed.

(** A record made for the table is stored as a row that reads back as the
    record, under a key that is not NULL. *)
Lemma prepare_record (c : WorkItem) :
  record_for schema c ->
  exists r,
    prepare affinity schema (map snd c) = ret r
    /\ zip (map fst (schema_columns schema)) (map pyval_of_sql r) = c
    /\ pyval_of_sql (pk_of schema r) = record_key schema c
    /\ pk_of schema r <> SNull.
Proof.
  intros [Hkeys Hvalues].
  destruct (bind_record _ _ Hvalues) as (bound & Hb & Hz & Hm & Hn).
  exists bound. split; [|split; [|split]].
  - unfold prepare. rewrite length_map, <- (Forall2_length _ _ _ Hvalues).
    destruct (decide _) as [_|Hne]; [|contradiction].
    rewrite Hb. simpl. unfold store. rewrite Hz. reflexivity.
  - rewrite Hm. unfold dict_keys, column_names in Hkeys. rewrite <- Hkeys.
    apply zip_fst_snd.
  - unfold pk_of, record_key, row in *. rewrite <- Hm, list_lookup_fmap.
    destruct (bound !! schema_pk schema); reflexivity.
  - unfold pk_of, row in *.
    destruct (bound !! schema_pk schema) as [x|] eqn:Hx.
    + simpl. eapply Forall_forall in Hn; [exact Hn|].
      eapply list_elem_of_lookup_2. exact Hx.
    + apply lookup_ge_None in Hx.
      rewrite (length_bind_values _ _ Hb), length_map,
        <- (Forall2_length _ _ _ Hvalues) in Hx. lia.
Qed.

(** Records under keys the table does not hold are appended to it. *)
Lemma insert_records_append (records : list WorkItem) :
  Forall (record_for schema) records ->
  forall rows0 : list row,
    NoDup (map (record_key schema) records) ->
    (forall c r, c ∈ records -> r ∈ rows0 ->
                 pyval_of_sql (pk_of schema r) <> record_key schema c) ->
    exists rows,
      Forall2 (fun p r => prepare affinity schema p = ret r)
        (map (map snd) records) rows
      /\ insert_rows schema rows (IndexTable rows0)
           = ret (IndexTable (rows0 ++ rows))
      /\ map (fun r => zip (map fst (schema_columns schema))
                           (map pyval_of_sql r)) rows = records.
Proof.
  induction 1 as [|c records Hc _ IH]; intros rows0 Hnodup Hfresh.
  - exists []. split; [constructor|]. rewrite app_nil_r. split; reflexivity.
  - destruct (prepare_record c Hc) as (r & Hr & Hback & Hkey & Hnull).
    cbn [map] in Hnodup. apply NoDup_cons in Hnodup as [Hnew Hnodup].
    destruct (IH (rows0 ++ [r]) Hnodup) as (rows & Hrows & Hins & Hread).
    { intros c' r' Hc' Hr'. apply elem_of_app in Hr' as [Hr'|Hr'].
      - apply Hfresh; [right|]; assumption.
      - apply list_elem_of_singleton in Hr' as ->. rewrite Hkey.
        intros Heq. apply Hnew. rewrite Heq.
        apply list_elem_of_fmap. eauto. }
    exists (r :: rows). split; [|split].
    + cbn [map]. constructor; assumption.
    + cbn [insert_rows]. rewrite insert_or_replace_index by exact Hnull.
      rewrite filter_all.
      * simpl. rewrite Hins, <- app_assoc. reflexivity.
      * apply Forall_forall. intros r' Hr' Heq.
        apply (Hfresh c r'); [left|exact Hr'|].
        rewrite Heq. exact Hkey.
    + cbn [map]. rewrite Hback, Hread. reflexivity.
Qed.

End ReadBack.

(** What [insert_into] appends to a table without a rowid key, and what
    [to_records] then reads. *)
Lemma insert_into_appends (affinity : string -> sqlval -> sqlval)
    (self : TableHandler) (schema : table_schema) (records : list WorkItem)
    (database : db) (rows0 : list row) :
  (forall decltype x, fits decltype x = true -> affinity decltype x = x) ->
  DB_SCHEMA !! _table_name self = Some schema ->
  database !! _table_name self = Some (IndexTable rows0) ->
  Forall (record_for schema) records ->
  NoDup (map (record_key schema) records) ->
  (forall c r, c ∈ records -> r ∈ rows0 ->
               pyval_of_sql (pk_of schema r) <> record_key schema c) ->
  exists old database',
    to_records self database = ret old
    /\ insert_into affinity self (map PDict records) database
         = (database', None)
    /\ to_records self database' = ret (old ++ records).
Proof.
  intros Haff Hschema Ht Hrecords Hnodup Hfresh.
  destruct (insert_records_append affinity Haff schema
              (DB_SCHEMA_pk _ _ Hschema) records Hrecords rows0 Hnodup Hfresh)
    as (rows & Hrows & Hins & Hread).
  eexists _, _. split; [|split].
  - unfold to_records. rewrite Hschema, Ht. reflexivity.
  - rewrite insert_into_unfold, Hschema, all_dict_values_records.
    unfold ret. cbv beta iota.
    rewrite (execute_all_rows affinity schema _ _ _ Hrows _ _ _ Ht Hins).
    reflexivity.
  - unfold to_records. rewrite Hschema, lookup_insert_eq.
    cbn [select_all]. rewrite map_app. do 2 f_equal. exact Hread.
Qed.

(** X14. What is written is what is read. Records made for a table without
    a rowid key (each value an [int] under INTEGER or a [str] under TEXT,
    in the order of the columns), under primary keys that are distinct and
    not yet in the table, are all accepted by [insert_into], and
    [to_pandas().to_dict("records")] then gives the records that were there
    followed by the new ones, unchanged and in the order they were
    written. *)
Theorem insert_then_read_back (affinity : string -> sqlval -> sqlval)
    (self : TableHandler) (schema : table_schema) (records : list WorkItem)
    (database : db) (rows0 : list row) :
  (forall decltype x, fits decltype x = true -> affinity decltype x = x) ->
  DB_SCHEMA !! _table_name self = Some schema ->
  database !! _table_name self = Some (IndexTable rows0) ->
  Forall (record_for schema) records ->
  NoDup (map (record_key schema) records) ->
  (forall c r, c ∈ records -> r ∈ rows0 ->
               pyval_of_sql (pk_of schema r) <> record_key schema c) ->
  exists old database',
    to_records self database = ret old
    /\ insert_into affinity self (map PDict records) database
         = (database', None)
    /\ to_records self database' = ret (old ++ records).
Proof.
  intros Haff Hschema Ht Hrecords Hnodup Hfresh.
  destruct (insert_records_append affinity Haff schema
              (DB_SCHEMA_pk _ _ Hschema) records Hrecords rows0 Hnodup Hfresh)
    as (rows & Hrows & Hins & Hread).
  exists (map (fun r => zip (map fst (schema_columns schema))
                            (map pyval_of_sql r)) rows0),
         (<[_table_name self := IndexTable (rows0 ++ rows)]> database).
  split; [|split].
  - unfold to_records. rewrite Hschema, Ht. reflexivity.
  - rewrite insert_into_unfold, Hschema, all_dict_values_records.
    unfold ret. cbv beta iota.
    rewrite (execute_all_rows affinity schema _ _ _ Hrows _ _ _ Ht Hins).
    reflexivity.
  - unfold to_records. rewrite Hschema, lookup_insert_eq.
    cbn [select_all]. rewrite map_app. do 2 f_equal. exact Hread.
Qed.

Lemma insert_then_read_back_witness :
  exists old database',
    to_records {| _table_name := "pages_urls" |} (fresh_db "pages_urls")
      = ret old
    /\ insert_into stored_as_bound {| _table_name := "pages_urls" |}
         (map PDict [sample_page]) (fresh_db "pages_urls")
         = (database', None)
    /\ to_records {| _table_name := "pages_urls" |} database'
         = ret (old ++ [sample_page]).
Proof.
  apply (insert_then_read_back stored_as_bound
           {| _table_name := "pages_urls" |} PAGES_URLS_TABLE [sample_page]
           (fresh_db "pages_urls") []).
  - reflexivity.
  - reflexivity.
  - reflexivity.
  - constructor; [|constructor]. split; [reflexivity|].
    repeat constructor.
  - simpl. apply NoDup_singleton.
  - intros c r _ Hr. inversion Hr.
Defined.

(** ** What [insert_into] refuses *)

Lemma all_dict_values_not_dict (data : list pyval) (c : pyval) :
  c ∈ data -> (forall fields, c <> PDict fields) ->
  exists msg, all_dict_values data = raise (AttributeError msg).
Proof.
  intros Hin Hc. induction Hin as [c data|c c' data Hin IH].
  - destruct c; try (eexists; reflexivity). exfalso. eapply Hc. reflexivity.
  - destruct (IH Hc) as [msg Hmsg]. cbn [all_dict_values]. rewrite Hmsg.
    destruct c'; try (eexists; reflexivity).
Qed.

Lemma all_dict_values_dicts (data : list pyval) :
  (forall c, c ∈ data -> exists fields, c = PDict fields) ->
  exists tuples, all_dict_values data = ret tuples.
Proof.
  induction data as [|c data IH]; intros Hall; [eexists; reflexivity|].
  destruct (Hall c) as [fields ->]; [left|].
  destruct IH as [tuples Htuples].
  { intros c' Hc'. apply Hall. right. exact Hc'. }
  cbn [all_dict_values]. rewrite Htuples. eexists. reflexivity.
Qed.

Lemma bind_values_unbindable (vs : list pyval) (v : pyval) (e : exn) :
  v ∈ vs -> bind_value v = raise e -> exists e', bind_values vs = raise e'.
Proof.
  intros Hin Hv. induction Hin as [v vs|v v' vs Hin IH]; cbn [bind_values].
  - rewrite Hv. eexists. reflexivity.
  - destruct (bind_value v') as [e1|x]; [eexists; reflexivity|].
    destruct (IH Hv) as [e' ->]. eexists. reflexivity.
Qed.

Lemma execute_all_unbindable (affinity : string -> sqlval -> sqlval)
    (table_name : string) (schema : table_schema)
    (tuples : list (list pyval)) (p : list pyval) (v : pyval) (e : exn) :
  p ∈ tuples -> v ∈ p -> bind_value v = raise e ->
  forall database,
    exists e', execute_all affinity table_name schema tuples database
               = raise e'.
Proof.
  intros Hin Hv He. induction Hin as [p tuples|p q tuples Hin IH];
    intros database; cbn [execute_all].
  - unfold execute_insert. destruct (decide _); [|eexists; reflexivity].
    destruct (bind_values_unbindable _ _ _ Hv He) as [e' ->].
    eexists. reflexivity.
  - destruct (execute_insert affinity table_name schema q database) as [e1|d];
      [eexists; reflexivity|].
    apply IH. exact Hv.
Qed.



(** ** The extractors *)

Lemma comprehension_map {A B} (f : A -> result B) (g : A -> B) (l : list A) :
  (forall a, a ∈ l -> f a = ret (g a)) ->
  comprehension f l = ret (map g l).
Proof.
  induction l as [|a l IH]; intros Hf; [reflexivity|].
  cbn [comprehension map]. rewrite (Hf a) by left.
  rewrite IH by (intros b Hb; apply Hf; right; exact Hb). reflexivity.
Qed.

Lemma comprehension_raises {A B} (f : A -> result B) (e : exn) (a : A)
    (l : list A) :
  f a = raise e -> comprehension f (a :: l) = raise e.
Proof. intros Hf. cbn [comprehension]. rewrite Hf. reflexivity. Qed.

Lemma dict_get_missing (k : string) (d : list (string * pyval)) :
  k ∉ dict_keys d -> dict_get k d = raise (KeyError k).
Proof.
  induction d as [|[k' v] d IH]; intros Hk; [reflexivity|].
  cbn [dict_get]. apply not_elem_of_cons in Hk as [Hne Hk].
  destruct (decide (k = k')) as [->|_]; [contradiction|]. apply IH. exact Hk.
Qed.

Lemma page_numbers_NoDup (total_pages : Z) : NoDup (page_numbers total_pages).
Proof.
  unfold page_numbers. apply (NoDup_fmap_2 Z.of_nat). apply NoDup_seq.
Qed.

Lemma page_numbers_lookup (total_pages : Z) (i : nat) :
  (i < Z.to_nat total_pages)%nat ->
  page_numbers total_pages !! i = Some (Z.of_nat (S i)).
Proof.
  intros Hi. unfold page_numbers. rewrite list_lookup_fmap.
  rewrite lookup_seq_lt by exact Hi. reflexivity.
Qed.

(** The record of page [p]. *)
Lemma paginate_records (total_pages : Z) (category_dict : WorkItem)
    (id : pyval) (base : string) :
  dict_get "id" category_dict = ret id ->
  dict_get "base_url" category_dict = ret (PStr base) ->
  _paginate total_pages category_dict =
    ret (map (fun p => [("id", id);
                        ("page_url",
                         PStr ((base +:+ "&page=") +:+ str_of_int p))])
           (page_numbers total_pages)).
Proof.
  intros Hid Hbase. unfold _paginate. apply comprehension_map.
  intros p _. rewrite Hid, Hbase. reflexivity.
Qed.

(** What [compile_page_urls] returns for a category that has an id and a
    base URL that is a [str]. *)
Lemma compile_page_urls_records (fetch_total_pages : pyval -> result Z)
    (category_dict : WorkItem) (id : pyval) (base : string)
    (total_pages : Z) :
  dict_get "id" category_dict = ret id ->
  dict_get "base_url" category_dict = ret (PStr base) ->
  fetch_total_pages (PStr base) = ret total_pages ->
  compile_page_urls fetch_total_pages category_dict =
    ret (map (fun p => [("id", id);
                        ("page_url",
                         PStr ((base +:+ "&page=") +:+ str_of_int p))])
           (page_numbers total_pages)).
Proof.
  intros Hid Hbase Hfetch.
  unfold compile_page_urls. rewrite Hbase. simpl. rewrite Hfetch. simpl.
  apply (paginate_records _ _ _ _ Hid Hbase).
Qed.

Lemma page_records_keys (id : pyval) (base : string) (total_pages : Z) :
  NoDup (map (record_key PAGES_URLS_TABLE)
           (map (fun p => [("id", id);
                           ("page_url",
                            PStr ((base +:+ "&page=") +:+ str_of_int p))])
              (page_numbers total_pages))).
Proof.
  rewrite <- list_fmap_compose.
  apply NoDup_fmap_2; [|apply page_numbers_NoDup].
  intros p q Hpq. unfold compose, record_key in Hpq. simpl in Hpq.
  injection Hpq as Hpq. apply String.app_inj in Hpq.
  unfold str_of_int in Hpq. apply (inj pretty) in Hpq. exact Hpq.
Qed.

Lemma page_records_for (id : pyval) (base : string) (total_pages : Z) :
  reads_back "INTEGER" id = true ->
  Forall (record_for PAGES_URLS_TABLE)
    (map (fun p => [("id", id);
                    ("page_url",
                     PStr ((base +:+ "&page=") +:+ str_of_int p))])
       (page_numbers total_pages)).
Proof.
  intros Hint. apply Forall_forall. intros c Hc.
  apply list_elem_of_fmap in Hc as (p & -> & _).
  split; [reflexivity|]. repeat constructor. exact Hint.
Qed.

(** X16. The pages of a category. For a category with an id and a base URL
    that is a [str], on which the site reports [total_pages] pages,
    [compile_page_urls] returns exactly [total_pages] records (none when
    [total_pages] is not positive): the record at position [i] carries the
    category's id and the URL [base_url + "&page=" + str(i + 1)]. The page
    URLs, which are the primary keys of [pages_urls], are pairwise
    distinct, and when the id is an [int] of 64 bits every record is made
    for the [pages_urls] table: its keys are the table's columns, in
    order. *)
Theorem compile_page_urls_pages (fetch_total_pages : pyval -> result Z)
    (category_dict : WorkItem) (id : pyval) (base : string)
    (total_pages : Z) :
  dict_get "id" category_dict = ret id ->
  dict_get "base_url" category_dict = ret (PStr base) ->
  fetch_total_pages (PStr base) = ret total_pages ->
  exists records,
    compile_page_urls fetch_total_pages category_dict = ret records
    /\ length records = Z.to_nat total_pages
    /\ (forall i, (i < Z.to_nat total_pages)%nat ->
          records !! i =
            Some [("id", id);
                  ("page_url",
                   PStr ((base +:+ "&page=")
                         +:+ str_of_int (Z.of_nat i + 1)))])
    /\ NoDup (map (record_key PAGES_URLS_TABLE) records)
    /\ (reads_back "INTEGER" id = true ->
        Forall (record_for PAGES_URLS_TABLE) records).
Proof.
  intros Hid Hbase Hfetch. eexists. split; [|split; [|split; [|split]]].
  - apply (compile_page_urls_records _ _ _ _ _ Hid Hbase Hfetch).
  - rewrite length_map. unfold page_numbers.
    rewrite length_map, length_seq. reflexivity.
  - intros i Hi. rewrite list_lookup_fmap, (page_numbers_lookup _ _ Hi).
    cbn [option_map fmap option_fmap]. do 7 f_equal. lia.
  - apply page_records_keys.
  - apply page_records_for.
Qed.

Lemma compile_page_urls_pages_witness :
  exists records,
    compile_page_urls (fun _ => ret 2) sample_category = ret records
    /\ length records = Z.to_nat 2
    /\ (forall i, (i < Z.to_nat 2)%nat ->
          records !! i =
            Some [("id", PInt 4172);
                  ("page_url",
                   PStr (("https://www.example.com/women/shoes/cat/?cid=4172"
                          +:+ "&page=") +:+ str_of_int (Z.of_nat i + 1)))])
    /\ NoDup (map (record_key PAGES_URLS_TABLE) records)
    /\ (reads_back "INTEGER" (PInt 4172) = true ->
        Forall (record_for PAGES_URLS_TABLE) records).
Proof.
  apply (compile_page_urls_pages (fun _ => ret 2) sample_category);
    reflexivity.
Defined.

(** X17. How [compile_page_urls] fails. Without a ["base_url"] it raises
    [KeyError] whatever the site would answer; an error of the request or
    of [extract_total_pages] is raised as it is; a base URL that is not a
    [str] raises [TypeError] once there is a page to build. A category
    without an ["id"] raises [KeyError] only when the site reports at least
    one page: with no page the function returns the empty list, which
    [make_requests] takes for a success. *)
Theorem compile_page_urls_errors (fetch_total_pages : pyval -> result Z)
    (category_dict : WorkItem) :
  ("base_url" ∉ dict_keys category_dict ->
   compile_page_urls fetch_total_pages category_dict
     = raise (KeyError "base_url"))
  /\ (forall url e,
        dict_get "base_url" category_dict = ret url ->
        fetch_total_pages url = raise e ->
        compile_page_urls fetch_total_pages category_dict = raise e)
  /\ (forall url total_pages,
        dict_get "base_url" category_dict = ret url ->
        fetch_total_pages url = ret total_pages ->
        total_pages <= 0 ->
        compile_page_urls fetch_total_pages category_dict = ret [])
  /\ (forall url total_pages,
        dict_get "base_url" category_dict = ret url ->
        fetch_total_pages url = ret total_pages ->
        1 <= total_pages ->
        "id" ∉ dict_keys category_dict ->
        compile_page_urls fetch_total_pages category_dict
          = raise (KeyError "id"))
  /\ (forall url total_pages id,
        dict_get "base_url" category_dict = ret url ->
        fetch_total_pages url = ret total_pages ->
        1 <= total_pages ->
        dict_get "id" category_dict = ret id ->
        (forall s, url <> PStr s) ->
        exists msg,
          compile_page_urls fetch_total_pages category_dict
            = raise (TypeError msg)).
Proof.
  assert (Hpages : forall total_pages, 1 <= total_pages ->
            exists l, page_numbers total_pages = 1 :: l).
  { intros n Hn. unfold page_numbers.
    destruct (Z.to_nat n) as [|k] eqn:Hk; [lia|]. simpl. eauto. }
  unfold compile_page_urls. split; [|split; [|split; [|split]]].
  - intros Hkey. rewrite (dict_get_missing _ _ Hkey). reflexivity.
  - intros url e -> Hfetch. simpl. rewrite Hfetch. reflexivity.
  - intros url n -> Hfetch Hn. simpl. rewrite Hfetch. simpl.
    unfold _paginate, page_numbers.
    replace (Z.to_nat n) with 0%nat by lia. reflexivity.
  - intros url n Hurl Hfetch Hn Hid. rewrite Hurl. simpl.
    rewrite Hfetch. simpl.
    destruct (Hpages n Hn) as [l Hl]. unfold _paginate. rewrite Hl.
    apply comprehension_raises. rewrite (dict_get_missing _ _ Hid).
    reflexivity.
  - intros url n id Hurl Hfetch Hn Hid Hstr. rewrite Hurl. simpl.
    rewrite Hfetch. simpl.
    destruct (Hpages n Hn) as [l Hl]. unfold _paginate. rewrite Hl.
    destruct url as [|z|s|vs|d];
      try (eexists; apply comprehension_raises; rewrite Hid, Hurl;
           reflexivity).
    exfalso. eapply Hstr. reflexivity.
Qed.

Lemma compile_page_urls_errors_witness :
  compile_page_urls (fun _ => ret 0) [("base_url", PStr "https://a/?cid=1")]
    = ret []
  /\ compile_page_urls (fun _ => ret 1) [("base_url", PStr "https://a/?cid=1")]
       = raise (KeyError "id").
Proof.
  pose proof (compile_page_urls_errors (fun _ => ret 0)
                [("base_url", PStr "https://a/?cid=1")])
    as (_ & _ & Hnone & _).
  pose proof (compile_page_urls_errors (fun _ => ret 1)
                [("base_url", PStr "https://a/?cid=1")])
    as (_ & _ & _ & Hone & _).
  split.
  - apply (Hnone (PStr "https://a/?cid=1") 0); [reflexivity|reflexivity|lia].
  - apply (Hone (PStr "https://a/?cid=1") 1); [reflexivity|reflexivity|lia|].
    intros Hin. apply list_elem_of_singleton in Hin. discriminate.
Defined.

(** X18. The articles of a page. For a page record with an id and a page
    URL, whatever the site answers, [compile_article_urls] never returns an
    empty list: a page with article URLs gives one record per URL, in
    order, and a page with none (an empty list, or [None]) gives one
    placeholder record whose [article_url] is [None]. Every record carries
    the page's id and URL, and its keys are the columns of
    [articles_urls], in order. *)
Theorem compile_article_urls_never_empty
    (fetch_article_urls : pyval -> result (option (list pyval)))
    (page_dict : WorkItem) (id url : pyval)
    (article_urls : option (list pyval)) :
  dict_get "id" page_dict = ret id ->
  dict_get "page_url" page_dict = ret url ->
  fetch_article_urls url = ret article_urls ->
  exists records,
    compile_article_urls fetch_article_urls page_dict = ret records
    /\ records <> []
    /\ map (record_key ARTICLES_URLS_TABLE) records =
         match article_urls with
         | Some (u :: urls) => u :: urls
         | _ => [PNone]
         end
    /\ Forall (fun c => dict_keys c = column_names ARTICLES_URLS_TABLE
                        /\ dict_get "id" c = ret id
                        /\ dict_get "page_url" c = ret url) records.
Proof.
  intros Hid Hurl Hfetch. unfold compile_article_urls.
  rewrite Hurl. simpl. rewrite Hfetch. simpl.
  destruct article_urls as [[|u urls]|].
  - rewrite Hid. simpl. eexists. split; [reflexivity|].
    split; [discriminate|]. split; [reflexivity|].
    repeat constructor.
  - rewrite (comprehension_map _
               (fun u => [("id", id); ("page_url", url); ("article_url", u)]))
      by (intros a _; rewrite Hid; reflexivity).
    eexists. split; [reflexivity|]. split; [discriminate|]. split.
    + rewrite <- list_fmap_compose. apply list_fmap_id.
    + apply Forall_forall. intros c Hc.
      apply list_elem_of_fmap in Hc as (a & -> & _). repeat split.
  - rewrite Hid. simpl. eexists. split; [reflexivity|].
    split; [discriminate|]. split; [reflexivity|].
    repeat constructor.
Qed.

Lemma compile_article_urls_never_empty_witness :
  exists records,
    compile_article_urls (fun _ => ret (Some [])) sample_page = ret records
    /\ records <> []
    /\ map (record_key ARTICLES_URLS_TABLE) records = [PNone]
    /\ Forall
         (fun c =>
            dict_keys c = column_names ARTICLES_URLS_TABLE
            /\ dict_get "id" c = ret (PInt 4172)
            /\ dict_get "page_url" c =
                 ret (PStr "https://www.example.com/women/shoes/cat/?cid=4172&page=1"))
         records.
Proof.
  apply (compile_article_urls_never_empty (fun _ => ret (Some []))
           sample_page (PInt 4172)
           (PStr "https://www.example.com/women/shoes/cat/?cid=4172&page=1")
           (Some []));
    reflexivity.
Defined.

Lemma dict_set_fresh (k : string) (v : pyval) (d : list (string * pyval)) :
  k ∉ dict_keys d -> dict_set k v d = d ++ [(k, v)].
Proof.
  induction d as [|[k' v'] d IH]; intros Hk; [reflexivity|].
  cbn [dict_set]. apply not_elem_of_cons in Hk as [Hne Hk].
  destruct (decide (k = k')) as [->|_]; [contradiction|].
  rewrite IH by exact Hk. reflexivity.
Qed.

Lemma dict_keys_app (d1 d2 : list (string * pyval)) :
  dict_keys (d1 ++ d2) = dict_keys d1 ++ dict_keys d2.
Proof. apply map_app. Qed.

(** The five assignments on a dict that has none of the five keys. *)
Lemma article_fields_appended (article_dict : WorkItem)
    (description colour tags materials img_urls : pyval) :
  Forall (fun k => k ∉ dict_keys article_dict)
    ["description"; "colour"; "tags"; "materials"; "img_urls"] ->
  dict_set "img_urls" img_urls
    (dict_set "materials" materials
       (dict_set "tags" tags
          (dict_set "colour" colour
             (dict_set "description" description article_dict))))
  = article_dict ++ [("description", description); ("colour", colour);
                     ("tags", tags); ("materials", materials);
                     ("img_urls", img_urls)].
Proof.
  intros Hnew.
  apply Forall_cons in Hnew as [H1 Hnew]. apply Forall_cons in Hnew as [H2 Hnew].
  apply Forall_cons in Hnew as [H3 Hnew]. apply Forall_cons in Hnew as [H4 Hnew].
  apply Forall_cons in Hnew as [H5 _].
  assert (Hfresh : forall k (l : list (string * pyval)),
            k ∉ dict_keys article_dict -> k ∉ dict_keys l ->
            k ∉ dict_keys (article_dict ++ l)).
  { intros k l Ha Hl. rewrite dict_keys_app. intros Hin.
    apply elem_of_app in Hin as [Hin|Hin]; contradiction. }
  rewrite (dict_set_fresh "description") by exact H1.
  rewrite (dict_set_fresh "colour")
    by (apply Hfresh; [exact H2|apply (bool_decide_unpack _); reflexivity]).
  rewrite <- app_assoc.
  rewrite (dict_set_fresh "tags")
    by (apply Hfresh; [exact H3|apply (bool_decide_unpack _); reflexivity]).
  rewrite <- app_assoc.
  rewrite (dict_set_fresh "materials")
    by (apply Hfresh; [exact H4|apply (bool_decide_unpack _); reflexivity]).
  rewrite <- app_assoc.
  rewrite (dict_set_fresh "img_urls")
    by (apply Hfresh; [exact H5|apply (bool_decide_unpack _); reflexivity]).
  rewrite <- app_assoc. reflexivity.
Qed.

(** X19. The record of an article. From a record that has an
    ["article_url"] and none of the five data fields,
    [compile_article_data] returns one record: the fields of the input
    without ["page_url"], in their order, followed by [description],
    [colour] and the JSON texts of [tags], [materials] and [img_urls]. When
    the input has no ["page_url"] it raises [KeyError], after the request
    has been made. On a record read from [articles_urls] the result has as
    many values as [articles_data] has columns, with the id and the article
    URL in the first two, although its last key is ["img_urls"] where the
    column is [images_urls]. *)
Theorem compile_article_data_record (json_dumps : pyval -> string)
    (fetch_article_data : pyval -> result article_data)
    (article_dict : WorkItem) (url : pyval) (data : article_data) :
  dict_get "article_url" article_dict = ret url ->
  fetch_article_data url = ret data ->
  Forall (fun k => k ∉ dict_keys article_dict)
    ["description"; "colour"; "tags"; "materials"; "img_urls"] ->
  let fields :=
    [("description", ad_description data); ("colour", ad_colour data);
     ("tags", PStr (json_dumps (ad_tags data)));
     ("materials", PStr (json_dumps (ad_materials data)));
     ("img_urls", PStr (json_dumps (ad_img_urls data)))] in
  ("page_url" ∈ dict_keys article_dict ->
   compile_article_data json_dumps fetch_article_data article_dict
     = ret [filter (fun kv => kv.1 <> "page_url") article_dict ++ fields])
  /\ ("page_url" ∉ dict_keys article_dict ->
      compile_article_data json_dumps fetch_article_data article_dict
        = raise (KeyError "page_url"))
  /\ (dict_keys article_dict = column_names ARTICLES_URLS_TABLE ->
      exists id page_url,
        article_dict
          = [("id", id); ("page_url", page_url); ("article_url", url)]
        /\ compile_article_data json_dumps fetch_article_data article_dict
             = ret [[("id", id); ("article_url", url)] ++ fields]
        /\ length ([("id", id); ("article_url", url)] ++ fields)
             = length (schema_columns ARTICLES_DATA_TABLE)
        /\ dict_keys ([("id", id); ("article_url", url)] ++ fields)
             <> column_names ARTICLES_DATA_TABLE).
Proof.
  intros Hurl Hfetch Hnew fields.
  assert (Hrun : compile_article_data json_dumps fetch_article_data
                   article_dict
                 = let* record := dict_pop "page_url" (article_dict ++ fields) in
                   ret [record]).
  { unfold compile_article_data, article_record.
    rewrite Hurl. simpl. rewrite Hfetch. simpl.
    rewrite article_fields_appended by exact Hnew. reflexivity. }
  assert (Hpop : "page_url" ∈ dict_keys article_dict ->
            dict_pop "page_url" (article_dict ++ fields)
            = ret (filter (fun kv => kv.1 <> "page_url") article_dict
                   ++ fields)).
  { intros Hin. unfold dict_pop. destruct (decide _) as [_|Hno].
    - rewrite filter_app. reflexivity.
    - exfalso. apply Hno. rewrite map_app. apply elem_of_app. left. exact Hin. }
  split; [|split].
  - intros Hin. rewrite Hrun, (Hpop Hin). reflexivity.
  - intros Hno. rewrite Hrun. unfold dict_pop.
    destruct (decide _) as [Hin|_]; [|reflexivity].
    exfalso. rewrite map_app in Hin. apply elem_of_app in Hin as [Hin|Hin].
    + exact (Hno Hin).
    + revert Hin. apply (bool_decide_unpack _). reflexivity.
  - intros Hkeys.
    destruct article_dict as [|[k1 id] [|[k2 page_url] [|[k3 u] [|? ?]]]];
      try discriminate Hkeys.
    injection Hkeys as -> -> ->.
    cbn in Hurl. injection Hurl as ->.
    exists id, page_url. split; [reflexivity|].
    split; [|split; [reflexivity|discriminate]].
    rewrite Hrun, Hpop.
    + reflexivity.
    + right. left.
Qed.

Lemma compile_article_data_record_witness :
  compile_article_data (fun _ => "[]")
    (fun _ => ret {| ad_description := PStr "leather boots";
                     ad_colour := PStr "black"; ad_tags := PList [];
                     ad_materials := PList []; ad_img_urls := PList [] |})
    sample_article_url
  = ret [sample_article].
Proof.
  refine (proj1 (compile_article_data_record (fun _ => "[]")
                   (fun _ => ret {| ad_description := PStr "leather boots";
                                    ad_colour := PStr "black";
                                    ad_tags := PList [];
                                    ad_materials := PList [];
                                    ad_img_urls := PList [] |})
                   sample_article_url
                   (PStr "https://www.example.com/prd/1") _
                   eq_refl eq_refl _) _).
  - repeat constructor; apply (bool_decide_unpack _); reflexivity.
  - apply (bool_decide_unpack _). reflexivity.
Defined.

(** ** The categories *)

Lemma digits_value_all_digits (s : string) :
  all_digits s = true -> forall acc, exists z, digits_value acc s = Some z.
Proof.
  induction s as [|c s IH]; intros Hs acc; simpl in *; [eauto|].
  destruct (digit_value c); [|discriminate]. apply IH. exact Hs.
Qed.

Lemma int_of_str_cid (s : string) :
  is_cid s = true -> exists z, int_of_str s = ret z.
Proof.
  unfold is_cid. intros H. apply andb_prop in H as [H _].
  apply andb_prop in H as [Hdigits Hlen].
  destruct (digits_value_all_digits s Hdigits 0) as [z Hz].
  exists z. unfold int_of_str. rewrite Hz.
  destruct s; [discriminate Hlen|reflexivity].
Qed.

Section Assoc.

Context {K V : Type} `{EqDecision K}.

Lemma assoc_set_elem (k : K) (v : V) (d : list (K * V)) (kv : K * V) :
  kv ∈ assoc_set k v d -> kv = (k, v) \/ kv ∈ d.
Proof.
  induction d as [|[k' v'] d IH]; cbn [assoc_set].
  - intros H. apply list_elem_of_singleton in H. auto.
  - destruct (decide (k = k')) as [->|Hne]; intros H;
      apply elem_of_cons in H as [->|H].
    + auto.
    + right. right. exact H.
    + right. left.
    + destruct (IH H) as [->|Hd]; [auto|]. right. right. exact Hd.
Qed.

Lemma assoc_set_in (k : K) (v : V) (d : list (K * V)) :
  (k, v) ∈ assoc_set k v d.
Proof.
  induction d as [|[k' v'] d IH]; cbn [assoc_set]; [left|].
  destruct (decide (k = k')); [left|right; exact IH].
Qed.

Lemma assoc_set_other (k : K) (v : V) (d : list (K * V)) (kv : K * V) :
  kv.1 <> k -> kv ∈ d -> kv ∈ assoc_set k v d.
Proof.
  intros Hne. induction d as [|[k' v'] d IH]; cbn [assoc_set]; intros H.
  - inversion H.
  - apply elem_of_cons in H as [->|H].
    + destruct (decide (k = k')) as [->|_]; [contradiction|left].
    + destruct (decide (k = k')); right; auto.
Qed.

Lemma assoc_set_NoDup (k : K) (v : V) (d : list (K * V)) :
  NoDup (map fst d) -> NoDup (map fst (assoc_set k v d)).
Proof.
  induction d as [|[k' v'] d IH]; cbn [assoc_set map]; intros Hd.
  - apply NoDup_singleton.
  - apply NoDup_cons in Hd as [Hk' Hd].
    destruct (decide (k = k')) as [->|Hne]; cbn [map fst].
    + apply NoDup_cons. split; assumption.
    + apply NoDup_cons. split; [|apply IH; exact Hd].
      intros Hin. apply list_elem_of_fmap in Hin as (kv & Hfst & Hin).
      apply assoc_set_elem in Hin as [->|Hin].
      * simpl in Hfst. congruence.
      * apply Hk'. apply list_elem_of_fmap. eauto.
Qed.

Lemma assoc_set_length (k : K) (v : V) (d : list (K * V)) :
  (length (assoc_set k v d) <= S (length d))%nat.
Proof.
  induction d as [|[k' v'] d IH]; cbn [assoc_set]; [simpl; lia|].
  destruct (decide (k = k')); simpl in *; lia.
Qed.

Lemma dict_union_NoDup (b a : list (K * V)) :
  NoDup (map fst a) -> NoDup (map fst (dict_union a b)).
Proof.
  revert a. induction b as [|[k v] b IH]; intros a Ha; [exact Ha|].
  apply (IH (assoc_set k v a)). apply assoc_set_NoDup. exact Ha.
Qed.

Lemma dict_union_elem (b a : list (K * V)) (kv : K * V) :
  kv ∈ dict_union a b -> kv ∈ a \/ kv ∈ b.
Proof.
  revert a. induction b as [|[k v] b IH]; intros a H; [auto|].
  destruct (IH (assoc_set k v a) H) as [Ha|Hb].
  - apply assoc_set_elem in Ha as [->|Ha]; [right; left|auto].
  - right. right. exact Hb.
Qed.

Lemma dict_union_keeps (b a : list (K * V)) (kv : K * V) :
  kv ∈ a -> kv.1 ∉ map fst b -> kv ∈ dict_union a b.
Proof.
  revert a. induction b as [|[k v] b IH]; intros a Ha Hb; [exact Ha|].
  cbn [map fst] in Hb. apply not_elem_of_cons in Hb as [Hne Hb].
  apply (IH (assoc_set k v a)); [|exact Hb].
  apply assoc_set_other; assumption.
Qed.

(** In [a | b] every item of [b] is present with the value it has in [b]. *)
Lemma dict_union_right (b a : list (K * V)) (kv : K * V) :
  NoDup (map fst b) -> kv ∈ b -> kv ∈ dict_union a b.
Proof.
  revert a. induction b as [|[k v] b IH]; intros a Hb Hin; [inversion Hin|].
  cbn [map fst] in Hb. apply NoDup_cons in Hb as [Hk Hb].
  apply elem_of_cons in Hin as [->|Hin].
  - apply (dict_union_keeps b (assoc_set k v a)); [apply assoc_set_in|exact Hk].
  - apply (IH (assoc_set k v a)); assumption.
Qed.

Lemma dict_union_length (b a : list (K * V)) :
  (length (dict_union a b) <= length a + length b)%nat.
Proof.
  revert a. induction b as [|[k v] b IH]; intros a; [simpl; lia|].
  pose proof (IH (assoc_set k v a)) as H1.
  pose proof (assoc_set_length k v a) as H2.
  change (dict_union a ((k, v) :: b)) with (dict_union (assoc_set k v a) b).
  simpl. lia.
Qed.

End Assoc.

(** What the dict comprehension builds from tuples whose ids convert. *)
Lemma scraped_categories_ok (tuples_list : list category_tuple) :
  Forall (fun t => is_cid (ct_cid t) = true) tuples_list ->
  forall acc,
    NoDup (map fst acc) ->
    Forall (fun kv => category_value kv.2) acc ->
    exists categories,
      scraped_categories tuples_list acc = ret categories
      /\ NoDup (map fst categories)
      /\ Forall (fun kv => category_value kv.2) categories
      /\ (length categories <= length acc + length tuples_list)%nat.
Proof.
  induction 1 as [|t tuples_list Ht _ IH]; intros acc Hnodup Hvalues.
  - exists acc. repeat split; auto. simpl. lia.
  - destruct (int_of_str_cid _ Ht) as [cid Hcid].
    cbn [scraped_categories]. rewrite Hcid. simpl.
    edestruct (IH (assoc_set cid
                     [("gender", PStr (ct_gender t));
                      ("category", PStr "clothing");
                      ("subcategory", PStr (ct_subcategory t));
                      ("base_url", PStr (ct_href t))] acc))
      as (categories & Hrun & Hk & Hv & Hlen).
    + apply assoc_set_NoDup. exact Hnodup.
    + apply Forall_forall. intros kv Hkv.
      apply assoc_set_elem in Hkv as [->|Hkv]; [reflexivity|].
      eapply Forall_forall in Hvalues; eauto.
    + exists categories. split; [exact Hrun|]. split; [exact Hk|].
      split; [exact Hv|].
      pose proof (assoc_set_length cid
                    [("gender", PStr (ct_gender t));
                     ("category", PStr "clothing");
                     ("subcategory", PStr (ct_subcategory t));
                     ("base_url", PStr (ct_href t))] acc).
      simpl. lia.
Qed.

Lemma MORE_CATEGORIES_values (WEBSITE : string) :
  Forall (fun kv => category_value kv.2) (MORE_CATEGORIES WEBSITE).
Proof. repeat constructor. Qed.

Lemma MORE_CATEGORIES_keys (WEBSITE : string) :
  NoDup (map fst (MORE_CATEGORIES WEBSITE)).
Proof. apply (bool_decide_unpack _). reflexivity. Qed.

(** [{"id": k, **v}] for a category value. *)
Lemma with_id_category (k : Z) (v : list (string * pyval)) :
  category_value v -> with_id k v = ("id", PInt k) :: v.
Proof.
  unfold category_value. intros Hv.
  destruct v as [|[k1 v1] [|[k2 v2] [|[k3 v3] [|[k4 v4] [|? ?]]]]];
    try discriminate Hv.
  injection Hv as -> -> -> ->. reflexivity.
Qed.

Lemma category_records (categories : list (Z * list (string * pyval))) :
  NoDup (map fst categories) ->
  Forall (fun kv => category_value kv.2) categories ->
  Forall (fun c => dict_keys c = column_names CATEGORIES_TABLE)
    (map (fun kv => with_id kv.1 kv.2) categories)
  /\ NoDup (map (record_key CATEGORIES_TABLE)
              (map (fun kv => with_id kv.1 kv.2) categories)).
Proof.
  intros Hnodup Hvalues. split.
  - apply Forall_forall. intros c Hc.
    apply list_elem_of_fmap in Hc as (kv & -> & Hkv).
    eapply Forall_forall in Hvalues; [|exact Hkv].
    rewrite (with_id_category _ _ Hvalues). unfold dict_keys. cbn [map fst].
    rewrite Hvalues. reflexivity.
  - rewrite <- list_fmap_compose.
    rewrite (list_fmap_ext _ (fun kv => PInt kv.1) categories).
    + rewrite <- (map_map fst PInt).
      apply NoDup_fmap_2; [|exact Hnodup]. intros x y [= ->]. reflexivity.
    + intros i kv Hkv. apply list_elem_of_lookup_2 in Hkv.
      eapply Forall_forall in Hvalues; [|exact Hkv].
      unfold compose. rewrite (with_id_category _ _ Hvalues). reflexivity.
Qed.

(** X20. The categories. When the scraping of the home page ends with an
    [AttributeError], [extract_categories_urls] returns the four records of
    [MORE_CATEGORIES]; any other exception is raised as it is. When the
    page is scraped, whatever it holds, the function returns records that
    all have the columns of the [categories] table as their keys, in
    order, under ids that are pairwise distinct; the four records of
    [MORE_CATEGORIES] are among them, with the values of the constant even
    when the page lists a category under one of their ids; and there are no
    more records than tuples scraped plus four. *)
Theorem extract_categories_urls_records (WEBSITE : string)
    (scraped : result (list category_tuple)) :
  (forall msg,
      scraped = raise (AttributeError msg) ->
      extract_categories_urls WEBSITE scraped
        = ret (map (fun kv => with_id kv.1 kv.2) (MORE_CATEGORIES WEBSITE)))
  /\ (forall e,
        scraped = raise e -> (forall msg, e <> AttributeError msg) ->
        extract_categories_urls WEBSITE scraped = raise e)
  /\ (forall tuples_list,
        scraped = ret tuples_list ->
        Forall (fun t => is_cid (ct_cid t) = true) tuples_list ->
        exists records,
          extract_categories_urls WEBSITE scraped = ret records
          /\ Forall (fun c => dict_keys c = column_names CATEGORIES_TABLE)
               records
          /\ NoDup (map (record_key CATEGORIES_TABLE) records)
          /\ (forall kv, kv ∈ MORE_CATEGORIES WEBSITE ->
                         with_id kv.1 kv.2 ∈ records)
          /\ (length records <= length tuples_list + 4)%nat).
Proof.
  split; [|split].
  - intros msg ->. reflexivity.
  - intros e -> He. unfold extract_categories_urls. simpl.
    destruct e; try reflexivity. exfalso. eapply He. reflexivity.
  - intros tuples_list -> Hcids.
    destruct (scraped_categories_ok tuples_list Hcids [])
      as (categories & Hrun & Hk & Hv & Hlen);
      [constructor|constructor|].
    exists (map (fun kv => with_id kv.1 kv.2)
              (dict_union categories (MORE_CATEGORIES WEBSITE))).
    split.
    { unfold extract_categories_urls. cbn [bind ret]. rewrite Hrun.
      reflexivity. }
    assert (Hk' : NoDup (map fst (dict_union categories
                                    (MORE_CATEGORIES WEBSITE))))
      by (apply dict_union_NoDup; exact Hk).
    assert (Hv' : Forall (fun kv => category_value kv.2)
                    (dict_union categories (MORE_CATEGORIES WEBSITE))).
    { apply Forall_forall. intros kv Hkv.
      apply dict_union_elem in Hkv as [Hkv|Hkv].
      - eapply Forall_forall in Hv; eauto.
      - pose proof (MORE_CATEGORIES_values WEBSITE) as Hm.
        eapply Forall_forall in Hm; eauto. }
    destruct (category_records _ Hk' Hv') as [Hcols Hids].
    split; [exact Hcols|]. split; [exact Hids|]. split.
    + intros kv Hkv. apply list_elem_of_fmap. exists kv.
      split; [reflexivity|].
      apply dict_union_right; [apply MORE_CATEGORIES_keys|exact Hkv].
    + rewrite length_map.
      pose proof (dict_union_length (MORE_CATEGORIES WEBSITE) categories) as H.
      change (length (MORE_CATEGORIES WEBSITE)) with 4%nat in H.
      cbn [length] in Hlen. lia.
Qed.

Lemma extract_categories_urls_records_witness :
  extract_categories_urls "example" (raise (AttributeError "find"))
    = ret (map (fun kv => with_id kv.1 kv.2) (MORE_CATEGORIES "example"))
  /\ exists records,
       extract_categories_urls "example"
         (ret [{| ct_href := "https://www.example.com/women/dresses/cat/?cid=4172";
                  ct_gender := "women"; ct_subcategory := "dresses";
                  ct_cid := "4172" |}])
         = ret records
       /\ (forall kv, kv ∈ MORE_CATEGORIES "example" ->
                      with_id kv.1 kv.2 ∈ records)
       /\ (length records <= 1 + 4)%nat.
Proof.
  split.
  - apply (proj1 (extract_categories_urls_records "example"
                    (raise (AttributeError "find"))) "find" eq_refl).
  - destruct (proj2 (proj2 (extract_categories_urls_records "example"
                (ret [{| ct_href := "https://www.example.com/women/dresses/cat/?cid=4172";
                         ct_gender := "women"; ct_subcategory := "dresses";
                         ct_cid := "4172" |}]))) _ eq_refl)
      as (records & Hrun & _ & _ & Hmore & Hlen).
    + repeat constructor.
    + exists records. split; [exact Hrun|]. split; [exact Hmore|exact Hlen].
Defined.

(** ** From one stage to the next *)

(** X21. What stage 3 reads is what stage 2 compiled. For a category whose
    id is an [int] of 64 bits and whose base URL is a [str], the records
    [compile_page_urls] returns, flattened and written by [insert_into]
    into an empty [pages_urls] table as one flush of [make_requests] does,
    are accepted, and [to_pandas().to_dict("records")] reads them back
    unchanged and in order; each of them has the ["id"] and the
    ["page_url"] that [compile_article_urls] asks for. *)
Theorem pages_written_and_read_back (affinity : string -> sqlval -> sqlval)
    (fetch_total_pages : pyval -> result Z) (category_dict : WorkItem)
    (id : pyval) (base : string) (total_pages : Z) (database : db) :
  (forall decltype x, fits decltype x = true -> affinity decltype x = x) ->
  dict_get "id" category_dict = ret id ->
  reads_back "INTEGER" id = true ->
  dict_get "base_url" category_dict = ret (PStr base) ->
  fetch_total_pages (PStr base) = ret total_pages ->
  database !! "pages_urls" = Some (IndexTable []) ->
  let self := {| _table_name := "pages_urls" |} in
  exists records database',
    compile_page_urls fetch_total_pages category_dict = ret records
    /\ (let* data := flatten [PList (map PDict records)] in
        insert_into_sink affinity self data database) = ret database'
    /\ to_records self database' = ret records
    /\ Forall (fun c => dict_get "id" c = ret id
                        /\ exists u, dict_get "page_url" c = ret (PStr u))
         records.
Proof.
  intros Haff Hid Hint Hbase Hfetch Htable self.
  pose proof (compile_page_urls_records _ _ _ _ _ Hid Hbase Hfetch) as Hrun.
  destruct (insert_into_appends affinity self PAGES_URLS_TABLE _ database []
              Haff eq_refl Htable
              (page_records_for id base total_pages Hint)
              (page_records_keys id base total_pages))
    as (old & database' & Hold & Hins & Hread).
  { intros c r _ Hr. inversion Hr. }
  unfold to_records in Hold. cbn [_table_name self] in Hold.
  rewrite Htable in Hold.
  change (DB_SCHEMA !! "pages_urls") with (Some PAGES_URLS_TABLE) in Hold.
  cbn [select_all map] in Hold. injection Hold as <-.
  eexists _, database'. split; [exact Hrun|]. split; [|split].
  - change (flatten [PList (map PDict ?l)])
      with (flatten (map PList [map PDict l])).
    rewrite flatten_lists. cbn [concat bind ret]. rewrite app_nil_r.
    unfold insert_into_sink. rewrite Hins. reflexivity.
  - exact Hread.
  - apply Forall_forall. intros c Hc.
    apply list_elem_of_fmap in Hc as (p & -> & _). split; [reflexivity|].
    eexists. reflexivity.
Qed.

Lemma pages_written_and_read_back_witness :
  exists records database',
    compile_page_urls (fun _ => ret 2) sample_category = ret records
    /\ (let* data := flatten [PList (map PDict records)] in
        insert_into_sink stored_as_bound {| _table_name := "pages_urls" |}
          data (fresh_db "pages_urls")) = ret database'
    /\ to_records {| _table_name := "pages_urls" |} database' = ret records
    /\ Forall (fun c => dict_get "id" c = ret (PInt 4172)
                        /\ exists u, dict_get "page_url" c = ret (PStr u))
         records.
Proof.
  apply (pages_written_and_read_back stored_as_bound (fun _ => ret 2)
           sample_category (PInt 4172)
           "https://www.example.com/women/shoes/cat/?cid=4172" 2
           (fresh_db "pages_urls"));
    reflexivity.
Defined.
